(** * Stagecoach problem: backward induction over a staged graph

    A shallow embedding of the class [StagecoachProblem] of
    [stagecoach_solver.py] and of the places of the GUI that mutate it,
    followed by the properties of the solver.

    Python values are modelled as follows.
    - A node name is a [string].
    - An edge weight is a Python [int], here a [Z].
    - An entry of the cost table is an [int] or [float('inf')]: type [cost].
    - [self.edges] and [self.default_edges] are dicts of dicts.  A dict keeps
      its insertion order and the solver's tie-break depends on it, so a dict
      is an association list.  The inner dicts are mutable objects that are
      shared by reference: they live in a [heap] and the outer dicts hold their
      addresses.
    - [self.cost_to_go] and [self.next_node] are only read by key: [gmap]s.
    - Methods run in a state and exception monad over the object; an
      exception leaves the object as it was when it was raised. *)

From Stdlib Require Import ZArith String List Lia.
From stdpp Require Import base tactics option list strings gmap.

Local Open Scope string_scope.

(** ** Python values *)

(** A number stored in [cost_to_go]: an [int], or [float('inf')]. *)
Inductive cost : Type :=
| Fin (z : Z)
| Inf.

(** The exceptions that the modelled code can raise. *)
Inductive exn : Type :=
| KeyError (k : string)
| IndexError
| ValueError
| OverflowError.

(** [int + float('inf')] converts the [int] to a [float] first; CPython
    raises [OverflowError] when the integer rounds beyond the largest
    double. *)
Definition float_ok (z : Z) : bool :=
  (Z.abs z <? 2 ^ 1024 - 2 ^ 970)%Z.

(** [transition_cost + self.cost_to_go[neighbor]] *)
Definition cost_add (w : Z) (c : cost) : exn + cost :=
  match c with
  | Fin z => inr (Fin (w + z))
  | Inf => if float_ok w then inr Inf else inl OverflowError
  end.

(** [total_cost < self.cost_to_go[current_node]] *)
Definition cost_lt (a b : cost) : bool :=
  match a, b with
  | Fin x, Fin y => (x <? y)%Z
  | Fin _, Inf => true
  | Inf, _ => false
  end.

(** ** Insertion-ordered dicts with string keys *)

Section Dict.
Context {V : Type}.

(** [d.get(k)] *)
Fixpoint dict_get (k : string) (d : list (string * V)) : option V :=
  match d with
  | [] => None
  | (k', v) :: d' => if String.eqb k k' then Some v else dict_get k d'
  end.

(** [k in d] *)
Definition dict_mem (k : string) (d : list (string * V)) : bool :=
  match dict_get k d with Some _ => true | None => false end.

(** [d[k] = v]: an existing key keeps its position, a new key goes last. *)
Fixpoint dict_set (k : string) (v : V) (d : list (string * V))
  : list (string * V) :=
  match d with
  | [] => [(k, v)]
  | (k', v') :: d' =>
      if String.eqb k k' then (k', v) :: d' else (k', v') :: dict_set k v d'
  end.

(** [list(d)], the keys in iteration order *)
Definition dict_keys (d : list (string * V)) : list string := map fst d.
End Dict.

(** An inner dict: neighbour name to edge weight. *)
Abbreviation adj := (list (string * Z)).

(** ** The object *)

Record StagecoachProblem : Type := mkStagecoachProblem {
  heap : list adj;                      (* the inner dict objects, by address *)
  default_edges : list (string * nat);  (* node -> address of its inner dict *)
  edges : list (string * nat);
  cost_to_go : gmap string cost;
  next_node : gmap string (option string);
}.

Definition set_heap (h : list adj) (s : StagecoachProblem) :=
  mkStagecoachProblem h (default_edges s) (edges s) (cost_to_go s) (next_node s).
Definition set_default_edges (e : list (string * nat)) (s : StagecoachProblem) :=
  mkStagecoachProblem (heap s) e (edges s) (cost_to_go s) (next_node s).
Definition set_edges (e : list (string * nat)) (s : StagecoachProblem) :=
  mkStagecoachProblem (heap s) (default_edges s) e (cost_to_go s) (next_node s).
Definition set_cost_to_go (c : gmap string cost) (s : StagecoachProblem) :=
  mkStagecoachProblem (heap s) (default_edges s) (edges s) c (next_node s).
Definition set_next_node (n : gmap string (option string))
  (s : StagecoachProblem) :=
  mkStagecoachProblem (heap s) (default_edges s) (edges s) (cost_to_go s) n.

(** [self.stages] and [self.all_nodes] are assigned once by the constructor
    and never written again. *)
Definition stages : list (nat * list string) :=
  [ (0, ["A"]); (1, ["B"; "C"; "D"]); (2, ["E"; "F"; "G"]);
    (3, ["H"; "I"]); (4, ["J"]) ]%nat.

Definition all_nodes : list string :=
  ["A"; "B"; "C"; "D"; "E"; "F"; "G"; "H"; "I"; "J"].

(** The literal of [self.default_edges]. *)
Definition default_table : list (string * adj) :=
  [ ("A", [("B", 2); ("C", 4); ("D", 3)]);
    ("B", [("E", 7); ("F", 4)]);
    ("C", [("E", 6); ("F", 3); ("G", 4)]);
    ("D", [("F", 1); ("G", 5)]);
    ("E", [("H", 1); ("I", 6)]);
    ("F", [("H", 6); ("I", 3)]);
    ("G", [("H", 3); ("I", 3)]);
    ("H", [("J", 3)]);
    ("I", [("J", 4)]);
    ("J", []) ]%Z.

(** ** The monad of methods *)

(** How a call ends: with a value, with an exception, or still inside a
    [while] loop when the fuel of the model is spent. *)
Inductive outcome (A : Type) : Type :=
| Ok (a : A)
| Raise (e : exn)
| OutOfFuel.
Arguments Ok {A} a.
Arguments Raise {A} e.
Arguments OutOfFuel {A}.

(** A method body: it returns an outcome and the object as it has become;
    after an exception that is the object at the moment of the raise. *)
Definition M (A : Type) : Type :=
  StagecoachProblem -> outcome A * StagecoachProblem.

Definition ret {A} (a : A) : M A := fun s => (Ok a, s).

Definition bind {A B} (m : M A) (k : A -> M B) : M B :=
  fun s =>
    match m s with
    | (Ok a, s') => k a s'
    | (Raise e, s') => (Raise e, s')
    | (OutOfFuel, s') => (OutOfFuel, s')
    end.

Definition raise {A} (e : exn) : M A := fun s => (Raise e, s).
Definition out_of_fuel {A} : M A := fun s => (OutOfFuel, s).
Definition gets {A} (f : StagecoachProblem -> A) : M A := fun s => (Ok (f s), s).
Definition modify (f : StagecoachProblem -> StagecoachProblem) : M unit :=
  fun s => (Ok tt, f s).

Declare Scope py_scope.
Delimit Scope py_scope with py.
Notation "'let!' x ':=' m 'in' k" := (bind m (fun x => k))
  (at level 10, x pattern, m at level 100, k at level 200) : py_scope.
Notation "m ';;;' k" := (bind m (fun _ => k))
  (at level 100, k at level 200, right associativity) : py_scope.
Local Open Scope py_scope.

(** [for x in l: body(x)] *)
Fixpoint for_each {A} (l : list A) (body : A -> M unit) : M unit :=
  match l with
  | [] => ret tt
  | x :: l' => body x ;;; for_each l' body
  end.

(** [d[k]] on a dict that is a value: [KeyError] when the key is absent. *)
Definition subscript {V} (k : string) (d : option V) : M V :=
  match d with
  | Some v => ret v
  | None => raise (KeyError k)
  end.

(** The inner dict at an address.  Every address held by the object is
    allocated (see [well_formed] below); the empty dict stands for the
    others. *)
Definition deref (l : nat) (s : StagecoachProblem) : adj :=
  default [] (heap s !! l).

(** A new dict object holding [d]; returns its address. *)
Definition alloc (d : adj) : M nat :=
  fun s => (Ok (length (heap s)), set_heap (heap s ++ [d])%list s).

(** [obj[k] = v] on the inner dict at address [l]. *)
Definition store (l : nat) (k : string) (v : Z) : M unit :=
  modify (fun s => set_heap (<[l := dict_set k v (deref l s)]> (heap s)) s).

(** Monadic left fold: a [for] loop that threads a local value. *)
Fixpoint fold_m {A B} (f : B -> A -> M B) (l : list A) (b : B) : M B :=
  match l with
  | [] => ret b
  | x :: l' => let! b' := f b x in fold_m f l' b'
  end.

(** [xs[i]] on a list *)
Definition index {A} (i : nat) (xs : list A) : M A :=
  match xs !! i with
  | Some x => ret x
  | None => raise IndexError
  end.

(** [self.edges[node]]: the address of the inner dict of [node]. *)
Definition edges_at (node : string) : M nat :=
  let! e := gets edges in subscript node (dict_get node e).

(** ** Construction and weight editing *)

(** A dict-of-dicts literal: every inner dict is a new object. *)
Definition literal (t : list (string * adj)) : M (list (string * nat)) :=
  fold_m (fun acc '(node, d) =>
            let! l := alloc d in
            ret (dict_set node l acc)) t [].

(** [{node: dict(neighbors) for node, neighbors in edges.items()}] *)
Definition _deep_copy_edges (e : list (string * nat))
  : M (list (string * nat)) :=
  fold_m (fun acc '(node, neighbors) =>
            let! d := gets (deref neighbors) in
            let! l := alloc d in
            ret (dict_set node l acc)) e [].

(** The constructor, for the attributes that are written later on. *)
Definition __init__ : M unit :=
  let! d := literal default_table in
  modify (set_default_edges d) ;;;             (* self.default_edges = {...} *)
  let! d' := gets default_edges in
  let! e := _deep_copy_edges d' in
  modify (set_edges e) ;;;                     (* self.edges = copy *)
  modify (set_cost_to_go ∅) ;;;                (* self.cost_to_go = {} *)
  modify (set_next_node ∅).                    (* self.next_node = {} *)

(** The object before its constructor has run, and [StagecoachProblem()]. *)
Definition blank : StagecoachProblem := mkStagecoachProblem [] [] [] ∅ ∅.
Definition new_problem : StagecoachProblem := snd (__init__ blank).

(** [self.edges = self._deep_copy_edges(self.default_edges)] *)
Definition reset_to_default : M unit :=
  let! d := gets default_edges in
  let! e := _deep_copy_edges d in
  modify (set_edges e).

(** [random.randint(a, b)] is [randrange(a, b + 1)]: with
    [width = b + 1 - a] it returns [a + _randbelow(width)] when
    [width > 0] and raises [ValueError] otherwise.  [r] is the raw draw of
    the generator, reduced into [0, width). *)
Definition randint (r : Z) (a b : Z) : M Z :=
  let width := (b + 1 - a)%Z in
  if (0 <? width)%Z then ret (a + r mod width)%Z else raise ValueError.

(** The generator is external: [draw i] is its [i]-th raw draw.  The
    right-hand side of the assignment is evaluated before its target. *)
Definition set_random_weights (draw : nat -> Z) (min_val max_val : Z)
  : M unit :=
  let! nodes := gets (fun s => dict_keys (edges s)) in
  let! _ :=
    fold_m (fun i node =>                      (* for node in self.edges *)
      let! l := edges_at node in
      let! neighbors := gets (fun s => dict_keys (deref l s)) in
      fold_m (fun j neighbor =>                (* for neighbor in self.edges[node] *)
        let! v := randint (draw j) min_val max_val in
        let! l' := edges_at node in
        store l' neighbor v ;;;                (* self.edges[node][neighbor] = v *)
        ret (S j)) neighbors i) nodes 0%nat in
  ret tt.

(** [if from_node in self.edges and to_node in self.edges[from_node]:
    self.edges[from_node][to_node] = weight] *)
Definition set_edge_weight (from_node to_node : string) (weight : Z)
  : M unit :=
  let! e := gets edges in
  if dict_mem from_node e then
    let! l := edges_at from_node in
    let! d := gets (deref l) in
    if dict_mem to_node d then
      let! l' := edges_at from_node in
      store l' to_node weight
    else ret tt
  else ret tt.

(** [StagecoachGUI._reset_to_zero] writes [self.problem.edges] directly. *)
Definition _reset_to_zero : M unit :=
  let! nodes := gets (fun s => dict_keys (edges s)) in
  for_each nodes (fun node =>
    let! l := edges_at node in
    let! neighbors := gets (fun s => dict_keys (deref l s)) in
    for_each neighbors (fun neighbor =>
      let! l' := edges_at node in
      store l' neighbor 0%Z)).

(** ** Backward induction and path reconstruction *)

(** [self.edges.get(current_node, {})] *)
Definition get_neighbors (current_node : string) (s : StagecoachProblem)
  : adj :=
  match dict_get current_node (edges s) with
  | Some l => deref l s
  | None => []
  end.

(** A pure operation that can raise, as a step of a method. *)
Definition lift_exn {A} (r : exn + A) : M A :=
  match r with
  | inr a => ret a
  | inl e => raise e
  end.

(** [self.cost_to_go[node]] *)
Definition cost_at (node : string) : M cost :=
  let! c := gets cost_to_go in subscript node (c !! node).

(** The body of the inner loop, for one item of [neighbors.items()]. *)
Definition relax (current_node : string) (item : string * Z) : M unit :=
  let '(neighbor, transition_cost) := item in
  let! c := cost_at neighbor in
  let! total_cost := lift_exn (cost_add transition_cost c) in
  let! cur := cost_at current_node in
  if cost_lt total_cost cur then
    modify (fun s =>
      set_cost_to_go (<[current_node := total_cost]> (cost_to_go s)) s) ;;;
    modify (fun s =>
      set_next_node (<[current_node := Some neighbor]> (next_node s)) s)
  else ret tt.

(** The body of the outer loop. *)
Definition visit (current_node : string) : M unit :=
  if String.eqb current_node "J" then ret tt
  else
    let! neighbors := gets (get_neighbors current_node) in
    for_each neighbors (relax current_node).

(** The [while] loop of [_reconstruct_path]; [fuel] bounds the number of
    times its body runs. *)
Fixpoint reconstruct_loop (fuel : nat) (path : list string)
  (current : option string) : M (list string) :=
  match current with
  | None => ret path
  | Some c =>
      match fuel with
      | O => out_of_fuel
      | S fuel' =>
          let! nxt := gets (fun s => default None (next_node s !! c)) in
          reconstruct_loop fuel' (path ++ [c])%list nxt
      end
  end.

(** [path = []; current = 'A'; while current is not None: ...] *)
Definition _reconstruct_path (fuel : nat) : M (list string) :=
  reconstruct_loop fuel [] (Some "A").

(** The solver; [fuel] is handed to the loop of [_reconstruct_path]. *)
Definition solve_backward_induction (fuel : nat) : M (cost * list string) :=
  (* self.cost_to_go = {node: float('inf') for node in self.all_nodes} *)
  modify (set_cost_to_go
            (foldl (fun m node => <[node := Inf]> m) ∅ all_nodes)) ;;;
  (* self.next_node = {node: None for node in self.all_nodes} *)
  modify (set_next_node
            (foldl (fun m node => <[node := None]> m) ∅ all_nodes)) ;;;
  (* self.cost_to_go['J'] = 0 *)
  modify (fun s => set_cost_to_go (<["J" := Fin 0]> (cost_to_go s)) s) ;;;
  let nodes_reversed := rev all_nodes in
  for_each nodes_reversed visit ;;;
  let! optimal_path := _reconstruct_path fuel in
  let! c := cost_at "A" in
  ret (c, optimal_path).

(** The body of the loop of [get_path_details], at index [i]. *)
Definition detail_step (path : list string)
  (details : list (string * string * Z)) (i : nat)
  : M (list (string * string * Z)) :=
  let! from_node := index i path in
  let! to_node := index (i + 1) path in
  let! l := edges_at from_node in
  let! d := gets (deref l) in
  let! cost := subscript to_node (dict_get to_node d) in
  ret (details ++ [(from_node, to_node, cost)])%list.

(** [for i in range(len(path) - 1): ...], from the empty list of triples. *)
Definition get_path_details (fuel : nat) : M (list (string * string * Z)) :=
  let! path := _reconstruct_path fuel in
  fold_m (detail_step path) (seq 0 (length path - 1)) [].

(** ** Views of the edge table *)

(** The dict of dicts that [self.edges] denotes. *)
Definition edges_view (s : StagecoachProblem) : list (string * adj) :=
  map (fun '(n, l) => (n, deref l s)) (edges s).
Definition default_view (s : StagecoachProblem) : list (string * adj) :=
  map (fun '(n, l) => (n, deref l s)) (default_edges s).

(** ** Reference notions the properties are stated with *)

(** Order and sum on costs, with [Inf] above every integer. *)
Definition cost_le (a b : cost) : Prop :=
  match a, b with
  | Fin x, Fin y => (x <= y)%Z
  | _, Inf => True
  | Inf, Fin _ => False
  end.

Definition cost_plus (w : Z) (c : cost) : cost :=
  match c with
  | Fin z => Fin (w + z)
  | Inf => Inf
  end.

(** The candidate cost of an edge against a cost table. *)
Definition cand (ct : gmap string cost) (item : string * Z) : cost :=
  cost_plus (snd item) (default Inf (ct !! fst item)).

(** What the inner loop leaves for its node once it has gone through
    [items], having started from [acc]. *)
Fixpoint scan (ct : gmap string cost) (acc : cost * option string)
  (items : adj) : cost * option string :=
  match items with
  | [] => acc
  | item :: rest =>
      scan ct (if cost_lt (cand ct item) (fst acc)
               then (cand ct item, Some (fst item)) else acc) rest
  end.

(** The state in which the entries of node [u] are [r]. *)
Definition record (u : string) (r : cost * option string)
  (s : StagecoachProblem) : StagecoachProblem :=
  set_next_node (<[u := snd r]> (next_node s))
    (set_cost_to_go (<[u := fst r]> (cost_to_go s)) s).

(** [v] is the first item of [items] whose candidate is the least one, [c]:
    the items before it are strictly above [c], the items after it are not
    below. *)
Definition first_min (ct : gmap string cost) (items : adj)
  (v : string) (c : cost) : Prop :=
  exists l1 w l2,
    items = (l1 ++ (v, w) :: l2)%list
    /\ cand ct (v, w) = c
    /\ (forall i, i ∈ l1 -> cost_lt c (cand ct i) = true)
    /\ (forall i, i ∈ l2 -> cost_le c (cand ct i)).

(** ** Staged edge tables and the invariant of the outer loop *)

(** The nodes of [l] from which a chain of edges leads to "J", when every
    edge of a node of [l] goes to a node later in [l]. *)
Fixpoint live_of (nb : string -> adj) (l : list string) : list string :=
  match l with
  | [] => []
  | u :: post =>
      if String.eqb u "J"
         || existsb (fun item => bool_decide (fst item ∈ live_of nb post))
              (nb u)
      then u :: live_of nb post
      else live_of nb post
  end.

(** [l] lists every node once, every edge of a node of [l] other than "J"
    goes to a node later in [l], and an edge into a node that has no route
    to "J" carries a weight that converts to a [float]. *)
Fixpoint staged_from (nb : string -> adj) (l : list string) : bool :=
  match l with
  | [] => true
  | u :: post =>
      bool_decide (u ∉ post)
      && (String.eqb u "J"
          || forallb (fun item =>
                        bool_decide (fst item ∈ post)
                        && (bool_decide (fst item ∈ live_of nb post)
                            || float_ok (snd item)))
               (nb u))
      && staged_from nb post
  end.

(** The tables before the loop: sink at 0, the rest at infinity, no link. *)
Definition initial_on (l : list string) (s0 : StagecoachProblem) : Prop :=
  forall n, n ∈ l ->
    cost_to_go s0 !! n = Some (if String.eqb n "J" then Fin 0 else Inf)
    /\ next_node s0 !! n = Some None.

(** The tables once the nodes of [post] have been visited. *)
Record tables_on (nb : string -> adj) (post : list string)
  (s0 s : StagecoachProblem) : Prop := {
  to_heap : heap s = heap s0;
  to_edges : edges s = edges s0;
  to_default : default_edges s = default_edges s0;
  to_frame : forall n, n ∉ post \/ n = "J" ->
    cost_to_go s !! n = cost_to_go s0 !! n
    /\ next_node s !! n = next_node s0 !! n;
  to_scan : forall u, u ∈ post -> u <> "J" ->
    cost_to_go s !! u = Some (fst (scan (cost_to_go s) (Inf, None) (nb u)))
    /\ next_node s !! u = Some (snd (scan (cost_to_go s) (Inf, None) (nb u)));
  to_live : forall u, u ∈ live_of nb post ->
    exists z, cost_to_go s !! u = Some (Fin z);
  to_some : forall u, u ∈ post -> is_Some (cost_to_go s !! u);
}.

(** The state after the three assignments that precede the loop. *)
Definition start (s : StagecoachProblem) : StagecoachProblem :=
  set_cost_to_go
    (<["J" := Fin 0]> (foldl (fun m node => <[node := Inf]> m) ∅ all_nodes))
    (set_next_node (foldl (fun m node => <[node := None]> m) ∅ all_nodes) s).

(** ** The walk along the links *)

(** [self.next_node.get(u)] *)
Definition link (s : StagecoachProblem) (u : string) : option string :=
  default None (next_node s !! u).

(** [p] is the walk of [_reconstruct_path] from [u]: it follows the links
    and stops at the first node that has none. *)
Inductive follows (s : StagecoachProblem) : string -> list string -> Prop :=
| follows_end u : link s u = None -> follows s u [u]
| follows_step u v p :
    link s u = Some v -> follows s v p -> follows s u (u :: p).

(** The number of nodes of [l] from [u] on. *)
Fixpoint rank (l : list string) (u : string) : nat :=
  match l with
  | [] => 0
  | x :: l' => if String.eqb u x then S (length l') else rank l' u
  end.

(** The tables after the loop has visited every node: the sink at 0
    without a link, every other node of [all_nodes] at what the inner loop
    computes from the final table, and no link outside [all_nodes]. *)
Record solved (nb : string -> adj) (s : StagecoachProblem) : Prop := {
  sv_sink : cost_to_go s !! "J" = Some (Fin 0);
  sv_sink_link : link s "J" = None;
  sv_outside : forall n, n ∉ all_nodes -> link s n = None;
  sv_scan : forall u, u ∈ all_nodes -> u <> "J" ->
    cost_to_go s !! u = Some (fst (scan (cost_to_go s) (Inf, None) (nb u)))
    /\ next_node s !! u = Some (snd (scan (cost_to_go s) (Inf, None) (nb u)));
  sv_some : forall u, u ∈ all_nodes -> is_Some (cost_to_go s !! u);
  sv_live : forall u, u ∈ live_of nb all_nodes ->
    exists z, cost_to_go s !! u = Some (Fin z);
}.

(** ** Edges, topology and paths *)

(** The weight of the edge [(a, b)] in [self.edges], if the edge exists. *)
Definition weight_of (s : StagecoachProblem) (a b : string) : option Z :=
  match dict_get a (edges_view s) with
  | Some d => dict_get b d
  | None => None
  end.

(** Which edges exist: every node with its neighbours, in dict order. *)
Definition topology (t : list (string * adj)) : list (string * list string) :=
  map (fun '(n, d) => (n, dict_keys d)) t.

(** [self.edges] has the edges of the constructor's table, in its order;
    the weights are arbitrary.  No method adds or removes a key. *)
Definition fixed_topology (s : StagecoachProblem) : Prop :=
  topology (edges_view s) = topology default_table.

(** The neighbours of a node in the constructor's table. *)
Definition default_neighbors (u : string) : adj :=
  default [] (dict_get u default_table).

(** [staged_from] without its clause on weights: every edge leads to a
    later node that has a route to "J". *)
Fixpoint routed (nb : string -> adj) (l : list string) : bool :=
  match l with
  | [] => true
  | u :: post =>
      bool_decide (u ∉ post)
      && (String.eqb u "J"
          || forallb (fun v => bool_decide (v ∈ post)
                               && bool_decide (v ∈ live_of nb post))
               (dict_keys (nb u)))
      && routed nb post
  end.

(** The stage of a node, from [self.stages]. *)
Definition stage_of (u : string) : option nat :=
  fst <$> find (fun st => bool_decide (u ∈ snd st)) stages.

(** The sum of the edge weights along the node sequence [p]; [None] when
    [p] is empty or some consecutive pair is not an edge. *)
Fixpoint path_weight (s : StagecoachProblem) (p : list string) : option Z :=
  match p with
  | [] => None
  | u :: p' =>
      match p' with
      | [] => Some 0%Z
      | v :: _ =>
          match weight_of s u v, path_weight s p' with
          | Some w, Some m => Some (w + m)%Z
          | _, _ => None
          end
      end
  end.

(** A full source-to-sink path: from "A" to "J" along edges. *)
Definition full_path (s : StagecoachProblem) (p : list string) : Prop :=
  head p = Some "A" /\ last p = Some "J" /\ is_Some (path_weight s p).

(** The triples of the edges along [p]. *)
Fixpoint details_of (s : StagecoachProblem) (p : list string)
  : list (string * string * Z) :=
  match p with
  | [] => []
  | u :: p' =>
      match p' with
      | [] => []
      | v :: _ =>
          match weight_of s u v with
          | Some w => (u, v, w) :: details_of s p'
          | None => []
          end
      end
  end.

(** ** The dicts of the object in the heap *)

(** The addresses held by [self.edges] and [self.default_edges]. *)
Definition addresses (s : StagecoachProblem) : list nat :=
  (map snd (edges s) ++ map snd (default_edges s))%list.

(** No inner dict is shared, every address is allocated, [self.edges] has
    the constructor's edges and [self.default_edges] its weights too. *)
Record well_formed (s : StagecoachProblem) : Prop := {
  wf_separated : NoDup (addresses s);
  wf_allocated : Forall (fun l => l < length (heap s)) (addresses s);
  wf_topology : fixed_topology s;
  wf_default : default_view s = default_table;
}.

(** Every weight of [self.edges] is at least 0. *)
Definition nonneg_weights (s : StagecoachProblem) : bool :=
  forallb (fun nd => forallb (fun item => (0 <=? snd item)%Z) (snd nd))
    (edges_view s).

(** ** Frames and reachable states *)

(** [m] keeps [Q], whatever its outcome. *)
Definition preserves (Q : StagecoachProblem -> Prop) {A} (m : M A) : Prop :=
  forall s, Q s -> Q (snd (m s)).

(** The methods that edit weights write neither table of the solver. *)
Definition keeps_tables {A} (m : M A) : Prop :=
  forall s, cost_to_go (snd (m s)) = cost_to_go s
            /\ next_node (snd (m s)) = next_node s.


(** An edge table with a dead end: "G" without outgoing edges.  No method
    produces it; it shows what the solver does there. *)
Definition dead_end_problem : StagecoachProblem :=
  set_heap (<[16 := []]> (heap new_problem)) new_problem.

(** ** Edge tables that no method produces *)

(** An edge table in which "H" and "I" have no outgoing edge: the sink is
    cut off from the source. *)
Definition cut_problem : StagecoachProblem :=
  set_heap (<[17 := []]> (<[18 := []]> (heap new_problem))) new_problem.

(** ** The window: entries, handlers

    [StagecoachGUI] holds the problem, one entry widget per edge and the
    result label.  The widgets are Tk objects; the model keeps of them what
    the handlers read and write:
    - of an entry, the grid cell of its frame and its text, the text being
      modelled by what [int(entry.get())] makes of it: [Some z] for a text
      that reads as the integer [z], [None] for a text on which [int] raises
      [ValueError]; [entry.delete(0, END)] followed by
      [entry.insert(0, str(w))] leaves a text that reads as [w];
    - of the result label, the values that its text is formatted from;
    - of the message boxes, the number of error boxes shown.
    Every handler ends with a call of [_visualize_graph], which draws and
    writes neither the problem nor the entries, and some with an information
    box after it; the model of a handler stops before the drawing. *)

Record Entry : Type := mkEntry {
  cell : nat * nat;       (* row and column given to edge_frame.grid *)
  reading : option Z;     (* int(entry.get()) *)
}.

Record StagecoachGUI : Type := mkStagecoachGUI {
  problem : StagecoachProblem;
  weight_entries : list ((string * string) * Entry);
  result_label : option (cost * list string * list (string * string * Z));
  error_boxes : nat;
}.

Definition set_problem (p : StagecoachProblem) (g : StagecoachGUI) :=
  mkStagecoachGUI p (weight_entries g) (result_label g) (error_boxes g).
Definition set_weight_entries (es : list ((string * string) * Entry))
  (g : StagecoachGUI) :=
  mkStagecoachGUI (problem g) es (result_label g) (error_boxes g).
Definition set_result_label
  (r : option (cost * list string * list (string * string * Z)))
  (g : StagecoachGUI) :=
  mkStagecoachGUI (problem g) (weight_entries g) r (error_boxes g).
Definition set_error_boxes (n : nat) (g : StagecoachGUI) :=
  mkStagecoachGUI (problem g) (weight_entries g) (result_label g) n.

(** Equality of the keys [(from_node, to_node)] of [self.weight_entries]. *)
Definition key_eqb (k k' : string * string) : bool :=
  String.eqb (fst k) (fst k') && String.eqb (snd k) (snd k').

(** [d.get(k)] and [d[k] = v] on a dict with pairs as keys. *)
Fixpoint entries_get {V} (k : string * string)
  (d : list ((string * string) * V)) : option V :=
  match d with
  | [] => None
  | (k', v) :: d' => if key_eqb k k' then Some v else entries_get k d'
  end.

Fixpoint entries_set {V} (k : string * string) (v : V)
  (d : list ((string * string) * V)) : list ((string * string) * V) :=
  match d with
  | [] => [(k, v)]
  | (k', v') :: d' =>
      if key_eqb k k' then (k', v) :: d' else (k', v') :: entries_set k v d'
  end.

(** The monad of the handlers: as [M], over the window. *)
Definition G (A : Type) : Type :=
  StagecoachGUI -> outcome A * StagecoachGUI.

Definition gret {A} (a : A) : G A := fun g => (Ok a, g).

Definition gbind {A B} (m : G A) (k : A -> G B) : G B :=
  fun g =>
    match m g with
    | (Ok a, g') => k a g'
    | (Raise e, g') => (Raise e, g')
    | (OutOfFuel, g') => (OutOfFuel, g')
    end.

Definition graise {A} (e : exn) : G A := fun g => (Raise e, g).
Definition ggets {A} (f : StagecoachGUI -> A) : G A := fun g => (Ok (f g), g).
Definition gmodify (f : StagecoachGUI -> StagecoachGUI) : G unit :=
  fun g => (Ok tt, f g).

Notation "'do!' x ':=' m 'in' k" := (gbind m (fun x => k))
  (at level 10, x pattern, m at level 100, k at level 200) : py_scope.
Notation "m ';;>' k" := (gbind m (fun _ => k))
  (at level 100, k at level 200, right associativity) : py_scope.

(** A call of a method of [self.problem]. *)
Definition on_problem {A} (m : M A) : G A :=
  fun g => let (o, p) := m (problem g) in (o, set_problem p g).

(** [for x in l: body(x)] in a handler. *)
Fixpoint gfor_each {A} (l : list A) (body : A -> G unit) : G unit :=
  match l with
  | [] => gret tt
  | x :: l' => body x ;;> gfor_each l' body
  end.

(** One round of the inner loop of [_create_weight_entries_horizontal]:
    the entry of the edge goes to the cell [(row, col)] with the text
    [str(weight)], then the column advances and wraps after [max_cols]. *)
Definition place_entry (max_cols : nat) (from_node : string)
  (acc : nat * nat * list ((string * string) * Entry)) (item : string * Z)
  : nat * nat * list ((string * string) * Entry) :=
  let '(col, row, es) := acc in
  let '(to_node, weight) := item in
  let es' := entries_set (from_node, to_node)
               (mkEntry (row, col) (Some weight)) es in
  let col' := col + 1 in
  if (max_cols <=? col')%nat then (0, row + 1, es') else (col', row, es').

(** [self.problem.edges[from_node][to_node]] *)
Definition weight_at (from_node to_node : string) : M Z :=
  let! l := edges_at from_node in
  let! d := gets (deref l) in
  subscript to_node (dict_get to_node d).

Module GUI.

(** [col = 0; row = 0; max_cols = 9; for from_node in self.problem.all_nodes:
    neighbors = self.problem.edges.get(from_node, {}); if neighbors: for
    to_node, weight in neighbors.items(): ...] *)
Definition _create_weight_entries_horizontal : G unit :=
  gmodify (fun g =>
    let max_cols := 9 in
    let '(_, _, es) :=
      foldl (fun acc from_node =>
               let neighbors := get_neighbors from_node (problem g) in
               match neighbors with
               | [] => acc
               | _ => foldl (place_entry max_cols from_node) acc neighbors
               end)
        (0, 0, weight_entries g) all_nodes in
    set_weight_entries es g).

(** Of the widgets that [_create_widgets] builds, the entries and then the
    result label with its initial text. *)
Definition _create_widgets : G unit :=
  _create_weight_entries_horizontal ;;>
  gmodify (set_result_label None).

(** The constructor, up to its drawing: a new problem, an empty dict of
    entries, then the widgets. *)
Definition __init__ : G unit :=
  gmodify (set_problem new_problem) ;;>
  gmodify (set_weight_entries []) ;;>
  _create_widgets.

(** [for (from_node, to_node), entry in self.weight_entries.items():
    entry.delete(0, tk.END);
    entry.insert(0, str(self.problem.edges[from_node][to_node]))] *)
Definition _update_entries_from_problem : G unit :=
  do! items := ggets weight_entries in
  gfor_each items (fun '((from_node, to_node), entry) =>
    do! w := on_problem (weight_at from_node to_node) in
    gmodify (fun g =>
      set_weight_entries
        (entries_set (from_node, to_node) (mkEntry (cell entry) (Some w))
           (weight_entries g)) g)).

Definition _set_random_weights (draw : nat -> Z) : G unit :=
  on_problem (set_random_weights draw 1 10) ;;>
  _update_entries_from_problem.

Definition _reset_to_default : G unit :=
  on_problem reset_to_default ;;>
  _update_entries_from_problem.

(** The loops of the handler are [_reset_to_zero] above. *)
Definition _reset_to_zero : G unit :=
  on_problem _reset_to_zero ;;>
  _update_entries_from_problem.

(** The loop under [try] in [_solve_and_display]. *)
Definition apply_entries : G unit :=
  do! items := ggets weight_entries in
  gfor_each items (fun '((from_node, to_node), entry) =>
    match reading entry with
    | None => graise ValueError                 (* int(entry.get()) *)
    | Some weight =>
        if (weight <? 0)%Z then graise ValueError
        else on_problem (set_edge_weight from_node to_node weight)
    end).

(** [_solve_and_display], up to its drawing.  On [ValueError] the handler
    shows an error box and returns. *)
Definition _solve_and_display (fuel : nat) : G unit :=
  fun g =>
    match apply_entries g with
    | (Raise ValueError, g') =>
        (Ok tt, set_error_boxes (S (error_boxes g')) g')
    | (Ok _, g') =>
        (do! r := on_problem (solve_backward_induction fuel) in
         do! path_details := on_problem (get_path_details fuel) in
         gmodify (set_result_label (Some (fst r, snd r, path_details)))) g'
    | r => r
    end.

End GUI.

(** [StagecoachGUI(root)], up to its drawing. *)
Definition blank_gui : StagecoachGUI := mkStagecoachGUI blank [] None 0.
Definition new_gui : StagecoachGUI := snd (GUI.__init__ blank_gui).

(** The edges in the order in which the window lists them, with their
    weights in [self.problem.edges]. *)
Definition edge_items (s : StagecoachProblem) : list ((string * string) * Z) :=
  flat_map (fun a => map (fun '(b, w) => ((a, b), w)) (get_neighbors a s))
    all_nodes.

(** The entry that shows the weight of [item] in the [i]-th cell of a grid
    with rows of nine. *)
Definition shown (i : nat) (item : (string * string) * Z)
  : (string * string) * Entry :=
  (fst item, mkEntry (i / 9, i mod 9) (Some (snd item))).

(** An entry that [_solve_and_display] accepts: its text reads as an
    integer, and the integer is not negative. *)
Definition accepted (e : Entry) : bool :=
  match reading e with
  | Some w => (0 <=? w)%Z
  | None => false
  end.

(** [_update_entries_from_problem] on one entry. *)
Definition refreshed (s : StagecoachProblem) (ke : (string * string) * Entry)
  : (string * string) * Entry :=
  (fst ke, mkEntry (cell (snd ke)) (weight_of s (fst (fst ke)) (snd (fst ke)))).

(** ** The window in use

    Between two handlers the user may type into the entries; the buttons
    call the four handlers. *)
Definition type_text (k : string * string) (r : option Z) (g : StagecoachGUI)
  : StagecoachGUI :=
  match entries_get k (weight_entries g) with
  | Some e =>
      set_weight_entries (entries_set k (mkEntry (cell e) r) (weight_entries g)) g
  | None => g
  end.





(** The entries are those of the edges of the problem, in the order of
    [edge_items]; and they read its weights. *)
Definition entries_of_edges (g : StagecoachGUI) : Prop :=
  map fst (weight_entries g) = map fst (edge_items (problem g)).

Definition shows_table (g : StagecoachGUI) : Prop :=
  map (fun ke => (fst ke, reading (snd ke))) (weight_entries g)
  = map (fun item => (fst item, Some (snd item))) (edge_items (problem g)).


(** ** Running monadic code *)

Lemma bind_ok {A B} (m : M A) (k : A -> M B) s a s' :
  m s = (Ok a, s') -> bind m k s = k a s'.
Proof. intros H. unfold bind. by rewrite H. Qed.

Lemma bind_raise {A B} (m : M A) (k : A -> M B) s e s' :
  m s = (Raise e, s') -> bind m k s = (Raise e, s').
Proof. intros H. unfold bind. by rewrite H. Qed.

Lemma for_each_app {A} (l1 l2 : list A) body s :
  for_each (l1 ++ l2) body s
  = (for_each l1 body ;;; for_each l2 body) s.
Proof.
  revert s. induction l1 as [|x l1 IH]; intros s; simpl.
  - reflexivity.
  - unfold bind. destruct (body x s) as [[a| |] s1]; try reflexivity.
    rewrite IH. reflexivity.
Qed.


Lemma cost_lt_le a b : cost_lt a b = false <-> cost_le b a.
Proof. destruct a, b; simpl; rewrite ?Z.ltb_ge; intuition congruence. Qed.

Lemma cost_lt_true a b : cost_lt a b = true -> cost_le a b.
Proof. destruct a, b; simpl; rewrite ?Z.ltb_lt; try lia; congruence. Qed.

Lemma cost_le_refl a : cost_le a a.
Proof. destruct a; simpl; lia. Qed.

(** ** The inner loop *)

(** One pass of the inner loop's body. *)
Lemma relax_run u v w s cv cu :
  cost_to_go s !! v = Some cv ->
  cost_to_go s !! u = Some cu ->
  (cv = Inf -> float_ok w = true) ->
  relax u (v, w) s
  = (Ok tt,
     if cost_lt (cost_plus w cv) cu
     then set_next_node (<[u := Some v]> (next_node s))
            (set_cost_to_go (<[u := cost_plus w cv]> (cost_to_go s)) s)
     else s).
Proof.
  intros Hv Hu Hf. unfold relax, cost_at, bind, gets. simpl.
  rewrite Hv. simpl.
  assert (cost_add w cv = inr (cost_plus w cv)) as ->.
  { destruct cv; simpl; [reflexivity|]. by rewrite Hf. }
  simpl. rewrite Hu. simpl.
  destruct (cost_lt (cost_plus w cv) cu); reflexivity.
Qed.

Lemma record_id u r s :
  cost_to_go s !! u = Some (fst r) ->
  next_node s !! u = Some (snd r) ->
  record u r s = s.
Proof.
  intros Hc Hn. destruct s as [h d e c n]. unfold record. simpl in *.
  unfold set_next_node, set_cost_to_go. simpl.
  by rewrite !insert_id.
Qed.

Lemma record_record u r r' s : record u r (record u r' s) = record u r s.
Proof.
  destruct s as [h d e c n]. unfold record, set_next_node, set_cost_to_go.
  simpl. by rewrite !insert_insert_eq.
Qed.

Lemma scan_ext ct ct' acc items :
  (forall v w, (v, w) ∈ items -> ct !! v = ct' !! v) ->
  scan ct acc items = scan ct' acc items.
Proof.
  revert acc. induction items as [|[v w] rest IH]; intros acc H; simpl.
  - reflexivity.
  - assert (cand ct (v, w) = cand ct' (v, w)) as ->.
    { unfold cand. simpl. rewrite (H v w); [reflexivity | left]. }
    apply IH. intros v' w' Hin. apply (H v' w'). by right.
Qed.

(** The inner loop, as one step: it stores [scan] of the items. *)
Lemma inner_loop u items : forall s cu nu,
  cost_to_go s !! u = Some cu ->
  next_node s !! u = Some nu ->
  (forall v w, (v, w) ∈ items ->
     v <> u /\ exists cv, cost_to_go s !! v = Some cv
                          /\ (cv = Inf -> float_ok w = true)) ->
  for_each items (relax u) s
  = (Ok tt, record u (scan (cost_to_go s) (cu, nu) items) s).
Proof.
  induction items as [|[v w] rest IH]; intros s cu nu Hu Hn Hitems; simpl.
  - by rewrite record_id.
  - destruct (Hitems v w) as (Hvu & cv & Hv & Hf); [left|].
    erewrite bind_ok; [|by apply relax_run].
    assert (cand (cost_to_go s) (v, w) = cost_plus w cv) as Hc.
    { unfold cand. simpl. by rewrite Hv. }
    rewrite Hc.
    destruct (cost_lt (cost_plus w cv) cu) eqn:Hlt.
    + change (set_next_node _ _)
        with (record u (cost_plus w cv, Some v) s).
      rewrite (IH _ (cost_plus w cv) (Some v)).
      * rewrite record_record. f_equal. f_equal.
        apply scan_ext. intros v' w' Hin. simpl.
        destruct (Hitems v' w') as (Hne & _); [by right|].
        by rewrite lookup_insert_ne.
      * simpl. by rewrite lookup_insert_eq.
      * simpl. by rewrite lookup_insert_eq.
      * intros v' w' Hin.
        destruct (Hitems v' w') as (Hne & cv' & Hv' & Hf'); [by right|].
        split; [done|]. exists cv'. simpl.
        by rewrite lookup_insert_ne.
    + apply IH; [done | done |].
      intros v' w' Hin. apply Hitems. by right.
Qed.

(** ** What [scan] computes: the minimum, at its first occurrence *)

Lemma cost_lt_trans a b c :
  cost_lt a b = true -> cost_lt b c = true -> cost_lt a c = true.
Proof.
  destruct a, b, c; simpl; rewrite ?Z.ltb_lt; try congruence; lia.
Qed.

Lemma cost_lt_le_trans a b c :
  cost_lt a b = true -> cost_le b c -> cost_lt a c = true.
Proof.
  destruct a, b, c; simpl; rewrite ?Z.ltb_lt; try congruence; try lia.
Qed.

Lemma scan_spec ct items : forall acc,
  (scan ct acc items = acc
   /\ forall i, i ∈ items -> cost_le (fst acc) (cand ct i))
  \/ (exists v, snd (scan ct acc items) = Some v
        /\ first_min ct items v (fst (scan ct acc items))
        /\ cost_lt (fst (scan ct acc items)) (fst acc) = true).
Proof.
  induction items as [|[v w] rest IH]; intros acc; simpl.
  - left. split; [reflexivity|]. intros i Hi. inversion Hi.
  - destruct (cost_lt (cand ct (v, w)) (fst acc)) eqn:Hlt.
    + right.
      destruct (IH (cand ct (v, w), Some v)) as [[Heq Hall] | (v' & Hs & Hfm & Hlt')].
      * exists v. rewrite Heq. simpl. split; [reflexivity|]. split; [|done].
        exists [], w, rest. repeat split; try done.
        intros i Hi. inversion Hi.
      * exists v'. split; [done|]. simpl in Hlt'. split.
        -- destruct Hfm as (l1 & w' & l2 & -> & Hc & Hbefore & Hafter).
           exists ((v, w) :: l1), w', l2. repeat split; try done.
           intros i Hi. apply elem_of_cons in Hi as [-> | Hi]; [|by apply Hbefore].
           done.
        -- by eapply cost_lt_trans.
    + apply cost_lt_le in Hlt.
      destruct (IH acc) as [[Heq Hall] | (v' & Hs & Hfm & Hlt')].
      * left. split; [done|].
        intros i Hi. apply elem_of_cons in Hi as [-> | Hi]; [done | by apply Hall].
      * right. exists v'. split; [done|]. split; [|done].
        destruct Hfm as (l1 & w' & l2 & -> & Hc & Hbefore & Hafter).
        exists ((v, w) :: l1), w', l2. repeat split; try done.
        intros i Hi. apply elem_of_cons in Hi as [-> | Hi]; [|by apply Hbefore].
        by eapply cost_lt_le_trans.
Qed.

(** From the initial entries [(Inf, None)]: no link is kept exactly when
    every candidate is infinite. *)
Lemma scan_init ct items :
  let r := scan ct (Inf, None) items in
  (r = (Inf, None) /\ forall i, i ∈ items -> cand ct i = Inf)
  \/ (exists v z, r = (Fin z, Some v) /\ first_min ct items v (Fin z)).
Proof.
  simpl. destruct (scan_spec ct items (Inf, None)) as [[Heq Hall] | (v & Hs & Hfm & Hlt)].
  - left. split; [done|]. intros i Hi. specialize (Hall i Hi). simpl in Hall.
    by destruct (cand ct i).
  - right. destruct (scan ct (Inf, None) items) as [c n]. simpl in *.
    destruct c as [z|]; [|done]. exists v, z. by subst n.
Qed.

Lemma first_min_le ct items v c i :
  first_min ct items v c -> i ∈ items -> cost_le c (cand ct i).
Proof.
  intros (l1 & w & l2 & -> & Hc & Hbefore & Hafter) Hi.
  apply elem_of_app in Hi as [Hi | Hi].
  - apply cost_lt_true. by apply Hbefore.
  - apply elem_of_cons in Hi as [-> | Hi].
    + rewrite Hc. apply cost_le_refl.
    + by apply Hafter.
Qed.

Lemma first_min_elem ct items v c :
  first_min ct items v c -> exists w, (v, w) ∈ items /\ cand ct (v, w) = c.
Proof.
  intros (l1 & w & l2 & -> & Hc & _). exists w. split; [|done].
  apply elem_of_app. right. left.
Qed.

(** ** The outer loop on a staged edge table *)

Lemma live_of_sub nb l u : u ∈ live_of nb l -> u ∈ l.
Proof.
  induction l as [|u' post IH]; simpl; [done|].
  destruct (_ || _).
  - intros [-> | H]%elem_of_cons; [left | right; auto].
  - intros H. right. auto.
Qed.

Lemma staged_targets nb l u v w :
  staged_from nb l = true -> u ∈ l -> u <> "J" -> (v, w) ∈ nb u -> v ∈ l.
Proof.
  induction l as [|u' post IH]; simpl; [by intros _ H; inversion H|].
  intros [[Hnd Hu']%andb_prop Hpost]%andb_prop Hin Hne Hvw.
  apply elem_of_cons in Hin as [-> | Hin].
  - apply orb_prop in Hu' as [Hj | Hall].
    + by apply String.eqb_eq in Hj.
    + rewrite forallb_forall in Hall.
      apply list_elem_of_In in Hvw. specialize (Hall _ Hvw).
      apply andb_prop in Hall as [Hv _]. apply bool_decide_eq_true in Hv.
      by right.
  - right. by apply IH.
Qed.

Lemma get_neighbors_frame u s s' :
  heap s' = heap s -> edges s' = edges s ->
  get_neighbors u s' = get_neighbors u s.
Proof.
  intros Hh He. unfold get_neighbors, deref. by rewrite Hh, He.
Qed.

Lemma visit_step s0 u post s1 :
  let nb := fun n => get_neighbors n s0 in
  initial_on (u :: post) s0 ->
  staged_from nb (u :: post) = true ->
  tables_on nb post s0 s1 ->
  exists s, visit u s1 = (Ok tt, s) /\ tables_on nb (u :: post) s0 s.
Proof.
  intros nb Hinit Hst T. simpl in Hst.
  apply andb_prop in Hst as [[Hnd Hu]%andb_prop Hpost].
  apply bool_decide_eq_true in Hnd.
  destruct (Hinit u) as [Hcu Hnu]; [left|].
  unfold visit. destruct (String.eqb u "J") eqn:HJ.
  - (* the sink is skipped *)
    apply String.eqb_eq in HJ. subst u.
    exists s1. split; [reflexivity|]. destruct T. split; try done.
    + intros n [Hn | ->]; apply to_frame0; [|by right].
      left. intros Hin. apply Hn. by right.
    + intros u [-> | Hin]%elem_of_cons Hne; [done | by apply to_scan0].
    + simpl. intros u [-> | Hin]%elem_of_cons; [|by apply to_live0].
      destruct (to_frame0 "J") as [-> _]; [by right|].
      rewrite Hcu. simpl. by exists 0%Z.
    + intros u [-> | Hin]%elem_of_cons; [|by apply to_some0].
      destruct (to_frame0 "J") as [-> _]; [by right|]. by rewrite Hcu.
  - simpl in Hu. rewrite forallb_forall in Hu.
    assert (u <> "J") as HuJ by (by apply String.eqb_neq).
    assert (get_neighbors u s1 = nb u) as Hnb.
    { destruct T. by apply get_neighbors_frame. }
    assert (cost_to_go s1 !! u = Some Inf /\ next_node s1 !! u = Some None)
      as [Hc1 Hn1].
    { destruct T. destruct (to_frame0 u) as [-> ->]; [by left | done]. }
    assert (forall v w, (v, w) ∈ nb u ->
              v ∈ post /\ v <> u
              /\ exists cv, cost_to_go s1 !! v = Some cv
                            /\ (cv = Inf -> float_ok w = true)) as Hitems.
    { intros v w Hin. apply list_elem_of_In in Hin.
      specialize (Hu _ Hin). simpl in Hu.
      apply andb_prop in Hu as [Hv Hsafe]. apply bool_decide_eq_true in Hv.
      split; [done|]. split; [by intros ->|].
      destruct (to_some _ _ _ _ T v Hv) as [cv Hcv]. exists cv. split; [done|].
      intros ->. apply orb_prop in Hsafe as [Hl | Hf]; [|done].
      apply bool_decide_eq_true in Hl.
      destruct (to_live _ _ _ _ T v Hl) as [z Hz]. congruence. }
    unfold bind, gets. rewrite Hnb.
    rewrite (inner_loop u (nb u) s1 Inf None Hc1 Hn1).
    2:{ intros v w Hin. destruct (Hitems v w Hin) as (_ & Hne & H). done. }
    set (r := scan (cost_to_go s1) (Inf, None) (nb u)).
    exists (record u r s1). split; [reflexivity|].
    assert (forall u', u' = u \/ (u' ∈ post /\ u' <> "J") ->
              scan (cost_to_go (record u r s1)) (Inf, None) (nb u')
              = scan (cost_to_go s1) (Inf, None) (nb u')) as Hscan.
    { intros u' Hu'. apply scan_ext. intros v w Hin. simpl.
      apply lookup_insert_ne. intros <-.
      destruct Hu' as [-> | [Hin' Hne']].
      - by destruct (Hitems u w Hin) as (_ & Hne & _).
      - apply Hnd. by eapply staged_targets. }
    destruct T. split; simpl; try done.
    + intros n Hn. assert (u <> n) as Hne.
      { destruct Hn as [Hn | ->]; [|done]. intros <-. apply Hn. left. }
      rewrite !lookup_insert_ne by done. apply to_frame0.
      destruct Hn as [Hn | ->]; [left | by right].
      intros Hin. apply Hn. by right.
    + intros u' [-> | Hin]%elem_of_cons Hne.
      * rewrite !lookup_insert_eq, Hscan by (by left). done.
      * assert (u <> u') as Hne' by (by intros <-).
        rewrite !lookup_insert_ne, Hscan by (done || by right).
        by apply to_scan0.
    + rewrite HJ. simpl. destruct (existsb _ (nb u)) eqn:Hex.
      * intros u' [-> | Hin]%elem_of_cons.
        -- rewrite lookup_insert_eq.
           apply existsb_exists in Hex as ([v w] & Hin & Hl).
           apply bool_decide_eq_true in Hl. simpl in Hl.
           destruct (to_live0 v Hl) as [z Hz].
           destruct (scan_init (cost_to_go s1) (nb u))
             as [[Hr Hall] | (v' & z' & Hr & _)].
           ++ apply list_elem_of_In in Hin. specialize (Hall _ Hin).
              unfold cand in Hall. simpl in Hall. by rewrite Hz in Hall.
           ++ exists z'. subst r. by rewrite Hr.
        -- rewrite lookup_insert_ne; [by apply to_live0|].
           intros <-. apply Hnd. by eapply live_of_sub.
      * intros u' Hin. rewrite lookup_insert_ne; [by apply to_live0|].
        intros <-. apply Hnd. by eapply live_of_sub.
    + intros u' [-> | Hin]%elem_of_cons.
      * by rewrite lookup_insert_eq.
      * rewrite lookup_insert_ne; [by apply to_some0|]. by intros <-.
Qed.

Lemma outer_loop s0 post :
  let nb := fun n => get_neighbors n s0 in
  initial_on post s0 ->
  staged_from nb post = true ->
  exists s, for_each (rev post) visit s0 = (Ok tt, s)
            /\ tables_on nb post s0 s.
Proof.
  intros nb. induction post as [|u post IH]; intros Hinit Hst.
  - exists s0. split; [reflexivity|]. split; try done.
    + intros u Hu. inversion Hu.
    + intros u Hu. inversion Hu.
    + intros u Hu. inversion Hu.
  - destruct IH as (s1 & Hrun & T).
    { intros n Hn. apply Hinit. by right. }
    { simpl in Hst. by apply andb_prop in Hst as [_ ?]. }
    destruct (visit_step s0 u post s1 Hinit Hst T) as (s & Hv & T').
    exists s. split; [|done].
    simpl. rewrite for_each_app. erewrite bind_ok by exact Hrun.
    simpl. unfold bind. by rewrite Hv.
Qed.

(** ** The tables at the start of the loop *)

Lemma start_initial s : initial_on all_nodes (start s).
Proof.
  intros n Hn. unfold all_nodes in Hn.
  repeat (apply elem_of_cons in Hn as [-> | Hn]; [by vm_compute|]).
  inversion Hn.
Qed.

Lemma start_next_dom s n : n ∉ all_nodes -> next_node (start s) !! n = None.
Proof.
  intros Hn. simpl. unfold all_nodes in *. simpl.
  rewrite !lookup_insert_ne; [apply lookup_empty | ..];
    intros <-; apply Hn; set_solver.
Qed.

(** ** Following the links *)

Lemma reconstruct_follows s u p :
  follows s u p ->
  forall fuel path, length p <= fuel ->
    reconstruct_loop fuel path (Some u) s = (Ok (path ++ p)%list, s).
Proof.
  induction 1 as [u Hl | u v p Hl Hf IH]; intros fuel path Hfuel;
    (destruct fuel as [|fuel]; [simpl in Hfuel; lia|]); simpl.
  - unfold bind, gets. fold (link s u). rewrite Hl. by destruct fuel.
  - unfold bind, gets. fold (link s u). rewrite Hl.
    rewrite IH by (simpl in Hfuel; lia).
    by rewrite <- app_assoc.
Qed.

(** A rank that every link decreases bounds the walk. *)
Lemma follows_ranked s (rk : string -> nat) :
  (forall u v, link s u = Some v -> rk v < rk u) ->
  forall u, exists p, follows s u p /\ length p <= S (rk u).
Proof.
  intros Hdec u. remember (rk u) as n eqn:Hn. revert u Hn.
  induction n as [n IH] using lt_wf_ind. intros u ->.
  destruct (link s u) as [v|] eqn:Hl.
  - destruct (IH (rk v) (Hdec _ _ Hl) v eq_refl) as (p & Hp & Hlen).
    exists (u :: p). split; [by eapply follows_step|].
    simpl. specialize (Hdec _ _ Hl). lia.
  - exists [u]. split; [by apply follows_end | simpl; lia].
Qed.

Lemma rank_le l u : rank l u <= length l.
Proof.
  induction l as [|x l IH]; simpl; [lia|].
  destruct (String.eqb u x); lia.
Qed.

Lemma staged_rank nb l u v w :
  staged_from nb l = true -> u ∈ l -> u <> "J" -> (v, w) ∈ nb u ->
  rank l v < rank l u.
Proof.
  induction l as [|x post IH]; simpl; [by intros _ H; inversion H|].
  intros Hst Hin Hne Hvw.
  assert (v ∈ x :: post) as Hv by (by eapply (staged_targets nb (x :: post))).
  apply andb_prop in Hst as [[Hnd Hx]%andb_prop Hpost].
  apply bool_decide_eq_true in Hnd.
  destruct (String.eqb_spec u x) as [-> | Hux].
  - apply orb_prop in Hx as [Hj | Hall]; [by apply String.eqb_eq in Hj|].
    rewrite forallb_forall in Hall. apply list_elem_of_In in Hvw.
    specialize (Hall _ Hvw). apply andb_prop in Hall as [Hv' _].
    apply bool_decide_eq_true in Hv'. simpl in Hv'.
    destruct (String.eqb_spec v x) as [-> | _]; [done|].
    pose proof (rank_le post v). lia.
  - apply elem_of_cons in Hin as [-> | Hin]; [done|].
    destruct (String.eqb_spec v x) as [-> | _].
    + exfalso. apply Hnd. by eapply staged_targets.
    + by apply IH.
Qed.

(** ** The tables that [solve_backward_induction] leaves *)

Lemma tables_solved s s' :
  tables_on (fun n => get_neighbors n s) all_nodes (start s) s' ->
  solved (fun n => get_neighbors n s) s'.
Proof.
  intros T. destruct T. split; try done.
  - destruct (to_frame0 "J") as [-> _]; [by right | by vm_compute].
  - unfold link. destruct (to_frame0 "J") as [_ ->]; [by right | by vm_compute].
  - intros n Hn. unfold link. destruct (to_frame0 n) as [_ ->]; [by left|].
    by rewrite start_next_dom.
Qed.

Lemma solve_unfold fuel s :
  solve_backward_induction fuel s
  = (for_each (rev all_nodes) visit ;;;
     let! optimal_path := _reconstruct_path fuel in
     let! c := cost_at "A" in
     ret (c, optimal_path)) (start s).
Proof. reflexivity. Qed.

(** A link is the first minimising edge of its node. *)
Lemma link_spec nb s u v :
  solved nb s -> link s u = Some v ->
  u ∈ all_nodes /\ u <> "J"
  /\ exists z, cost_to_go s !! u = Some (Fin z)
               /\ first_min (cost_to_go s) (nb u) v (Fin z).
Proof.
  intros S Hl.
  destruct (decide (u ∈ all_nodes)) as [Hin | Hout].
  2:{ by rewrite (sv_outside _ _ S u Hout) in Hl. }
  destruct (decide (u = "J")) as [-> | Hne].
  { by rewrite (sv_sink_link _ _ S) in Hl. }
  split; [done|]. split; [done|].
  destruct (sv_scan _ _ S u Hin Hne) as [Hc Hn].
  unfold link in Hl. rewrite Hn in Hl. simpl in Hl.
  destruct (scan_init (cost_to_go s) (nb u)) as [[Hr _] | (v' & z & Hr & Hfm)];
    simpl in Hr; rewrite Hr in *; simpl in *; [done|].
  injection Hl as <-. by exists z.
Qed.

(** A node without a link, other than the sink, has infinite cost, and so
    have all its candidates. *)
Lemma no_link_spec nb s u :
  solved nb s -> u ∈ all_nodes -> u <> "J" -> link s u = None ->
  cost_to_go s !! u = Some Inf
  /\ forall i, i ∈ nb u -> cand (cost_to_go s) i = Inf.
Proof.
  intros S Hin Hne Hl.
  destruct (sv_scan _ _ S u Hin Hne) as [Hc Hn].
  unfold link in Hl. rewrite Hn in Hl. simpl in Hl.
  destruct (scan_init (cost_to_go s) (nb u)) as [[Hr Hall] | (v' & z & Hr & Hfm)];
    simpl in Hr; rewrite Hr in *; simpl in *; done.
Qed.

(** [solve_backward_induction] returns as soon as the walk from "A" fits in
    the fuel. *)
Lemma solve_run_gen s fuel :
  let nb := fun n => get_neighbors n s in
  staged_from nb all_nodes = true ->
  (forall s', solved nb s' ->
     exists p, follows s' "A" p /\ length p <= fuel) ->
  exists s' c p,
    solve_backward_induction fuel s = (Ok (c, p), s')
    /\ heap s' = heap s /\ edges s' = edges s
    /\ default_edges s' = default_edges s
    /\ solved nb s'
    /\ follows s' "A" p
    /\ length p <= fuel
    /\ cost_to_go s' !! "A" = Some c.
Proof.
  intros nb Hst Hwalk.
  destruct (outer_loop (start s) all_nodes (start_initial s) Hst)
    as (s' & Hrun & T).
  pose proof (tables_solved s s' T) as S.
  destruct (Hwalk s' S) as (p & Hp & Hlen).
  destruct (sv_some _ _ S "A") as [c Hc]; [by apply (bool_decide_unpack _)|].
  exists s', c, p. rewrite solve_unfold.
  erewrite bind_ok by exact Hrun.
  unfold _reconstruct_path.
  erewrite bind_ok by (by apply reconstruct_follows).
  unfold cost_at, bind, gets. simpl. rewrite Hc. simpl.
  destruct T. done.
Qed.

Lemma solve_run s fuel :
  let nb := fun n => get_neighbors n s in
  staged_from nb all_nodes = true ->
  length all_nodes <= fuel ->
  exists s' c p,
    solve_backward_induction fuel s = (Ok (c, p), s')
    /\ heap s' = heap s /\ edges s' = edges s
    /\ default_edges s' = default_edges s
    /\ solved nb s'
    /\ follows s' "A" p
    /\ length p <= fuel
    /\ cost_to_go s' !! "A" = Some c.
Proof.
  intros nb Hst Hfuel. apply solve_run_gen; [done|].
  intros s' S.
  destruct (follows_ranked s' (fun u => pred (rank all_nodes u))) with (u := "A")
    as (p & Hp & Hlen).
  - intros u v Hl.
    destruct (link_spec _ _ _ _ S Hl) as (Hin & Hne & z & _ & Hfm).
    destruct (first_min_elem _ _ _ _ Hfm) as (w & Hvw & _).
    pose proof (staged_rank nb all_nodes u v w Hst Hin Hne Hvw) as Hlt.
    assert (v ∈ all_nodes) as Hv by (by eapply (staged_targets nb)).
    assert (0 < rank all_nodes v); [|lia].
    clear -Hv. unfold all_nodes in *.
    repeat (apply elem_of_cons in Hv as [-> | Hv]; [vm_compute; lia|]).
    inversion Hv.
  - exists p. split; [done|]. simpl in Hlen. simpl in Hfuel. lia.
Qed.

(** ** Dicts *)

Section DictFacts.
Context {V : Type}.
Implicit Types (d : list (string * V)) (k : string) (v : V).

Lemma dict_get_set_eq k v d : dict_get k (dict_set k v d) = Some v.
Proof.
  induction d as [|[k' v'] d IH]; simpl.
  - by rewrite String.eqb_refl.
  - destruct (String.eqb k k') eqn:E; simpl; rewrite E; [done | apply IH].
Qed.

Lemma dict_get_set_ne k k' v d :
  k <> k' -> dict_get k' (dict_set k v d) = dict_get k' d.
Proof.
  intros Hne. induction d as [|[k0 v0] d IH]; simpl.
  - destruct (String.eqb_spec k' k); [congruence | done].
  - destruct (String.eqb_spec k k0) as [-> | Hk]; simpl.
    + destruct (String.eqb_spec k' k0); [congruence | done].
    + by rewrite IH.
Qed.

Lemma dict_get_None k d : dict_get k d = None <-> k ∉ dict_keys d.
Proof.
  induction d as [|[k' v'] d IH]; simpl.
  - split; [intros _ H; inversion H | done].
  - rewrite not_elem_of_cons.
    destruct (String.eqb_spec k k'); split; try done; try tauto.
Qed.

Lemma dict_mem_keys k d : dict_mem k d = true <-> k ∈ dict_keys d.
Proof.
  unfold dict_mem. destruct (dict_get k d) eqn:E.
  - split; [intros _ | done].
    destruct (decide (k ∈ dict_keys d)) as [|Hn]; [done|].
    apply dict_get_None in Hn. congruence.
  - split; [done|]. intros Hin. by apply dict_get_None in E.
Qed.

Lemma dict_keys_set k v d :
  k ∈ dict_keys d -> dict_keys (dict_set k v d) = dict_keys d.
Proof.
  induction d as [|[k' v'] d IH]; simpl; [by intros H; inversion H|].
  destruct (String.eqb_spec k k') as [-> | Hk]; simpl; [done|].
  intros [? | Hin]%elem_of_cons; [done|]. f_equal. by apply IH.
Qed.

Lemma dict_set_fresh k v d :
  k ∉ dict_keys d -> dict_set k v d = (d ++ [(k, v)])%list.
Proof.
  induction d as [|[k' v'] d IH]; simpl; [done|].
  rewrite not_elem_of_cons. intros [Hk Hd].
  destruct (String.eqb_spec k k'); [done|]. f_equal. by apply IH.
Qed.

Lemma dict_get_elem k v d : dict_get k d = Some v -> (k, v) ∈ d.
Proof.
  induction d as [|[k' v'] d IH]; simpl; [done|].
  destruct (String.eqb_spec k k') as [-> | _].
  - intros [= ->]. left.
  - intros H. right. by apply IH.
Qed.

Lemma dict_get_map {W} (f : V -> W) k d :
  dict_get k (map (fun '(n, x) => (n, f x)) d) = f <$> dict_get k d.
Proof.
  induction d as [|[k' v'] d IH]; simpl; [done|].
  by destruct (String.eqb k k').
Qed.

Lemma dict_keys_map {W} (f : V -> W) d :
  dict_keys (map (fun '(n, x) => (n, f x)) d) = dict_keys d.
Proof.
  unfold dict_keys. induction d as [|[k' v'] d IH]; simpl; [done|].
  by f_equal.
Qed.
End DictFacts.

(** ** Views of the edge table *)

Lemma get_neighbors_view u s :
  get_neighbors u s = default [] (dict_get u (edges_view s)).
Proof.
  unfold get_neighbors, edges_view.
  rewrite (dict_get_map (fun l => deref l s)).
  by destruct (dict_get u (edges s)).
Qed.

Lemma weight_of_neighbors s a b :
  weight_of s a b = dict_get b (get_neighbors a s).
Proof.
  unfold weight_of. rewrite get_neighbors_view.
  by destruct (dict_get a (edges_view s)).
Qed.

Lemma topology_neighbors t t' u :
  topology t = topology t' ->
  dict_keys (default [] (dict_get u t))
  = dict_keys (default [] (dict_get u t')).
Proof.
  revert t'. induction t as [|[n d] t IH]; intros [|[n' d'] t'] H;
    simpl in *; try done.
  injection H as -> Hd Ht.
  destruct (String.eqb u n'); [done | by apply IH].
Qed.

(** ** The fixed topology *)

Lemma live_of_ext nb nb' l :
  (forall u, dict_keys (nb u) = dict_keys (nb' u)) ->
  live_of nb l = live_of nb' l.
Proof.
  intros H. induction l as [|u post IH]; simpl; [done|].
  rewrite IH.
  assert (forall (L : list string) (d : adj),
            existsb (fun item => bool_decide (fst item ∈ L)) d
            = existsb (fun v => bool_decide (v ∈ L)) (dict_keys d)) as Hex.
  { intros L d. induction d as [|i d IHd]; simpl; [done | by rewrite IHd]. }
  by rewrite !Hex, H.
Qed.

Lemma routed_ext nb nb' l :
  (forall u, dict_keys (nb u) = dict_keys (nb' u)) ->
  routed nb l = routed nb' l.
Proof.
  intros H. induction l as [|u post IH]; simpl; [done|].
  by rewrite IH, H, (live_of_ext nb nb' post H).
Qed.

Lemma routed_staged nb l : routed nb l = true -> staged_from nb l = true.
Proof.
  induction l as [|u post IH]; simpl; [done|].
  intros [[-> Hu]%andb_prop Hpost]%andb_prop. rewrite (IH Hpost).
  simpl. rewrite andb_true_r.
  apply orb_prop in Hu as [-> | Hall]; [done|].
  apply orb_true_iff. right.
  rewrite forallb_forall in *. intros [v w] Hin. simpl.
  destruct (andb_prop _ _ (Hall v (in_map fst _ _ Hin))) as [-> ->].
  reflexivity.
Qed.

Lemma fixed_keys s u :
  fixed_topology s ->
  dict_keys (get_neighbors u s) = dict_keys (default_neighbors u).
Proof.
  intros H. rewrite get_neighbors_view. by apply topology_neighbors.
Qed.

Lemma fixed_staged s :
  fixed_topology s ->
  staged_from (fun n => get_neighbors n s) all_nodes = true.
Proof.
  intros H. apply routed_staged.
  rewrite (routed_ext _ default_neighbors).
  - by vm_compute.
  - intros u. by apply fixed_keys.
Qed.

(** Strict layering: every edge of the fixed topology goes from a stage to
    the next one. *)
Lemma fixed_layered s u v w :
  fixed_topology s -> (v, w) ∈ get_neighbors u s ->
  exists k, stage_of u = Some k /\ stage_of v = Some (S k).
Proof.
  intros H Hin.
  assert (v ∈ dict_keys (default_neighbors u)) as Hv.
  { rewrite <- (fixed_keys s u H). apply list_elem_of_In, in_map_iff.
    exists (v, w). split; [done | by apply list_elem_of_In]. }
  clear Hin H. unfold default_neighbors in Hv.
  destruct (dict_get u default_table) as [d|] eqn:Hd; [|inversion Hv].
  apply dict_get_elem in Hd. simpl in Hv.
  assert (forallb (fun '(u, d) =>
            forallb (fun v =>
              bool_decide (is_Some (stage_of u)
                           /\ stage_of v = S <$> stage_of u))
              (dict_keys d)) default_table = true) as Hall.
  { by vm_compute. }
  rewrite forallb_forall in Hall. apply list_elem_of_In in Hd.
  specialize (Hall _ Hd). simpl in Hall. rewrite forallb_forall in Hall.
  apply list_elem_of_In in Hv. specialize (Hall _ Hv).
  apply bool_decide_eq_true in Hall as [[k Hk] Hv'].
  exists k. by rewrite Hv', Hk.
Qed.

(** A check on the keys of every inner dict of the constructor's table
    holds in every state with the fixed topology. *)
Lemma fixed_keys_all (P : string -> list string -> bool) :
  forallb (fun '(u, d) => P u (dict_keys d)) default_table = true ->
  (forall u, P u [] = true) ->
  forall s u, fixed_topology s -> P u (dict_keys (get_neighbors u s)) = true.
Proof.
  intros Hall Hnil s u H. rewrite (fixed_keys s u H).
  unfold default_neighbors.
  destruct (dict_get u default_table) as [d|] eqn:Hd; [|apply Hnil].
  apply dict_get_elem, list_elem_of_In in Hd.
  rewrite forallb_forall in Hall. apply (Hall _ Hd).
Qed.

Lemma fixed_NoDup s u :
  fixed_topology s -> NoDup (dict_keys (get_neighbors u s)).
Proof.
  intros H.
  pose proof (fixed_keys_all (fun _ ks => bool_decide (NoDup ks))) as HP.
  specialize (HP eq_refl (fun _ => eq_refl) s u H). simpl in HP.
  by apply bool_decide_eq_true in HP.
Qed.

(** Only the nodes of [all_nodes] other than the sink have edges. *)
Lemma fixed_sources s u v w :
  fixed_topology s -> (v, w) ∈ get_neighbors u s ->
  u ∈ all_nodes /\ u <> "J".
Proof.
  intros H Hin.
  pose proof (fixed_keys_all
    (fun u ks => bool_decide (ks = [] \/ (u ∈ all_nodes /\ u <> "J")))) as HP.
  assert (forall u0 : string,
            bool_decide (@nil string = [] \/ (u0 ∈ all_nodes /\ u0 <> "J"))
            = true) as Hnil.
  { intros u0. apply bool_decide_eq_true. by left. }
  specialize (HP eq_refl Hnil s u H). simpl in HP.
  apply bool_decide_eq_true in HP as [Hk | ?]; [|done].
  destruct (get_neighbors u s); [inversion Hin | done].
Qed.

Lemma stage_of_bound u k : stage_of u = Some k -> k <= 4.
Proof.
  unfold stage_of, stages. simpl.
  repeat (destruct (bool_decide _); [intros [= <-]; lia|]). done.
Qed.

(** On the fixed topology the walk from "A" has at most five nodes. *)
Lemma solve_fixed s fuel :
  let nb := fun n => get_neighbors n s in
  fixed_topology s ->
  5 <= fuel ->
  exists s' c p,
    solve_backward_induction fuel s = (Ok (c, p), s')
    /\ heap s' = heap s /\ edges s' = edges s
    /\ default_edges s' = default_edges s
    /\ solved nb s'
    /\ follows s' "A" p
    /\ length p <= 5
    /\ cost_to_go s' !! "A" = Some c.
Proof.
  intros nb H Hfuel.
  pose proof (fixed_staged s H) as Hst.
  assert (forall s', solved nb s' ->
            exists p, follows s' "A" p /\ length p <= 5) as Hwalk.
  { intros s' S.
    destruct (follows_ranked s'
      (fun u => match stage_of u with Some k => 4 - k | None => 0 end))
      with (u := "A") as (p & Hp & Hlen).
    - intros u v Hl.
      destruct (link_spec _ _ _ _ S Hl) as (Hin & Hne & z & _ & Hfm).
      destruct (first_min_elem _ _ _ _ Hfm) as (w & Hvw & _).
      destruct (fixed_layered s u v w H Hvw) as (k & -> & Hv).
      rewrite Hv. apply stage_of_bound in Hv. lia.
    - exists p. split; [done|]. by vm_compute in Hlen. }
  destruct (solve_run_gen s fuel Hst) as (s' & c & p & Hrun & Hh & He & Hd & S & Hf & Hlen & Hc).
  { intros s' S. destruct (Hwalk s' S) as (p & Hp & Hlen).
    exists p. split; [done | lia]. }
  exists s', c, p. split_and!; try done.
  destruct (Hwalk s' S) as (p' & Hp' & Hlen').
  assert (p' = p) as <-; [|done].
  clear -Hp' Hf. revert p Hf.
  induction Hp' as [u Hl | u v p' Hl Hp' IH]; intros p Hf;
    inversion Hf; subst; try congruence.
  f_equal. apply IH. congruence.
Qed.

(** ** Paths and their weights *)

Lemma NoDup_dict_get {V} k (v : V) d :
  NoDup (dict_keys d) -> (k, v) ∈ d -> dict_get k d = Some v.
Proof.
  induction d as [|[k' v'] d IH]; simpl; [by intros _ H; inversion H|].
  intros [Hk Hd]%NoDup_cons [[= -> ->] | Hin]%elem_of_cons.
  - by rewrite String.eqb_refl.
  - destruct (String.eqb_spec k k') as [-> | _]; [|by apply IH].
    exfalso. apply Hk. apply list_elem_of_In, in_map_iff.
    exists (k', v). split; [done | by apply list_elem_of_In].
Qed.

Lemma weight_of_frame s s' a b :
  heap s' = heap s -> edges s' = edges s ->
  weight_of s' a b = weight_of s a b.
Proof.
  intros Hh He. rewrite !weight_of_neighbors.
  by rewrite (get_neighbors_frame a s s').
Qed.

Lemma path_weight_frame s s' p :
  heap s' = heap s -> edges s' = edges s ->
  path_weight s' p = path_weight s p.
Proof.
  intros Hh He. induction p as [|u [|v p] IH]; simpl; try done.
  simpl in IH. by rewrite IH, (weight_of_frame s s').
Qed.

Lemma cand_Fin ct v w z :
  cand ct (v, w) = Fin z ->
  exists zv, ct !! v = Some (Fin zv) /\ z = (w + zv)%Z.
Proof.
  unfold cand. simpl. destruct (ct !! v) as [[zv|]|]; simpl; try done.
  intros [= <-]. by exists zv.
Qed.

(** The walk from a node of finite cost ends at the sink and weighs that
    cost. *)
Lemma walk_weight s s' :
  let nb := fun n => get_neighbors n s in
  fixed_topology s -> solved nb s' ->
  forall u p, follows s' u p -> u ∈ all_nodes ->
    forall z, cost_to_go s' !! u = Some (Fin z) ->
      head p = Some u /\ last p = Some "J" /\ path_weight s p = Some z.
Proof.
  intros nb H S u p Hf.
  induction Hf as [u Hl | u v p Hl Hf IH]; intros Hin z Hz.
  - destruct (decide (u = "J")) as [-> | Hne].
    + rewrite (sv_sink _ _ S) in Hz. by injection Hz as <-.
    + destruct (no_link_spec _ _ _ S Hin Hne Hl) as [Hc _]. congruence.
  - destruct (link_spec _ _ _ _ S Hl) as (_ & Hne & z' & Hz' & Hfm).
    assert (z' = z) as -> by congruence.
    destruct (first_min_elem _ _ _ _ Hfm) as (w & Hvw & Hc).
    destruct (cand_Fin _ _ _ _ Hc) as (zv & Hzv & ->).
    assert (v ∈ all_nodes) as Hv.
    { by eapply (staged_targets nb), Hvw; [apply fixed_staged|..]. }
    destruct (IH Hv zv Hzv) as (Hhd & Hlast & Hpw).
    destruct p as [|v' p]; [done|]. simpl in Hhd. injection Hhd as ->.
    split; [done|]. split; [done|].
    change (path_weight s (u :: v :: p))
      with (match weight_of s u v, path_weight s (v :: p) with
            | Some w, Some m => Some (w + m)%Z
            | _, _ => None
            end).
    rewrite Hpw, weight_of_neighbors.
    by rewrite (NoDup_dict_get v w _ (fixed_NoDup s u H) Hvw).
Qed.

(** No path to the sink weighs less than the cost of its first node. *)
Lemma cost_lower_bound s s' :
  let nb := fun n => get_neighbors n s in
  fixed_topology s -> solved nb s' ->
  forall p u m, head p = Some u -> last p = Some "J" ->
    path_weight s p = Some m ->
    exists c, cost_to_go s' !! u = Some c /\ cost_le c (Fin m).
Proof.
  intros nb H S p.
  induction p as [|x [|y p] IH]; intros u m Hhd Hlast Hpw; [done|..].
  - simpl in *. injection Hhd as <-. injection Hlast as ->.
    injection Hpw as <-. exists (Fin 0). split; [apply S | simpl; lia].
  - injection Hhd as <-.
    change (path_weight s (x :: y :: p))
      with (match weight_of s x y, path_weight s (y :: p) with
            | Some w, Some m => Some (w + m)%Z
            | _, _ => None
            end) in Hpw.
    destruct (weight_of s x y) as [w|] eqn:Hw; [|done].
    destruct (path_weight s (y :: p)) as [m2|] eqn:Hm2; [|done].
    injection Hpw as <-.
    destruct (IH y m2 eq_refl Hlast eq_refl) as (cy & Hcy & Hle).
    rewrite weight_of_neighbors in Hw. apply dict_get_elem in Hw.
    destruct (fixed_sources s x y w H Hw) as [Hin Hne].
    destruct (sv_scan _ _ S x Hin Hne) as [Hc _].
    eexists. split; [exact Hc|].
    assert (cand (cost_to_go s') (y, w) = cost_plus w cy) as Hcand.
    { unfold cand. simpl. by rewrite Hcy. }
    destruct (scan_init (cost_to_go s') (nb x)) as [[Hr Hall] | (v' & z & Hr & Hfm)];
      simpl in Hr; rewrite Hr; simpl.
    + specialize (Hall _ Hw). rewrite Hcand in Hall. by destruct cy.
    + pose proof (first_min_le _ _ _ _ _ Hfm Hw) as Hle'.
      rewrite Hcand in Hle'. destruct cy as [zy|]; simpl in *; [lia | done].
Qed.

(** ** [get_path_details] *)

Lemma weight_of_lookup s a b w :
  weight_of s a b = Some w ->
  exists l, dict_get a (edges s) = Some l /\ dict_get b (deref l s) = Some w.
Proof.
  unfold weight_of, edges_view.
  rewrite (dict_get_map (fun l => deref l s)).
  destruct (dict_get a (edges s)) as [l|]; simpl; [|done].
  intros Hb. by exists l.
Qed.

Lemma details_fold s pre p : forall acc,
  is_Some (path_weight s p) ->
  fold_m (detail_step (pre ++ p)) (seq (length pre) (length p - 1)) acc s
  = (Ok (acc ++ details_of s p)%list, s).
Proof.
  revert pre. induction p as [|x [|y p] IH]; intros pre acc [m Hm].
  - done.
  - simpl. by rewrite app_nil_r.
  - change (path_weight s (x :: y :: p))
      with (match weight_of s x y, path_weight s (y :: p) with
            | Some w, Some m => Some (w + m)%Z
            | _, _ => None
            end) in Hm.
    destruct (weight_of s x y) as [w|] eqn:Hw; [|done].
    destruct (path_weight s (y :: p)) as [m2|] eqn:Hm2; [|done].
    destruct (weight_of_lookup _ _ _ _ Hw) as (l & Hl & Hd).
    replace (length (x :: y :: p) - 1) with (S (length (y :: p) - 1))
      by (simpl; lia).
    change (details_of s (x :: y :: p))
      with (match weight_of s x y with
            | Some w => (x, y, w) :: details_of s (y :: p)
            | None => []
            end).
    rewrite Hw.
    cbn [seq fold_m].
    assert (detail_step (pre ++ x :: y :: p) acc (length pre) s
            = (Ok (acc ++ [(x, y, w)])%list, s)) as Hstep.
    { assert ((pre ++ x :: y :: p)%list !! length pre = Some x) as Hx
        by (by apply list_lookup_middle).
      assert ((pre ++ x :: y :: p)%list !! (length pre + 1) = Some y) as Hy.
      { rewrite lookup_app_r by lia.
        by replace (length pre + 1 - length pre) with 1 by lia. }
      unfold detail_step, index, edges_at, bind, gets.
      rewrite Hx, Hy. simpl. rewrite Hl. simpl. rewrite Hd. reflexivity. }
    erewrite bind_ok by exact Hstep.
    specialize (IH (pre ++ [x])%list (acc ++ [(x, y, w)])%list).
    replace ((pre ++ [x]) ++ y :: p)%list with (pre ++ x :: y :: p)%list in IH
      by (by rewrite <- app_assoc).
    replace (length (pre ++ [x])) with (S (length pre)) in IH
      by (rewrite length_app; simpl; lia).
    rewrite IH by (by exists m2).
    by rewrite <- app_assoc.
Qed.

Lemma get_path_details_run s fuel p :
  follows s "A" p -> length p <= fuel -> is_Some (path_weight s p) ->
  get_path_details fuel s = (Ok (details_of s p), s).
Proof.
  intros Hf Hlen Hpw. unfold get_path_details, _reconstruct_path.
  erewrite bind_ok by (by apply reconstruct_follows).
  simpl. apply (details_fold s [] p []). done.
Qed.

(** The triples are the consecutive pairs of the path with the weights of
    their edges, and add up to the weight of the path. *)
Lemma details_of_spec s p m :
  path_weight s p = Some m ->
  map fst (details_of s p) = zip p (tail p)
  /\ (forall a b w, (a, b, w) ∈ details_of s p -> weight_of s a b = Some w)
  /\ foldr Z.add 0%Z (map snd (details_of s p)) = m.
Proof.
  revert m. induction p as [|x [|y p] IH]; intros m Hm; [done|..].
  - simpl in *. injection Hm as <-. split; [done|]. split; [|done].
    intros a b w Hin. inversion Hin.
  - change (path_weight s (x :: y :: p))
      with (match weight_of s x y, path_weight s (y :: p) with
            | Some w, Some m => Some (w + m)%Z
            | _, _ => None
            end) in Hm.
    change (details_of s (x :: y :: p))
      with (match weight_of s x y with
            | Some w => (x, y, w) :: details_of s (y :: p)
            | None => []
            end).
    destruct (weight_of s x y) as [w|] eqn:Hw; [|done].
    destruct (path_weight s (y :: p)) as [m2|] eqn:Hm2; [|done].
    injection Hm as <-.
    destruct (IH m2 eq_refl) as (Hz & Hall & Hsum).
    split; [|split].
    + change (zip (x :: y :: p) (tail (x :: y :: p)))
        with ((x, y) :: zip (y :: p) (tail (y :: p))).
      cbn [map fst]. by rewrite Hz.
    + intros a b w' [[= -> -> ->] | Hin]%elem_of_cons; [done | by apply Hall].
    + cbn [map snd foldr]. by rewrite Hsum.
Qed.

(** ** The dicts of the object in the heap *)

Lemma new_problem_well_formed : well_formed new_problem.
Proof.
  split.
  - apply (bool_decide_eq_true_1 (NoDup (addresses new_problem))).
    by vm_compute.
  - apply (bool_decide_eq_true_1
             (Forall (fun l => l < length (heap new_problem))
                (addresses new_problem))).
    by vm_compute.
  - by vm_compute.
  - by vm_compute.
Qed.

Lemma deref_insert_eq l d s :
  l < length (heap s) -> deref l (set_heap (<[l := d]> (heap s)) s) = d.
Proof.
  intros Hl. unfold deref. simpl. by rewrite list_lookup_insert_eq.
Qed.

Lemma deref_insert_ne l l' d s :
  l <> l' -> deref l' (set_heap (<[l := d]> (heap s)) s) = deref l' s.
Proof.
  intros Hl. unfold deref. simpl. by rewrite list_lookup_insert_ne.
Qed.

Lemma dict_get_addresses {V} k (v : V) d : dict_get k d = Some v -> v ∈ map snd d.
Proof.
  intros H. apply dict_get_elem in H. apply list_elem_of_In, in_map_iff.
  exists (k, v). split; [done | by apply list_elem_of_In].
Qed.

(** Distinct keys of a dict with distinct values hold distinct values. *)
Lemma dict_get_inj {V} k k' (v : V) d :
  NoDup (map snd d) ->
  dict_get k d = Some v -> dict_get k' d = Some v -> k = k'.
Proof.
  induction d as [|[k0 v0] d IH]; simpl; [done|].
  intros [Hv Hd]%NoDup_cons.
  destruct (String.eqb_spec k k0) as [-> | Hk];
    destruct (String.eqb_spec k' k0) as [-> | Hk']; try done.
  - intros [= ->] H. exfalso. apply Hv. by eapply dict_get_addresses.
  - intros H [= ->]. exfalso. apply Hv. by eapply dict_get_addresses.
  - by apply IH.
Qed.

Lemma topology_view_keys s :
  fixed_topology s -> dict_keys (edges s) = all_nodes.
Proof.
  intros H. unfold fixed_topology in H.
  apply (f_equal (map fst)) in H. unfold topology in H.
  rewrite !map_map in H. unfold edges_view in H. rewrite map_map in H.
  unfold dict_keys. etrans; [|exact H].
  apply map_ext. by intros [n l].
Qed.

(** [set_edge_weight], unfolded. *)
Lemma set_edge_weight_run from_node to_node weight s :
  set_edge_weight from_node to_node weight s
  = (Ok tt,
     match dict_get from_node (edges s) with
     | Some l =>
         if dict_mem to_node (deref l s)
         then set_heap (<[l := dict_set to_node weight (deref l s)]> (heap s)) s
         else s
     | None => s
     end).
Proof.
  unfold set_edge_weight, edges_at, bind, gets, dict_mem. simpl.
  destruct (dict_get from_node (edges s)) as [l|] eqn:Hl;
    rewrite ?Hl; simpl; [|done].
  destruct (dict_get to_node (deref l s)) eqn:Ht; rewrite ?Ht; simpl; [|done].
  by rewrite Hl.
Qed.

(** What a store into one inner dict of [self.edges] does to the views. *)
Lemma store_views s n l k v :
  well_formed s -> dict_get n (edges s) = Some l -> k ∈ dict_keys (deref l s) ->
  let s' := set_heap (<[l := dict_set k v (deref l s)]> (heap s)) s in
  well_formed s'
  /\ weight_of s' n k = Some v
  /\ (forall a b, (a, b) <> (n, k) -> weight_of s' a b = weight_of s a b)
  /\ topology (edges_view s') = topology (edges_view s).
Proof.
  intros W Hn Hk s'.
  pose proof (wf_separated _ W) as Hsep.
  pose proof (wf_allocated _ W) as Halloc.
  assert (l ∈ map snd (edges s)) as Hl by (by eapply dict_get_addresses).
  assert (l < length (heap s)) as Hlt.
  { rewrite Forall_forall in Halloc. apply Halloc.
    unfold addresses. apply elem_of_app. by left. }
  assert (forall a la, dict_get a (edges s) = Some la -> a <> n -> la <> l) as Hother.
  { intros a la Ha Hne ->. apply Hne.
    eapply dict_get_inj; [|exact Ha|exact Hn].
    unfold addresses in Hsep. by apply NoDup_app in Hsep as [? _]. }
  assert (forall a b, weight_of s' a b
            = match dict_get a (edges s) with
              | Some la => dict_get b (deref la s')
              | None => None
              end) as Hw'.
  { intros a b. unfold weight_of, edges_view.
    rewrite (dict_get_map (fun l => deref l s')).
    change (edges s') with (edges s). by destruct (dict_get a (edges s)). }
  assert (forall a b, weight_of s a b
            = match dict_get a (edges s) with
              | Some la => dict_get b (deref la s)
              | None => None
              end) as Hw.
  { intros a b. unfold weight_of, edges_view.
    rewrite (dict_get_map (fun l => deref l s)).
    by destruct (dict_get a (edges s)). }
  assert (topology (edges_view s') = topology (edges_view s)) as Htop.
  { unfold topology, edges_view. change (edges s') with (edges s).
    rewrite !map_map. apply map_ext_in. intros [a la] Hin. simpl. f_equal.
    destruct (decide (la = l)) as [Heq | Hne].
    - subst la. unfold s'. rewrite deref_insert_eq by done.
      by apply dict_keys_set.
    - unfold s'. by rewrite deref_insert_ne. }
  split; [|split; [|split]]; try done.
  - split.
    + done.
    + unfold s', addresses. simpl. by rewrite length_insert.
    + unfold fixed_topology. rewrite Htop. apply W.
    + rewrite <- (wf_default _ W). unfold default_view.
      change (default_edges s') with (default_edges s).
      apply map_ext_in. intros [a la] Hin. f_equal.
      unfold s'. apply deref_insert_ne. intros Heq. subst la.
      unfold addresses in Hsep. apply NoDup_app in Hsep as (_ & Hdisj & _).
      apply (Hdisj l Hl). apply list_elem_of_In, in_map_iff.
      exists (a, l). by split.
  - rewrite Hw', Hn. unfold s'. rewrite deref_insert_eq by done.
    apply dict_get_set_eq.
  - intros a b Hab. rewrite Hw', Hw.
    destruct (dict_get a (edges s)) as [la|] eqn:Ha; [|done].
    destruct (decide (a = n)) as [-> | Hne].
    + assert (la = l) as -> by congruence.
      unfold s'. rewrite deref_insert_eq by done.
      apply dict_get_set_ne. congruence.
    + unfold s'. rewrite deref_insert_ne; [done|].
      intros Heq. subst la. by apply (Hother a l).
Qed.

(** ** Loops with an invariant *)

Lemma fold_m_inv {A B} (I : list A -> B -> StagecoachProblem -> Prop)
  (f : B -> A -> M B) (l : list A) b s :
  I [] b s ->
  (forall pre x post b s, l = (pre ++ x :: post)%list -> I pre b s ->
     exists b' s', f b x s = (Ok b', s') /\ I (pre ++ [x])%list b' s') ->
  exists b' s', fold_m f l b s = (Ok b', s') /\ I l b' s'.
Proof.
  intros H0 Hstep.
  assert (forall rest pre b s, l = (pre ++ rest)%list -> I pre b s ->
            exists b' s', fold_m f rest b s = (Ok b', s') /\ I l b' s') as Hgen.
  { induction rest as [|x rest IH]; intros pre b0 s0 Hl HI.
    - rewrite app_nil_r in Hl. subst pre. by exists b0, s0.
    - destruct (Hstep pre x rest b0 s0 Hl HI) as (b1 & s1 & Hf & HI1).
      destruct (IH (pre ++ [x])%list b1 s1) as (b' & s' & Hrun & HI').
      { by rewrite <- app_assoc. }
      { done. }
      exists b', s'. split; [|done].
      simpl. by erewrite bind_ok by exact Hf. }
  by apply (Hgen l [] b s).
Qed.

(** ** Writing every weight *)

Lemma randint_range r a b s :
  (a <= b)%Z ->
  exists v, randint r a b s = (Ok v, s) /\ (a <= v <= b)%Z.
Proof.
  intros Hab. unfold randint.
  assert ((0 <? b + 1 - a)%Z = true) as -> by (apply Z.ltb_lt; lia).
  eexists. split; [reflexivity|].
  pose proof (Z.mod_pos_bound r (b + 1 - a)%Z). lia.
Qed.

Lemma randint_empty r a b s :
  (b < a)%Z -> randint r a b s = (Raise ValueError, s).
Proof.
  intros Hab. unfold randint.
  by assert ((0 <? b + 1 - a)%Z = false) as -> by (apply Z.ltb_ge; lia).
Qed.

Lemma weight_of_keys s a b :
  is_Some (weight_of s a b) <-> b ∈ dict_keys (get_neighbors a s).
Proof.
  rewrite weight_of_neighbors. split.
  - intros [w Hw]. destruct (decide (b ∈ dict_keys (get_neighbors a s))); [done|].
    apply dict_get_None in n. congruence.
  - intros Hin. destruct (dict_get b (get_neighbors a s)) eqn:E; [done|].
    by apply dict_get_None in E.
Qed.

Lemma get_neighbors_deref n l s :
  dict_get n (edges s) = Some l -> get_neighbors n s = deref l s.
Proof. intros H. unfold get_neighbors. by rewrite H. Qed.

Lemma edges_at_run n l s :
  dict_get n (edges s) = Some l -> edges_at n s = (Ok l, s).
Proof. intros H. unfold edges_at, bind, gets. by rewrite H. Qed.

(** A loop that stores one weight into the dict of node [n] for each of
    its keys: every weight of [n] then satisfies [P], the rest is as
    before. *)
Lemma write_inner {B} (body : B -> string -> M B) (P : Z -> Prop) n s0 i :
  (forall j k s l, dict_get n (edges s) = Some l ->
     exists j' v,
       body j k s
       = (Ok j', set_heap (<[l := dict_set k v (deref l s)]> (heap s)) s)
       /\ P v) ->
  well_formed s0 -> n ∈ dict_keys (edges s0) ->
  exists i' s',
    fold_m body (dict_keys (get_neighbors n s0)) i s0 = (Ok i', s')
    /\ well_formed s'
    /\ edges s' = edges s0
    /\ (forall b, is_Some (weight_of s0 n b) ->
          exists w, weight_of s' n b = Some w /\ P w)
    /\ (forall a b, a <> n -> weight_of s' a b = weight_of s0 a b).
Proof.
  intros Hbody W0 Hn.
  destruct (dict_get n (edges s0)) as [l|] eqn:Hl.
  2:{ by apply dict_get_None in Hl. }
  set (ks := dict_keys (get_neighbors n s0)).
  destruct (fold_m_inv
    (fun pre (_ : B) s =>
       well_formed s /\ edges s = edges s0
       /\ (forall b, b ∈ pre -> exists w, weight_of s n b = Some w /\ P w)
       /\ (forall a b, a <> n -> weight_of s a b = weight_of s0 a b))
    body ks i s0) as (i' & s' & Hrun & W' & He & Hin & Hout).
  - split; [done|]. split; [done|]. split; [|done].
    intros b Hb. inversion Hb.
  - intros pre k post j s Hks (W & He & Hin & Hout).
    assert (dict_get n (edges s) = Some l) as Hl' by (by rewrite He).
    destruct (Hbody j k s l Hl') as (j' & v & Hrun & Hv).
    assert (k ∈ dict_keys (deref l s)) as Hk.
    { rewrite <- (get_neighbors_deref n l s Hl').
      rewrite (fixed_keys s n (wf_topology _ W)).
      rewrite <- (fixed_keys s0 n (wf_topology _ W0)).
      fold ks. rewrite Hks. apply elem_of_app. right. left. }
    destruct (store_views s n l k v W Hl' Hk) as (W1 & Hnk & Hothers & Htop).
    eexists j', _. split; [exact Hrun|].
    split; [done|]. split; [by simpl|]. split.
    + intros b [Hb | ->%list_elem_of_singleton]%elem_of_app.
      * destruct (decide (b = k)) as [-> | Hne]; [by exists v|].
        rewrite Hothers by congruence. by apply Hin.
      * by exists v.
    + intros a b Hne. rewrite Hothers by congruence. by apply Hout.
  - exists i', s'. split; [done|]. split; [done|]. split; [done|].
    split; [|done].
    intros b Hb. apply Hin. by apply weight_of_keys.
Qed.

Lemma fixed_weight_keys s s' a b :
  fixed_topology s -> fixed_topology s' ->
  is_Some (weight_of s a b) <-> is_Some (weight_of s' a b).
Proof.
  intros H H'. by rewrite !weight_of_keys, (fixed_keys s a H), (fixed_keys s' a H').
Qed.

(** The two nested loops over [self.edges] and its inner dicts, when the
    inner body stores one weight that satisfies [P]: they return, and every
    edge then weighs a number that satisfies [P]. *)
Lemma write_all {B} (inner : string -> B -> string -> M B) (P : Z -> Prop)
  s (i0 : B) :
  (forall n j k s l, dict_get n (edges s) = Some l ->
     exists j' v,
       inner n j k s
       = (Ok j', set_heap (<[l := dict_set k v (deref l s)]> (heap s)) s)
       /\ P v) ->
  well_formed s ->
  exists i' s',
    fold_m (fun i node =>
              let! l := edges_at node in
              let! neighbors := gets (fun s => dict_keys (deref l s)) in
              fold_m (inner node) neighbors i)
      (dict_keys (edges s)) i0 s = (Ok i', s')
    /\ well_formed s'
    /\ edges s' = edges s
    /\ forall a b, is_Some (weight_of s a b) ->
         exists w, weight_of s' a b = Some w /\ P w.
Proof.
  intros Hinner W0.
  destruct (fold_m_inv
    (fun pre (_ : B) s1 =>
       well_formed s1 /\ edges s1 = edges s
       /\ forall a, a ∈ pre -> forall b, is_Some (weight_of s a b) ->
            exists w, weight_of s1 a b = Some w /\ P w)
    (fun i node =>
       let! l := edges_at node in
       let! neighbors := gets (fun s => dict_keys (deref l s)) in
       fold_m (inner node) neighbors i)
    (dict_keys (edges s)) i0 s) as (i' & s' & Hrun & W' & He & Hin).
  - split; [done|]. split; [done|]. intros a Ha. inversion Ha.
  - intros pre n post i s1 Hkeys (W1 & He & Hin).
    assert (n ∈ dict_keys (edges s1)) as Hn.
    { rewrite He, Hkeys. apply elem_of_app. right. left. }
    destruct (dict_get n (edges s1)) as [l|] eqn:Hl.
    2:{ by apply dict_get_None in Hl. }
    destruct (write_inner (inner n) P n s1 i (Hinner n) W1 Hn)
      as (i1 & s2 & Hrun & W2 & He2 & Hn2 & Hothers).
    exists i1, s2. split.
    { erewrite bind_ok by (by apply edges_at_run).
      unfold bind at 1, gets.
      by rewrite <- (get_neighbors_deref n l s1 Hl). }
    split; [done|]. split; [congruence|].
    intros a Ha b Hab.
    destruct (decide (a = n)) as [-> | Hne].
    + apply Hn2.
      by apply (fixed_weight_keys s s1 n b (wf_topology _ W0) (wf_topology _ W1)).
    + rewrite Hothers by done.
      apply elem_of_app in Ha as [Ha | ->%list_elem_of_singleton]; [|done].
      by apply Hin.
  - exists i', s'. split; [done|]. split; [done|]. split; [done|].
    intros a b Hab. apply Hin; [|done].
    destruct Hab as [w Hw]. unfold weight_of in Hw.
    destruct (dict_get a (edges_view s)) as [d|] eqn:Hd; [|done].
    unfold edges_view in Hd. rewrite (dict_get_map (fun l => deref l s)) in Hd.
    destruct (dict_get a (edges s)) as [l|] eqn:Hl; [|done].
    destruct (decide (a ∈ dict_keys (edges s))) as [|Hout]; [done|].
    apply dict_get_None in Hout. congruence.
Qed.

(** With a non-empty range [set_random_weights] returns, and every edge
    then weighs a number of the range. *)
Lemma set_random_weights_ok draw min_val max_val s :
  (min_val <= max_val)%Z ->
  well_formed s ->
  exists s',
    set_random_weights draw min_val max_val s = (Ok tt, s')
    /\ well_formed s'
    /\ edges s' = edges s
    /\ forall a b, is_Some (weight_of s a b) ->
         exists w, weight_of s' a b = Some w /\ (min_val <= w <= max_val)%Z.
Proof.
  intros Hrange W0.
  destruct (write_all
    (fun node j neighbor =>
       let! v := randint (draw j) min_val max_val in
       let! l' := edges_at node in
       store l' neighbor v ;;;
       ret (S j))
    (fun w => (min_val <= w <= max_val)%Z) s 0) as (i' & s' & Hrun & H).
  - intros n j k s1 l Hl.
    destruct (randint_range (draw j) min_val max_val s1 Hrange) as (v & Hv & Hvr).
    exists (S j), v. split; [|done].
    erewrite bind_ok by exact Hv.
    erewrite bind_ok by (by apply edges_at_run).
    reflexivity.
  - done.
  - exists s'. split; [|done].
    unfold set_random_weights. unfold bind at 1, gets.
    by erewrite bind_ok by exact Hrun.
Qed.

Lemma for_each_fold {A} (l : list A) (body : A -> M unit) s :
  for_each l body s = fold_m (fun _ x => body x) l tt s.
Proof.
  revert s. induction l as [|x l IH]; intros s; simpl; [done|].
  unfold bind. destruct (body x s) as [[[]| |] s1]; [apply IH | done | done].
Qed.

Lemma fold_m_ext {A B} (l : list A) (f g : B -> A -> M B) b s :
  (forall b x s, f b x s = g b x s) -> fold_m f l b s = fold_m g l b s.
Proof.
  intros H. revert b s. induction l as [|x l IH]; intros b s; simpl; [done|].
  unfold bind. rewrite H.
  destruct (g b x s) as [[a| |] s1]; [apply IH | done | done].
Qed.

(** [_reset_to_zero] returns, and every edge then weighs 0. *)
Lemma reset_to_zero_ok s :
  well_formed s ->
  exists s',
    _reset_to_zero s = (Ok tt, s')
    /\ well_formed s'
    /\ edges s' = edges s
    /\ forall a b, is_Some (weight_of s a b) -> weight_of s' a b = Some 0%Z.
Proof.
  intros W0.
  destruct (write_all
    (fun node (_ : unit) neighbor =>
       let! l' := edges_at node in store l' neighbor 0%Z)
    (fun w => w = 0%Z) s tt) as ([] & s' & Hrun & W' & He & Hall).
  - intros n j k s1 l Hl. exists tt, 0%Z. split; [|done].
    erewrite bind_ok by (by apply edges_at_run). reflexivity.
  - done.
  - exists s'. split; [|split; [done|split; [done|]]].
    + unfold _reset_to_zero. unfold bind at 1, gets.
      rewrite for_each_fold, <- Hrun.
      apply fold_m_ext. intros [] x s1.
      unfold bind at 1 4. destruct (edges_at x s1) as [[l0| |] s2]; try done.
      unfold bind at 1 3, gets. apply for_each_fold.
    + intros a b Hab. destruct (Hall a b Hab) as (w & Hw & ->). done.
Qed.

(** With an empty range the first call of [random.randint] raises, before
    any weight is written. *)
Lemma set_random_weights_empty draw min_val max_val s :
  (max_val < min_val)%Z ->
  fixed_topology s ->
  set_random_weights draw min_val max_val s = (Raise ValueError, s).
Proof.
  intros Hrange H.
  pose proof (topology_view_keys s H) as Hkeys.
  pose proof (fixed_keys s "A" H) as HA.
  unfold set_random_weights. unfold bind at 1, gets. rewrite Hkeys.
  destruct (dict_get "A" (edges s)) as [l|] eqn:Hl.
  2:{ apply dict_get_None in Hl. rewrite Hkeys in Hl.
      exfalso. apply Hl. by apply (bool_decide_unpack _). }
  rewrite (get_neighbors_deref "A" l s Hl) in HA.
  unfold all_nodes. apply bind_raise. cbn [fold_m]. apply bind_raise.
  erewrite bind_ok by (by apply edges_at_run).
  unfold bind at 1, gets. rewrite HA.
  change (dict_keys (default_neighbors "A")) with ["B"; "C"; "D"].
  cbn [fold_m]. apply bind_raise. apply bind_raise.
  by apply randint_empty.
Qed.

(** ** [_deep_copy_edges] and [reset_to_default] *)

Lemma deref_app_old l h s :
  l < length (heap s) -> deref l (set_heap (heap s ++ h)%list s) = deref l s.
Proof. intros Hl. unfold deref. simpl. by rewrite lookup_app_l. Qed.

(** The copy allocates one new dict per key, in order, after the dicts that
    exist, and leaves those as they are. *)
Lemma deep_copy_fold e : forall s acc,
  Forall (fun l => l < length (heap s)) (map snd e) ->
  NoDup (dict_keys acc ++ dict_keys e) ->
  fold_m (fun acc '(node, neighbors) =>
            let! d := gets (deref neighbors) in
            let! l := alloc d in
            ret (dict_set node l acc)) e acc s
  = (Ok (acc ++ zip (dict_keys e) (seq (length (heap s)) (length e)))%list,
     set_heap (heap s ++ map (fun x => deref (snd x) s) e)%list s).
Proof.
  induction e as [|[n l] e IH]; intros s acc Halloc Hnd.
  - simpl. rewrite !app_nil_r. by destruct s.
  - apply Forall_cons in Halloc as [Hl Halloc].
    cbn [fold_m]. unfold bind at 1. unfold bind at 1, gets, alloc. simpl.
    rewrite IH.
    + simpl. rewrite length_app. simpl.
      assert (n ∉ dict_keys acc) as Hfresh.
      { apply NoDup_app in Hnd as (_ & Hdisj & _).
        intros Hin. apply (Hdisj n Hin). left. }
      rewrite (dict_set_fresh n _ acc Hfresh), <- !app_assoc. simpl.
      replace (length (heap s) + 1) with (S (length (heap s))) by lia.
      f_equal. unfold set_heap. simpl. f_equal. f_equal. f_equal.
      apply map_ext_in. intros [n' l'] Hin.
      rewrite Forall_forall in Halloc.
      apply (deref_app_old l' [deref l s] s). apply Halloc.
      apply list_elem_of_In, in_map_iff. by exists (n', l').
    + simpl. rewrite length_app. simpl.
      eapply Forall_impl; [exact Halloc|]. simpl. intros; lia.
    + assert (n ∉ dict_keys acc) as Hfresh.
      { apply NoDup_app in Hnd as (_ & Hdisj & _).
        intros Hin. apply (Hdisj n Hin). left. }
      rewrite (dict_set_fresh n _ acc Hfresh).
      unfold dict_keys in *. rewrite map_app, <- app_assoc. done.
Qed.

Lemma view_copy (ds : list adj) : forall (h : list adj) (ks : list string),
  length ks = length ds ->
  map (fun '(n, a) => (n, default [] ((h ++ ds)%list !! a)))
    (zip ks (seq (length h) (length ds)))
  = zip ks ds.
Proof.
  induction ds as [|d ds IH]; intros h [|k ks] Hlen; try done.
  simpl. rewrite list_lookup_middle by done. simpl. f_equal.
  specialize (IH (h ++ [d])%list ks).
  rewrite <- app_assoc, length_app in IH. simpl in IH.
  replace (length h + 1) with (S (length h)) in IH by lia.
  apply IH. simpl in Hlen. lia.
Qed.

Lemma zip_keys_view {X} (f : X -> adj) (e : list (string * X)) :
  zip (dict_keys e) (map (fun x => f (snd x)) e)
  = map (fun '(n, l) => (n, f l)) e.
Proof.
  induction e as [|[n l] e IH]; simpl; [done | by rewrite IH].
Qed.

Lemma default_keys s :
  default_view s = default_table -> dict_keys (default_edges s) = all_nodes.
Proof.
  intros H. apply (f_equal dict_keys) in H. unfold default_view in H.
  by rewrite (dict_keys_map (fun l => deref l s)) in H.
Qed.

(** [reset_to_default] makes [self.edges] a fresh copy of
    [self.default_edges]. *)
Lemma reset_to_default_run s :
  well_formed s ->
  exists s',
    reset_to_default s = (Ok tt, s')
    /\ well_formed s'
    /\ edges_view s' = default_view s.
Proof.
  intros W.
  pose proof (wf_separated _ W) as Hsep.
  pose proof (wf_allocated _ W) as Halloc.
  unfold addresses in Hsep, Halloc.
  apply NoDup_app in Hsep as (_ & _ & Hsep).
  apply Forall_app in Halloc as [_ Halloc].
  pose proof (default_keys s (wf_default _ W)) as Hkeys.
  set (e := default_edges s) in *.
  set (s1 := set_heap (heap s ++ map (fun x => deref (snd x) s) e)%list s).
  set (E := zip (dict_keys e) (seq (length (heap s)) (length e))).
  exists (set_edges E s1).
  assert (reset_to_default s = (Ok tt, set_edges E s1)) as Hrun.
  { unfold reset_to_default. unfold bind at 1, gets. fold e.
    erewrite bind_ok.
    2:{ apply deep_copy_fold; [done|]. simpl. rewrite Hkeys.
        apply (bool_decide_unpack _). by vm_compute. }
    reflexivity. }
  assert (length (dict_keys e) = length (seq (length (heap s)) (length e)))
    as Hlen.
  { unfold dict_keys. by rewrite length_map, length_seq. }
  assert (map snd E = seq (length (heap s)) (length e)) as Hsnd.
  { unfold E. apply snd_zip. lia. }
  assert (forall l, l < length (heap s) -> deref l (set_edges E s1) = deref l s)
    as Hold.
  { intros l Hl. unfold deref. simpl. by rewrite lookup_app_l. }
  assert (default_view (set_edges E s1) = default_view s) as Hdef.
  { unfold default_view. simpl. fold e.
    apply map_ext_in. intros [n l] Hin. f_equal. apply Hold.
    rewrite Forall_forall in Halloc. apply Halloc.
    apply list_elem_of_In, in_map_iff. by exists (n, l). }
  assert (edges_view (set_edges E s1) = default_view s) as Hview.
  { unfold edges_view, default_view, deref. simpl. fold e. unfold E.
    rewrite <- (length_map (fun x => deref (snd x) s) e).
    rewrite view_copy.
    - apply (zip_keys_view (fun l => default [] (heap s !! l)) e).
    - unfold dict_keys. by rewrite !length_map. }
  split; [done|]. split; [|done].
  split.
  - unfold addresses. simpl. rewrite Hsnd. fold e.
    apply NoDup_app. split; [apply NoDup_seq|]. split; [|done].
    intros l Hl%elem_of_seq Hl'.
    rewrite Forall_forall in Halloc. specialize (Halloc l Hl'). lia.
  - unfold addresses. simpl. rewrite Hsnd, length_app, length_map. fold e.
    apply Forall_app. split.
    + apply Forall_forall. intros l Hl%elem_of_seq. lia.
    + eapply Forall_impl; [exact Halloc|]. simpl. intros; lia.
  - unfold fixed_topology. rewrite Hview. by rewrite (wf_default _ W).
  - rewrite Hdef. apply W.
Qed.

(** ** The solver on the fixed topology *)

Lemma fixed_live s u :
  fixed_topology s -> u ∈ all_nodes ->
  u ∈ live_of (fun n => get_neighbors n s) all_nodes.
Proof.
  intros H Hu.
  rewrite (live_of_ext _ default_neighbors).
  - by replace (live_of default_neighbors all_nodes) with all_nodes
      by (by vm_compute).
  - intros n. by apply fixed_keys.
Qed.

(** The solver on the constructor's weights. *)
Lemma default_solve fuel :
  5 <= fuel ->
  exists s', solve_backward_induction fuel new_problem
             = (Ok (Fin 11, ["A"; "D"; "F"; "I"; "J"]), s').
Proof.
  intros Hfuel.
  set (s1 := snd (for_each (rev all_nodes) visit (start new_problem))).
  assert (for_each (rev all_nodes) visit (start new_problem) = (Ok tt, s1))
    as Hloop by (by vm_compute).
  assert (follows s1 "A" ["A"; "D"; "F"; "I"; "J"]) as Hwalk.
  { apply follows_step with (v := "D"); [by vm_compute|].
    apply follows_step with (v := "F"); [by vm_compute|].
    apply follows_step with (v := "I"); [by vm_compute|].
    apply follows_step with (v := "J"); [by vm_compute|].
    apply follows_end. by vm_compute. }
  exists s1. rewrite solve_unfold.
  erewrite bind_ok by exact Hloop.
  unfold _reconstruct_path.
  erewrite bind_ok by (by apply reconstruct_follows).
  by vm_compute.
Qed.

(** What a call on the fixed topology leaves, for the properties of the
    path: the walk from "A" ends at "J" and weighs the returned cost. *)
Lemma solve_fixed_path s fuel :
  fixed_topology s ->
  5 <= fuel ->
  exists s' m path,
    solve_backward_induction fuel s = (Ok (Fin m, path), s')
    /\ heap s' = heap s /\ edges s' = edges s
    /\ solved (fun n => get_neighbors n s) s'
    /\ follows s' "A" path
    /\ length path <= 5
    /\ last path = Some "J"
    /\ path_weight s' path = Some m.
Proof.
  intros H Hfuel.
  destruct (solve_fixed s fuel H Hfuel)
    as (s' & c & p & Hrun & Hh & He & _ & S & Hf & Hlen & Hc).
  assert ("A" ∈ all_nodes) as HA by (by apply (bool_decide_unpack _)).
  destruct (sv_live _ _ S "A" (fixed_live s "A" H HA)) as [m Hm].
  assert (c = Fin m) as -> by congruence.
  destruct (walk_weight s s' H S "A" p Hf HA m Hm) as (Hhd & Hlast & Hpw).
  exists s', m, p. split_and!; try done.
  by rewrite (path_weight_frame s s').
Qed.

Lemma path_weight_pairs s p m :
  path_weight s p = Some m ->
  forall i u v, p !! i = Some u -> p !! S i = Some v ->
    is_Some (weight_of s u v).
Proof.
  revert m. induction p as [|x [|y p] IH]; intros m Hm i u v Hu Hv; [done|..].
  - by destruct i.
  - change (path_weight s (x :: y :: p))
      with (match weight_of s x y, path_weight s (y :: p) with
            | Some w, Some m => Some (w + m)%Z
            | _, _ => None
            end) in Hm.
    destruct (weight_of s x y) as [w|] eqn:Hw; [|done].
    destruct (path_weight s (y :: p)) as [m2|] eqn:Hm2; [|done].
    destruct i as [|i].
    + simpl in Hu, Hv. injection Hu as <-. injection Hv as <-. by rewrite Hw.
    + by apply (IH m2 eq_refl i).
Qed.


(** Without a link at "A" the walk is ["A"] and there is no triple. *)
Lemma get_path_details_no_link s fuel :
  next_node s !! "A" = None ->
  1 <= fuel ->
  get_path_details fuel s = (Ok [], s).
Proof.
  intros Hn Hfuel.
  assert (follows s "A" ["A"]) as Hf.
  { apply follows_end. unfold link. by rewrite Hn. }
  by rewrite (get_path_details_run s fuel ["A"] Hf Hfuel).
Qed.

(** ** The result depends on the edge table only *)

Lemma follows_unique s u p q : follows s u p -> follows s u q -> p = q.
Proof.
  intros Hp. revert q.
  induction Hp as [u Hl | u v p Hl Hp IH]; intros q Hq;
    inversion Hq; subst; try congruence.
  f_equal. apply IH. congruence.
Qed.

Lemma follows_ext s1 s2 u p :
  (forall n, link s1 n = link s2 n) -> follows s1 u p -> follows s2 u p.
Proof.
  intros Hl. induction 1 as [u H | u v p H Hp IH].
  - apply follows_end. by rewrite <- Hl.
  - apply follows_step with v; [by rewrite <- Hl | done].
Qed.

Lemma solved_unique_on nb s1 s2 post :
  staged_from nb post = true ->
  (forall u, u ∈ post -> u ∈ all_nodes) ->
  solved nb s1 -> solved nb s2 ->
  forall u, u ∈ post ->
    cost_to_go s1 !! u = cost_to_go s2 !! u /\ link s1 u = link s2 u.
Proof.
  intros Hst Hsub S1 S2. induction post as [|x post IH]; intros u Hu.
  { inversion Hu. }
  assert (forall u, u ∈ post ->
            cost_to_go s1 !! u = cost_to_go s2 !! u /\ link s1 u = link s2 u)
    as IH'.
  { apply IH.
    - simpl in Hst. by apply andb_prop in Hst as [_ ?].
    - intros n Hn. apply Hsub. by right. }
  apply elem_of_cons in Hu as [-> | Hu]; [|by apply IH'].
  destruct (decide (x = "J")) as [-> | Hne].
  { by rewrite (sv_sink _ _ S1), (sv_sink _ _ S2),
      (sv_sink_link _ _ S1), (sv_sink_link _ _ S2). }
  assert (x ∈ all_nodes) as Hx by (apply Hsub; left).
  destruct (sv_scan _ _ S1 x Hx Hne) as [Hc1 Hn1].
  destruct (sv_scan _ _ S2 x Hx Hne) as [Hc2 Hn2].
  assert (scan (cost_to_go s1) (Inf, None) (nb x)
          = scan (cost_to_go s2) (Inf, None) (nb x)) as Hscan.
  { apply scan_ext. intros v w Hvw. apply IH'.
    simpl in Hst. apply andb_prop in Hst as [[_ Hx']%andb_prop _].
    apply orb_prop in Hx' as [Hj | Hall]; [by apply String.eqb_eq in Hj|].
    rewrite forallb_forall in Hall. apply list_elem_of_In in Hvw.
    specialize (Hall _ Hvw). apply andb_prop in Hall as [Hv _].
    by apply bool_decide_eq_true in Hv. }
  unfold link. rewrite Hc1, Hc2, Hn1, Hn2, Hscan. done.
Qed.

Lemma solved_ext nb nb' s :
  (forall n, nb n = nb' n) -> solved nb s -> solved nb' s.
Proof.
  intros Hnb S. destruct S. split; try done.
  - intros u Hu Hne. rewrite <- Hnb. by apply sv_scan0.
  - intros u Hu. apply sv_live0.
    rewrite (live_of_ext nb nb'); [done|]. intros n. by rewrite Hnb.
Qed.

(** Two objects with the same edge table get the same answer. *)
Lemma solve_deterministic s1 s2 fuel :
  fixed_topology s1 ->
  edges_view s1 = edges_view s2 ->
  5 <= fuel ->
  fst (solve_backward_induction fuel s1)
  = fst (solve_backward_induction fuel s2).
Proof.
  intros H1 Hview Hfuel.
  assert (fixed_topology s2) as H2.
  { unfold fixed_topology. by rewrite <- Hview. }
  assert (forall n, get_neighbors n s1 = get_neighbors n s2) as Hnb.
  { intros n. by rewrite !get_neighbors_view, Hview. }
  destruct (solve_fixed s1 fuel H1 Hfuel)
    as (s1' & c1 & p1 & Hrun1 & _ & _ & _ & S1 & Hf1 & _ & Hc1).
  destruct (solve_fixed s2 fuel H2 Hfuel)
    as (s2' & c2 & p2 & Hrun2 & _ & _ & _ & S2 & Hf2 & _ & Hc2).
  rewrite Hrun1, Hrun2. simpl.
  apply (solved_ext _ (fun n => get_neighbors n s1)) in S2; [|done].
  pose proof (solved_unique_on _ s1' s2' all_nodes (fixed_staged s1 H1)
                (fun u Hu => Hu) S1 S2) as Huniq.
  assert (forall n, link s1' n = link s2' n) as Hlinks.
  { intros n. destruct (decide (n ∈ all_nodes)) as [Hin | Hout].
    - by apply Huniq.
    - by rewrite (sv_outside _ _ S1 n Hout), (sv_outside _ _ S2 n Hout). }
  assert (c1 = c2) as ->.
  { destruct (Huniq "A") as [Hc _]; [by apply (bool_decide_unpack _)|].
    congruence. }
  assert (p1 = p2) as ->; [|done].
  eapply follows_unique; [|exact Hf2]. by eapply follows_ext.
Qed.

(** ** What the methods leave untouched *)

Lemma preserves_ret Q {A} (a : A) : preserves Q (ret a).
Proof. by intros s. Qed.

Lemma preserves_gets Q {A} (f : StagecoachProblem -> A) : preserves Q (gets f).
Proof. by intros s. Qed.

Lemma preserves_subscript Q {V} k (d : option V) : preserves Q (subscript k d).
Proof. by destruct d; intros s. Qed.

Lemma preserves_index Q {A} i (xs : list A) : preserves Q (index i xs).
Proof. unfold index. by destruct (xs !! i); intros s. Qed.

Lemma preserves_bind Q {A B} (m : M A) (k : A -> M B) :
  preserves Q m -> (forall a, preserves Q (k a)) -> preserves Q (bind m k).
Proof.
  intros Hm Hk s Hs. unfold bind. specialize (Hm s Hs).
  destruct (m s) as [[a| |] s1]; simpl in *; [by apply Hk | done | done].
Qed.

Lemma preserves_fold_m Q {A B} (f : B -> A -> M B) l b :
  (forall b x, preserves Q (f b x)) -> preserves Q (fold_m f l b).
Proof.
  intros Hf. revert b. induction l as [|x l IH]; intros b; simpl.
  - apply preserves_ret.
  - apply preserves_bind; [apply Hf | intros b'; apply IH].
Qed.

Lemma preserves_for_each Q {A} (body : A -> M unit) l :
  (forall x, preserves Q (body x)) -> preserves Q (for_each l body).
Proof.
  intros Hf. induction l as [|x l IH]; simpl.
  - apply preserves_ret.
  - apply preserves_bind; [apply Hf | intros _; apply IH].
Qed.

Lemma preserves_edges_at Q n : preserves Q (edges_at n).
Proof.
  apply preserves_bind; [apply preserves_gets|].
  intros e. apply preserves_subscript.
Qed.

Lemma preserves_reconstruct Q fuel : forall path current,
  preserves Q (reconstruct_loop fuel path current).
Proof.
  induction fuel as [|fuel IH]; intros path [c|]; simpl.
  - by intros s.
  - apply preserves_ret.
  - apply preserves_bind; [apply preserves_gets | intros nxt; apply IH].
  - apply preserves_ret.
Qed.





Lemma set_edge_weight_keeps a b w : keeps_tables (set_edge_weight a b w).
Proof.
  intros s. rewrite set_edge_weight_run. simpl.
  destruct (dict_get a (edges s)); [|done].
  by destruct (dict_mem b _).
Qed.




(** ** The states an object goes through *)

Lemma well_formed_frame s s' :
  heap s' = heap s -> edges s' = edges s ->
  default_edges s' = default_edges s ->
  well_formed s -> well_formed s'.
Proof.
  intros Hh He Hd [W1 W2 W3 W4].
  assert (edges_view s' = edges_view s) as Hv.
  { unfold edges_view, deref. by rewrite Hh, He. }
  split.
  - unfold addresses. by rewrite He, Hd.
  - unfold addresses. by rewrite He, Hd, Hh.
  - unfold fixed_topology. by rewrite Hv.
  - unfold default_view, deref. by rewrite Hh, Hd.
Qed.



(** ** A dead end *)

Example dead_end_cost :
  staged_from (fun n => get_neighbors n dead_end_problem) all_nodes = true
  /\ fst (solve_backward_induction 10 dead_end_problem)
     = Ok (Fin 11, ["A"; "D"; "F"; "I"; "J"])
  /\ cost_to_go (snd (solve_backward_induction 10 dead_end_problem)) !! "G"
     = Some Inf.
Proof. by vm_compute. Qed.

(** * The properties *)

(** C1.  For every assignment of non-negative integer weights to the edges
    of the fixed topology, [solve_backward_induction] returns a finite
    [minimumCost] [m] that is the minimum over the full paths from "A" to
    "J" of the sum of their edge weights: some full path weighs [m] and no
    full path weighs less.  (The sign of the weights is not used: the
    topology has no cycle.) *)
Theorem solve_minimum_cost s fuel :
  fixed_topology s ->
  nonneg_weights s = true ->
  5 <= fuel ->
  exists s' m path,
    solve_backward_induction fuel s = (Ok (Fin m, path), s')
    /\ (exists p, full_path s p /\ path_weight s p = Some m)
    /\ (forall p m', full_path s p -> path_weight s p = Some m' ->
          (m <= m')%Z).
Proof.
  intros H _ Hfuel.
  destruct (solve_fixed s fuel H Hfuel)
    as (s' & c & p & Hrun & Hh & He & _ & S & Hf & Hlen & Hc).
  assert ("A" ∈ all_nodes) as HA by (by apply (bool_decide_unpack _)).
  destruct (sv_live _ _ S "A" (fixed_live s "A" H HA)) as [m Hm].
  assert (c = Fin m) as -> by congruence.
  destruct (walk_weight s s' H S "A" p Hf HA m Hm) as (Hhd & Hlast & Hpw).
  exists s', m, p. split; [done|]. split.
  - exists p. by repeat split.
  - intros q m' (Hqh & Hql & _) Hqw.
    destruct (cost_lower_bound s s' H S q "A" m' Hqh Hql Hqw) as (c & Hc' & Hle).
    rewrite Hm in Hc'. injection Hc' as <-. exact Hle.
Qed.

Lemma solve_minimum_cost_witness :
  fixed_topology new_problem /\ nonneg_weights new_problem = true /\ 5 <= 5
  /\ exists s' m path,
       solve_backward_induction 5 new_problem = (Ok (Fin m, path), s')
       /\ (exists p, full_path new_problem p
                     /\ path_weight new_problem p = Some m)
       /\ (forall p m', full_path new_problem p ->
             path_weight new_problem p = Some m' -> (m <= m')%Z).
Proof.
  split; [by vm_compute|]. split; [by vm_compute|]. split; [lia|].
  apply (solve_minimum_cost new_problem 5); [by vm_compute | by vm_compute | lia].
Defined.

(** C2, as it holds.  On the edge table of the constructor
    (A-B 2, A-C 4, A-D 3, B-E 7, B-F 4, C-E 6, C-F 3, C-G 4, D-F 1, D-G 5,
    E-H 1, E-I 6, F-H 6, F-I 3, G-H 3, G-I 3, H-J 3, I-J 4)
    [solve_backward_induction] returns the minimum cost 11 and the path
    A, D, F, I, J. *)
Theorem default_solution s fuel :
  edges_view s = default_table ->
  5 <= fuel ->
  fst (solve_backward_induction fuel s)
  = Ok (Fin 11, ["A"; "D"; "F"; "I"; "J"]).
Proof.
  intros Hview Hfuel.
  rewrite (solve_deterministic s new_problem fuel); try done.
  - destruct (default_solve fuel Hfuel) as [s' ->]. done.
  - unfold fixed_topology. by rewrite Hview.
Qed.

Lemma default_solution_witness :
  edges_view new_problem = default_table /\ 5 <= 5
  /\ fst (solve_backward_induction 5 new_problem)
     = Ok (Fin 11, ["A"; "D"; "F"; "I"; "J"]).
Proof.
  split; [by vm_compute|]. split; [lia|].
  apply (default_solution new_problem 5); [by vm_compute | lia].
Defined.

(** C2, as stated, fails: on the constructor's weights no call returns the
    minimum cost 9. *)
Lemma default_cost_is_not_9 :
  ~ (exists fuel path,
       fst (solve_backward_induction fuel new_problem) = Ok (Fin 9, path)).
Proof.
  intros (fuel & path & H).
  destruct (le_lt_dec 5 fuel) as [Hge | Hlt].
  - destruct (default_solve fuel Hge) as [s' Hs'].
    rewrite Hs' in H. cbn [fst] in H. congruence.
  - do 5 (destruct fuel as [|fuel]; [by vm_compute in H|]). lia.
Qed.

(** C3.  After a call of [solve_backward_induction] on a staged edge table
    (every state with the fixed topology is one, see [fixed_staged]), the
    cost of "J" is 0; the cost [c] of every other node is the minimum over
    its outgoing edges of the edge weight plus the cost of the successor
    (no edge gives less, and some edge gives [c]); and a node other than "J"
    without outgoing edges has cost infinity. *)
Theorem bellman_invariant s fuel :
  staged_from (fun n => get_neighbors n s) all_nodes = true ->
  length all_nodes <= fuel ->
  exists s' r,
    solve_backward_induction fuel s = (Ok r, s')
    /\ cost_to_go s' !! "J" = Some (Fin 0)
    /\ forall u, u ∈ all_nodes -> u <> "J" ->
         exists c, cost_to_go s' !! u = Some c
           /\ (forall v w, (v, w) ∈ get_neighbors u s' ->
                 exists cv, cost_to_go s' !! v = Some cv
                            /\ cost_le c (cost_plus w cv))
           /\ (get_neighbors u s' <> [] ->
                 exists v w cv, (v, w) ∈ get_neighbors u s'
                                /\ cost_to_go s' !! v = Some cv
                                /\ c = cost_plus w cv)
           /\ (get_neighbors u s' = [] -> c = Inf).
Proof.
  intros Hst Hfuel.
  destruct (solve_run s fuel Hst Hfuel)
    as (s' & c & p & Hrun & Hh & He & _ & S & _).
  exists s', (c, p). split; [done|]. split; [apply S|].
  intros u Hu Hne.
  rewrite (get_neighbors_frame u s s' Hh He).
  set (nb := fun n => get_neighbors n s) in *.
  destruct (sv_scan _ _ S u Hu Hne) as [Hc _].
  eexists. split; [exact Hc|].
  assert (forall v w, (v, w) ∈ nb u ->
            exists cv, cost_to_go s' !! v = Some cv
                       /\ cand (cost_to_go s') (v, w) = cost_plus w cv) as Hcand.
  { intros v w Hvw.
    assert (v ∈ all_nodes) as Hv by (by eapply (staged_targets nb)).
    destruct (sv_some _ _ S v Hv) as [cv Hcv]. exists cv. split; [done|].
    unfold cand. simpl. by rewrite Hcv. }
  destruct (scan_init (cost_to_go s') (nb u)) as [[Hr Hall] | (v' & z & Hr & Hfm)];
    simpl in Hr; rewrite Hr; simpl.
  - split; [|split; [|done]].
    + intros v w Hvw. destruct (Hcand v w Hvw) as (cv & Hcv & Hcd).
      exists cv. split; [done|]. rewrite <- Hcd, (Hall _ Hvw). done.
    + intros Hnil. change (get_neighbors u s) with (nb u) in *.
      destruct (nb u) as [|[v w] rest] eqn:Hnb; [done|].
      destruct (Hcand v w) as (cv & Hcv & Hcd); [left|].
      exists v, w, cv. split; [left|]. split; [done|].
      rewrite <- Hcd. symmetry. apply Hall. left.
  - split; [|split].
    + intros v w Hvw. destruct (Hcand v w Hvw) as (cv & Hcv & Hcd).
      exists cv. split; [done|]. rewrite <- Hcd.
      by apply (first_min_le _ _ _ _ _ Hfm).
    + intros _. destruct (first_min_elem _ _ _ _ Hfm) as (w & Hvw & Hcd).
      destruct (Hcand v' w Hvw) as (cv & Hcv & Hcd').
      exists v', w, cv. split; [done|]. split; [done|]. congruence.
    + intros Hnil. change (get_neighbors u s) with (nb u) in Hnil.
      destruct Hfm as (l1 & w & l2 & Hsplit & _). rewrite Hnil in Hsplit.
      by destruct l1.
Qed.

Lemma bellman_invariant_witness :
  staged_from (fun n => get_neighbors n new_problem) all_nodes = true
  /\ length all_nodes <= 10
  /\ exists s' r,
       solve_backward_induction 10 new_problem = (Ok r, s')
       /\ cost_to_go s' !! "J" = Some (Fin 0)
       /\ forall u, u ∈ all_nodes -> u <> "J" ->
            exists c, cost_to_go s' !! u = Some c
              /\ (forall v w, (v, w) ∈ get_neighbors u s' ->
                    exists cv, cost_to_go s' !! v = Some cv
                               /\ cost_le c (cost_plus w cv))
              /\ (get_neighbors u s' <> [] ->
                    exists v w cv, (v, w) ∈ get_neighbors u s'
                                   /\ cost_to_go s' !! v = Some cv
                                   /\ c = cost_plus w cv)
              /\ (get_neighbors u s' = [] -> c = Inf).
Proof.
  split; [by vm_compute|]. split; [simpl; lia|].
  apply (bellman_invariant new_problem 10); [by vm_compute | simpl; lia].
Defined.

(** C4.  For every weight assignment, after [solve_backward_induction] has
    returned [(minimumCost, path)]: every consecutive pair of nodes of
    [path] is an edge of [self.edges]; [get_path_details] returns one triple
    per consecutive pair, in order, with the weight of that edge; and the
    weights of the triples add up to [minimumCost]. *)
Theorem path_valid s fuel :
  fixed_topology s ->
  5 <= fuel ->
  exists s' m path details,
    solve_backward_induction fuel s = (Ok (Fin m, path), s')
    /\ get_path_details fuel s' = (Ok details, s')
    /\ (forall i u v, path !! i = Some u -> path !! S i = Some v ->
          is_Some (weight_of s' u v))
    /\ map fst details = zip path (tail path)
    /\ (forall a b w, (a, b, w) ∈ details -> weight_of s' a b = Some w)
    /\ foldr Z.add 0%Z (map snd details) = m.
Proof.
  intros H Hfuel.
  destruct (solve_fixed_path s fuel H Hfuel)
    as (s' & m & p & Hrun & _ & _ & _ & Hf & Hlen & _ & Hpw).
  destruct (details_of_spec s' p m Hpw) as (Hz & Hall & Hsum).
  exists s', m, p, (details_of s' p). split_and!; try done.
  - apply get_path_details_run; [done | lia | by rewrite Hpw].
  - by apply (path_weight_pairs s' p m).
Qed.

Lemma path_valid_witness :
  fixed_topology new_problem /\ 5 <= 5
  /\ exists s' m path details,
       solve_backward_induction 5 new_problem = (Ok (Fin m, path), s')
       /\ get_path_details 5 s' = (Ok details, s')
       /\ (forall i u v, path !! i = Some u -> path !! S i = Some v ->
             is_Some (weight_of s' u v))
       /\ map fst details = zip path (tail path)
       /\ (forall a b w, (a, b, w) ∈ details -> weight_of s' a b = Some w)
       /\ foldr Z.add 0%Z (map snd details) = m.
Proof.
  split; [by vm_compute|]. split; [lia|].
  apply (path_valid new_problem 5); [by vm_compute | lia].
Defined.



(** C6, as it holds.  While [self.next_node] is the empty dict that the
    constructor assigns (only [solve_backward_induction] writes it), a call
    of [get_path_details] raises nothing: it returns the empty list of
    triples and leaves the object as it is. *)
Theorem path_details_before_solve s fuel :
  next_node s = ∅ ->
  1 <= fuel ->
  get_path_details fuel s = (Ok [], s).
Proof.
  intros Hn Hfuel. apply get_path_details_no_link; [|done].
  by rewrite Hn.
Qed.

Lemma path_details_before_solve_witness :
  next_node new_problem = ∅ /\ 1 <= 1
  /\ get_path_details 1 new_problem = (Ok [], new_problem).
Proof.
  split; [by vm_compute|]. split; [lia|].
  apply (path_details_before_solve new_problem 1); [by vm_compute | lia].
Defined.

(** C6, as stated, fails: on a new object, before any solve, no call of
    [get_path_details] raises an exception. *)
Lemma path_details_before_solve_no_error :
  ~ (exists fuel e, fst (get_path_details fuel new_problem) = Raise e).
Proof.
  intros (fuel & e & H). destruct fuel as [|fuel].
  - by vm_compute in H.
  - rewrite (get_path_details_no_link new_problem (S fuel)) in H;
      [done | by vm_compute | lia].
Qed.

(** C7.  On an object whose dicts are as the methods leave them,
    [set_random_weights min_val max_val] with [min_val > max_val] raises
    [ValueError] (the empty-range error of [random.randint]) and leaves the
    object, so every edge weight, as it is; with [min_val <= max_val] it
    returns, changes no key of [self.edges], and leaves every edge with an
    integer weight between [min_val] and [max_val] inclusive. *)
Theorem set_random_weights_spec draw min_val max_val s :
  well_formed s ->
  ((max_val < min_val)%Z ->
     set_random_weights draw min_val max_val s = (Raise ValueError, s))
  /\ ((min_val <= max_val)%Z ->
        exists s',
          set_random_weights draw min_val max_val s = (Ok tt, s')
          /\ topology (edges_view s') = topology (edges_view s)
          /\ forall a b, is_Some (weight_of s a b) ->
               exists w, weight_of s' a b = Some w
                         /\ (min_val <= w <= max_val)%Z).
Proof.
  intros W. split.
  - intros Hrange. apply set_random_weights_empty; [done | apply W].
  - intros Hrange.
    destruct (set_random_weights_ok draw min_val max_val s Hrange W)
      as (s' & Hrun & W' & _ & Hall).
    exists s'. split; [done|]. split; [|done].
    pose proof (wf_topology _ W) as H. pose proof (wf_topology _ W') as H'.
    unfold fixed_topology in *. congruence.
Qed.

Lemma set_random_weights_spec_witness :
  well_formed new_problem
  /\ (5 < 9)%Z /\ (1 <= 10)%Z
  /\ set_random_weights (fun i => Z.of_nat i) 9 5 new_problem
     = (Raise ValueError, new_problem)
  /\ exists s',
       set_random_weights (fun i => Z.of_nat i) 1 10 new_problem = (Ok tt, s')
       /\ topology (edges_view s') = topology (edges_view new_problem)
       /\ forall a b, is_Some (weight_of new_problem a b) ->
            exists w, weight_of s' a b = Some w /\ (1 <= w <= 10)%Z.
Proof.
  split; [exact new_problem_well_formed|]. split; [lia|]. split; [lia|].
  split.
  - apply (set_random_weights_spec (fun i => Z.of_nat i) 9 5 new_problem
             new_problem_well_formed). lia.
  - apply (set_random_weights_spec (fun i => Z.of_nat i) 1 10 new_problem
             new_problem_well_formed). lia.
Defined.

(** C8.  On an object whose dicts are as the methods leave them,
    [set_edge_weight from_node to_node weight] raises nothing and changes no
    key of [self.edges].  When [(from_node, to_node)] is not an edge it
    leaves the object as it is; when it is one, that edge weighs [weight]
    afterwards and every other edge weighs what it did. *)
Theorem set_edge_weight_spec from_node to_node weight s :
  well_formed s ->
  exists s',
    set_edge_weight from_node to_node weight s = (Ok tt, s')
    /\ topology (edges_view s') = topology (edges_view s)
    /\ (weight_of s from_node to_node = None -> s' = s)
    /\ (is_Some (weight_of s from_node to_node) ->
          weight_of s' from_node to_node = Some weight
          /\ forall a b, (a, b) <> (from_node, to_node) ->
               weight_of s' a b = weight_of s a b).
Proof.
  intros W. rewrite set_edge_weight_run. eexists. split; [reflexivity|].
  assert (weight_of s from_node to_node
          = match dict_get from_node (edges s) with
            | Some l => dict_get to_node (deref l s)
            | None => None
            end) as Hw.
  { unfold weight_of, edges_view.
    rewrite (dict_get_map (fun l => deref l s)).
    by destruct (dict_get from_node (edges s)). }
  rewrite Hw.
  destruct (dict_get from_node (edges s)) as [l|] eqn:Hl.
  2:{ split; [done|]. split; [done|]. by intros [? ?]. }
  unfold dict_mem.
  destruct (dict_get to_node (deref l s)) as [w0|] eqn:Ht.
  2:{ split; [done|]. split; [done|]. by intros [? ?]. }
  assert (to_node ∈ dict_keys (deref l s)) as Hk.
  { apply dict_mem_keys. unfold dict_mem. by rewrite Ht. }
  destruct (store_views s from_node l to_node weight W Hl Hk)
    as (_ & Hnew & Hothers & Htop).
  split; [done|]. split; [done|]. by intros _.
Qed.

Lemma set_edge_weight_spec_witness :
  well_formed new_problem
  /\ (exists s',
        set_edge_weight "A" "B" 7 new_problem = (Ok tt, s')
        /\ topology (edges_view s') = topology (edges_view new_problem)
        /\ (weight_of new_problem "A" "B" = None -> s' = new_problem)
        /\ (is_Some (weight_of new_problem "A" "B") ->
              weight_of s' "A" "B" = Some 7%Z
              /\ forall a b, (a, b) <> ("A", "B") ->
                   weight_of s' a b = weight_of new_problem a b))
  /\ (exists s',
        set_edge_weight "A" "J" 7 new_problem = (Ok tt, s')
        /\ topology (edges_view s') = topology (edges_view new_problem)
        /\ (weight_of new_problem "A" "J" = None -> s' = new_problem)
        /\ (is_Some (weight_of new_problem "A" "J") ->
              weight_of s' "A" "J" = Some 7%Z
              /\ forall a b, (a, b) <> ("A", "J") ->
                   weight_of s' a b = weight_of new_problem a b)).
Proof.
  split; [exact new_problem_well_formed|]. split.
  - apply (set_edge_weight_spec "A" "B" 7 new_problem new_problem_well_formed).
  - apply (set_edge_weight_spec "A" "J" 7 new_problem new_problem_well_formed).
Defined.

(** C9.  For every [min_val <= max_val], [set_random_weights] followed by
    [reset_to_default] leaves in [self.edges] the dict of dicts of a new
    object, weights and order included: the copy that [__init__] took of
    [self.default_edges] shares no inner dict with it, so no write through
    [self.edges] reaches the baseline. *)
Theorem reset_round_trip draw min_val max_val s :
  well_formed s ->
  (min_val <= max_val)%Z ->
  exists s1 s2,
    set_random_weights draw min_val max_val s = (Ok tt, s1)
    /\ reset_to_default s1 = (Ok tt, s2)
    /\ edges_view s2 = edges_view new_problem.
Proof.
  intros W Hrange.
  destruct (set_random_weights_ok draw min_val max_val s Hrange W)
    as (s1 & Hrun1 & W1 & _).
  destruct (reset_to_default_run s1 W1) as (s2 & Hrun2 & _ & Hview).
  exists s1, s2. split; [done|]. split; [done|].
  rewrite Hview, (wf_default _ W1). by vm_compute.
Qed.

Lemma reset_round_trip_witness :
  well_formed new_problem /\ (1 <= 10)%Z
  /\ exists s1 s2,
       set_random_weights (fun i => Z.of_nat i) 1 10 new_problem = (Ok tt, s1)
       /\ reset_to_default s1 = (Ok tt, s2)
       /\ edges_view s2 = edges_view new_problem.
Proof.
  split; [exact new_problem_well_formed|]. split; [lia|].
  apply (reset_round_trip (fun i => Z.of_nat i) 1 10 new_problem
           new_problem_well_formed). lia.
Defined.

(** C10.  Path reconstruction terminates.  On the fixed topology every
    link left by [solve_backward_induction] goes to a node of the next
    stage, so the walk of [_reconstruct_path] from "A", which stops at the
    first node without a link, has at most five nodes: with fuel for five
    rounds of the loop, [solve_backward_induction], [_reconstruct_path] and
    [get_path_details] all return. *)
Theorem reconstruct_terminates s fuel :
  fixed_topology s ->
  5 <= fuel ->
  exists s' c path details,
    solve_backward_induction fuel s = (Ok (c, path), s')
    /\ _reconstruct_path fuel s' = (Ok path, s')
    /\ get_path_details fuel s' = (Ok details, s')
    /\ follows s' "A" path
    /\ length path <= 5
    /\ forall u v, link s' u = Some v ->
         exists k, stage_of u = Some k /\ stage_of v = Some (S k).
Proof.
  intros H Hfuel.
  destruct (solve_fixed_path s fuel H Hfuel)
    as (s' & m & p & Hrun & _ & _ & S & Hf & Hlen & _ & Hpw).
  exists s', (Fin m), p, (details_of s' p). split_and!; try done.
  - unfold _reconstruct_path.
    by rewrite (reconstruct_follows s' "A" p Hf fuel []) by lia.
  - apply get_path_details_run; [done | lia | by rewrite Hpw].
  - intros u v Hl.
    destruct (link_spec _ _ _ _ S Hl) as (_ & _ & z & _ & Hfm).
    destruct (first_min_elem _ _ _ _ Hfm) as (w & Hvw & _).
    by apply (fixed_layered s u v w).
Qed.

Lemma reconstruct_terminates_witness :
  fixed_topology new_problem /\ 5 <= 5
  /\ exists s' c path details,
       solve_backward_induction 5 new_problem = (Ok (c, path), s')
       /\ _reconstruct_path 5 s' = (Ok path, s')
       /\ get_path_details 5 s' = (Ok details, s')
       /\ follows s' "A" path
       /\ length path <= 5
       /\ forall u v, link s' u = Some v ->
            exists k, stage_of u = Some k /\ stage_of v = Some (S k).
Proof.
  split; [by vm_compute|]. split; [lia|].
  apply (reconstruct_terminates new_problem 5); [by vm_compute | lia].
Defined.

(** * Further properties *)

(** What one call of [set_edge_weight] does, seen through the views. *)
Lemma set_edge_weight_views from_node to_node weight s :
  well_formed s ->
  exists s',
    set_edge_weight from_node to_node weight s = (Ok tt, s')
    /\ well_formed s'
    /\ topology (edges_view s') = topology (edges_view s)
    /\ (weight_of s from_node to_node = None -> s' = s)
    /\ (is_Some (weight_of s from_node to_node) ->
          weight_of s' from_node to_node = Some weight
          /\ forall a b, (a, b) <> (from_node, to_node) ->
               weight_of s' a b = weight_of s a b).
Proof.
  intros W. rewrite set_edge_weight_run. eexists. split; [reflexivity|].
  assert (weight_of s from_node to_node
          = match dict_get from_node (edges s) with
            | Some l => dict_get to_node (deref l s)
            | None => None
            end) as Hw.
  { unfold weight_of, edges_view.
    rewrite (dict_get_map (fun l => deref l s)).
    by destruct (dict_get from_node (edges s)). }
  rewrite Hw.
  destruct (dict_get from_node (edges s)) as [l|] eqn:Hl.
  2:{ split_and!; [done|done|done|]. by intros [? ?]. }
  unfold dict_mem.
  destruct (dict_get to_node (deref l s)) as [w0|] eqn:Ht.
  2:{ split_and!; [done|done|done|]. by intros [? ?]. }
  assert (to_node ∈ dict_keys (deref l s)) as Hk.
  { apply dict_mem_keys. unfold dict_mem. by rewrite Ht. }
  destruct (store_views s from_node l to_node weight W Hl Hk)
    as (W' & Hnew & Hothers & Htop).
  split_and!; [done|done|done|]. by intros _.
Qed.


(** ** The solver writes its two tables only *)

Lemma preserves_modify_tables (Q : StagecoachProblem -> Prop) f :
  (forall s, Q s -> Q (f s)) -> preserves Q (modify f).
Proof. intros H s Hs. by apply H. Qed.

Lemma preserves_cost_at Q n : preserves Q (cost_at n).
Proof.
  apply preserves_bind; [apply preserves_gets|].
  intros c. apply preserves_subscript.
Qed.

Lemma preserves_solve h d e fuel :
  preserves (fun s => heap s = h /\ default_edges s = d /\ edges s = e)
    (solve_backward_induction fuel).
Proof.
  unfold solve_backward_induction.
  repeat (apply preserves_bind; [by apply preserves_modify_tables | intros _]).
  apply preserves_bind.
  { apply preserves_for_each. intros u. unfold visit.
    destruct (String.eqb u "J"); [apply preserves_ret|].
    apply preserves_bind; [apply preserves_gets | intros nbs].
    apply preserves_for_each. intros [v w]. unfold relax.
    apply preserves_bind; [apply preserves_cost_at | intros c].
    apply preserves_bind.
    { unfold lift_exn. destruct (cost_add w c); by intros s. }
    intros t. apply preserves_bind; [apply preserves_cost_at | intros cur].
    destruct (cost_lt t cur); [|apply preserves_ret].
    apply preserves_bind; [by apply preserves_modify_tables | intros _].
    by apply preserves_modify_tables. }
  intros _. apply preserves_bind; [apply preserves_reconstruct | intros p].
  apply preserves_bind; [apply preserves_cost_at | intros c].
  apply preserves_ret.
Qed.

Lemma solve_frame fuel s :
  heap (snd (solve_backward_induction fuel s)) = heap s
  /\ default_edges (snd (solve_backward_induction fuel s)) = default_edges s
  /\ edges (snd (solve_backward_induction fuel s)) = edges s.
Proof. by apply (preserves_solve (heap s) (default_edges s) (edges s)). Qed.

Lemma start_frame s s' :
  heap s' = heap s -> default_edges s' = default_edges s ->
  edges s' = edges s -> start s' = start s.
Proof.
  destruct s, s'. simpl. intros -> -> ->. reflexivity.
Qed.

(** X1.  Calling [solve_backward_induction] a second time, with nothing
    in between, gives the outcome of the first call and leaves the object
    as the first call left it: the call rebuilds both tables from scratch
    and writes nothing else, whatever its outcome. *)
Theorem solve_idempotent fuel s :
  solve_backward_induction fuel (snd (solve_backward_induction fuel s))
  = solve_backward_induction fuel s.
Proof.
  destruct (solve_frame fuel s) as (Hh & Hd & He).
  remember (snd (solve_backward_induction fuel s)) as s1 eqn:Hs1.
  clear Hs1. rewrite !solve_unfold.
  by rewrite (start_frame s s1 Hh Hd He).
Qed.

(** ** Edge tables as values *)

Lemma dict_ext {V} (d d' : list (string * V)) :
  dict_keys d = dict_keys d' -> NoDup (dict_keys d) ->
  (forall k, dict_get k d = dict_get k d') -> d = d'.
Proof.
  revert d'. induction d as [|[k v] d IH]; intros [|[k' v'] d'] Hk Hnd Hget;
    try done.
  simpl in Hk. injection Hk as <- Hk.
  apply NoDup_cons in Hnd as [Hfresh Hnd].
  pose proof (Hget k) as Hhead. simpl in Hhead.
  rewrite String.eqb_refl in Hhead. injection Hhead as <-.
  f_equal. apply IH; [done | done |].
  intros k0. destruct (decide (k0 = k)) as [Heq | Hne].
  - subst k0.
    assert (dict_get k d = None) as -> by (by apply dict_get_None).
    symmetry. apply dict_get_None. unfold dict_keys in *. by rewrite <- Hk.
  - specialize (Hget k0). simpl in Hget.
    by destruct (String.eqb_spec k0 k).
Qed.

(** With the fixed topology the node's dict is determined by its weights. *)
Lemma fixed_neighbors_eq s s' n :
  fixed_topology s -> fixed_topology s' ->
  (forall b, weight_of s n b = weight_of s' n b) ->
  get_neighbors n s = get_neighbors n s'.
Proof.
  intros H H' Hw. apply dict_ext.
  - by rewrite (fixed_keys s n H), (fixed_keys s' n H').
  - by apply fixed_NoDup.
  - intros b. by rewrite <- !weight_of_neighbors.
Qed.

Lemma fixed_view_eq s s' :
  fixed_topology s -> fixed_topology s' ->
  (forall a b, weight_of s a b = weight_of s' a b) ->
  edges_view s = edges_view s'.
Proof.
  intros H H' Hw.
  assert (forall t, dict_keys (topology t) = dict_keys t) as Htk.
  { intros t. unfold topology, dict_keys. rewrite map_map.
    apply map_ext. by intros [n d]. }
  assert (dict_keys (edges_view s) = dict_keys (edges_view s')) as Hkeys.
  { rewrite <- !Htk. unfold fixed_topology in *. by rewrite H, H'. }
  apply dict_ext; [done | |].
  - rewrite <- Htk. unfold fixed_topology in H. rewrite H.
    apply (bool_decide_eq_true_1 (NoDup (dict_keys (topology default_table)))).
    by vm_compute.
  - intros n.
    pose proof (fixed_neighbors_eq s s' n H H' (Hw n)) as Hn.
    rewrite !get_neighbors_view in Hn.
    destruct (dict_get n (edges_view s)) as [d|] eqn:Hd;
      destruct (dict_get n (edges_view s')) as [d'|] eqn:Hd'; simpl in Hn.
    + by rewrite Hn.
    + apply dict_get_None in Hd'. rewrite <- Hkeys in Hd'.
      apply dict_get_None in Hd'. congruence.
    + apply dict_get_None in Hd. rewrite Hkeys in Hd.
      apply dict_get_None in Hd. congruence.
    + done.
Qed.

(** The solver on a concrete table, once its loop has been run. *)
Lemma solve_from_loop s fuel s1 c p :
  for_each (rev all_nodes) visit (start s) = (Ok tt, s1) ->
  follows s1 "A" p -> length p <= fuel ->
  cost_to_go s1 !! "A" = Some c ->
  solve_backward_induction fuel s = (Ok (c, p), s1).
Proof.
  intros Hloop Hf Hlen Hc. rewrite solve_unfold.
  erewrite bind_ok by exact Hloop.
  unfold _reconstruct_path.
  erewrite bind_ok by (by apply reconstruct_follows).
  unfold cost_at, bind, gets. simpl. by rewrite Hc.
Qed.

(** ** Reset, zeroing and the solver *)



Lemma zero_solve fuel :
  5 <= fuel ->
  exists s', solve_backward_induction fuel (snd (_reset_to_zero new_problem))
             = (Ok (Fin 0, ["A"; "B"; "E"; "H"; "J"]), s').
Proof.
  intros Hfuel.
  set (z := snd (_reset_to_zero new_problem)).
  set (s1 := snd (for_each (rev all_nodes) visit (start z))).
  exists s1. apply solve_from_loop; [by vm_compute | | simpl; lia | by vm_compute].
  apply follows_step with (v := "B"); [by vm_compute|].
  apply follows_step with (v := "E"); [by vm_compute|].
  apply follows_step with (v := "H"); [by vm_compute|].
  apply follows_step with (v := "J"); [by vm_compute|].
  apply follows_end. by vm_compute.
Qed.

(** X3.  From any state that the methods can leave, the zeroing of the GUI
    returns and leaves every edge at weight 0 with the keys unchanged; a
    solve after it returns cost 0 along A, B, E, H, J, the path of the
    first edge of every dict, since no later edge is strictly better. *)
Theorem zero_then_solve s fuel :
  well_formed s ->
  5 <= fuel ->
  exists s',
    _reset_to_zero s = (Ok tt, s')
    /\ topology (edges_view s') = topology (edges_view s)
    /\ (forall a b, is_Some (weight_of s a b) -> weight_of s' a b = Some 0%Z)
    /\ fst (solve_backward_induction fuel s')
       = Ok (Fin 0, ["A"; "B"; "E"; "H"; "J"]).
Proof.
  intros W Hfuel.
  destruct (reset_to_zero_ok s W) as (s' & Hrun & W' & _ & Hzero).
  destruct (reset_to_zero_ok new_problem new_problem_well_formed)
    as (z & Hz & Wz & _ & Hzero').
  pose proof (wf_topology _ W) as H. pose proof (wf_topology _ W') as H'.
  pose proof (wf_topology _ Wz) as Hfz.
  exists s'. split; [done|]. split; [|split; [done|]].
  { unfold fixed_topology in *. congruence. }
  assert (edges_view s' = edges_view z) as Hview.
  { apply fixed_view_eq; [done | done |]. intros a b.
    destruct (weight_of s' a b) as [w|] eqn:Hw.
    - assert (is_Some (weight_of s a b)) as Hs.
      { apply (fixed_weight_keys s s' a b H H'). by rewrite Hw. }
      rewrite (Hzero a b Hs) in Hw. injection Hw as <-.
      symmetry. apply Hzero'.
      by apply (fixed_weight_keys s new_problem a b H
                  (wf_topology _ new_problem_well_formed)).
    - destruct (weight_of z a b) as [w|] eqn:Hw'; [|done].
      assert (is_Some (weight_of s' a b)) as [? ?]; [|congruence].
      apply (fixed_weight_keys z s' a b Hfz H'). by rewrite Hw'. }
  rewrite (solve_deterministic s' z fuel H' Hview Hfuel).
  assert (z = snd (_reset_to_zero new_problem)) as -> by (by rewrite Hz).
  by destruct (zero_solve fuel Hfuel) as [s1 ->].
Qed.

Lemma zero_then_solve_witness :
  well_formed new_problem /\ 5 <= 5
  /\ exists s',
       _reset_to_zero new_problem = (Ok tt, s')
       /\ topology (edges_view s') = topology (edges_view new_problem)
       /\ (forall a b, is_Some (weight_of new_problem a b) ->
             weight_of s' a b = Some 0%Z)
       /\ fst (solve_backward_induction 5 s')
          = Ok (Fin 0, ["A"; "B"; "E"; "H"; "J"]).
Proof.
  split; [exact new_problem_well_formed|]. split; [lia|].
  apply (zero_then_solve new_problem 5 new_problem_well_formed). lia.
Defined.

(** ** Weight edits after a solve *)

Lemma path_weight_is_Some_fixed s s' p :
  fixed_topology s -> fixed_topology s' ->
  is_Some (path_weight s p) -> is_Some (path_weight s' p).
Proof.
  intros H H'. induction p as [|x [|y p] IH]; intros [m Hm]; [done| by eexists |].
  change (path_weight s (x :: y :: p))
    with (match weight_of s x y, path_weight s (y :: p) with
          | Some w, Some m => Some (w + m)%Z
          | _, _ => None
          end) in Hm.
  change (path_weight s' (x :: y :: p))
    with (match weight_of s' x y, path_weight s' (y :: p) with
          | Some w, Some m => Some (w + m)%Z
          | _, _ => None
          end).
  destruct (weight_of s x y) as [w|] eqn:Hw; [|done].
  destruct (path_weight s (y :: p)) as [m2|] eqn:Hm2; [|done].
  destruct (IH (ltac:(by eexists))) as [m2' ->].
  assert (is_Some (weight_of s' x y)) as [w' ->]; [|by eexists].
  apply (fixed_weight_keys s s' x y H H'). by rewrite Hw.
Qed.

(** X4.  [get_path_details] reads the weights at the time of its call.
    When an edge weight is set after a solve, the tables of the solver stay
    as the solve left them (the stored cost of "A" is the old minimum), and
    [get_path_details] returns the triples of the old path with the weights
    that the edges have now. *)
Theorem details_use_current_weights s fuel a b w :
  well_formed s ->
  5 <= fuel ->
  exists s1 m path s2 details,
    solve_backward_induction fuel s = (Ok (Fin m, path), s1)
    /\ set_edge_weight a b w s1 = (Ok tt, s2)
    /\ cost_to_go s2 !! "A" = Some (Fin m)
    /\ next_node s2 = next_node s1
    /\ get_path_details fuel s2 = (Ok details, s2)
    /\ map fst details = zip path (tail path)
    /\ forall u v x, (u, v, x) ∈ details -> weight_of s2 u v = Some x.
Proof.
  intros W Hfuel.
  destruct (solve_fixed_path s fuel (wf_topology _ W) Hfuel)
    as (s1 & m & p & Hrun & Hh & He & S & Hf & Hlen & _ & Hpw).
  destruct (solve_fixed s fuel (wf_topology _ W) Hfuel)
    as (s1' & c' & p' & Hrun' & _ & _ & Hd & _ & _ & _ & Hc).
  rewrite Hrun in Hrun'. injection Hrun' as <- <- <-.
  assert (well_formed s1) as W1 by (by apply (well_formed_frame s s1)).
  destruct (set_edge_weight_views a b w s1 W1) as (s2 & Hset & _ & Htop & _).
  destruct (set_edge_weight_keeps a b w s1) as [Hct Hnx].
  rewrite Hset in Hct, Hnx. simpl in Hct, Hnx.
  assert (fixed_topology s2) as H2.
  { unfold fixed_topology. rewrite Htop. apply W1. }
  assert (follows s2 "A" p) as Hf2.
  { apply (follows_ext s1); [|done]. intros n. unfold link. by rewrite Hnx. }
  assert (is_Some (path_weight s2 p)) as [m2 Hpw2].
  { apply (path_weight_is_Some_fixed s1 s2); [apply W1 | done |]. by rewrite Hpw. }
  destruct (details_of_spec s2 p m2 Hpw2) as (Hz & Hall & _).
  exists s1, m, p, s2, (details_of s2 p). split_and!; try done.
  - by rewrite Hct.
  - apply get_path_details_run; [done | lia | by rewrite Hpw2].
Qed.

Lemma details_use_current_weights_witness :
  well_formed new_problem /\ 5 <= 5
  /\ exists s1 m path s2 details,
       solve_backward_induction 5 new_problem = (Ok (Fin m, path), s1)
       /\ set_edge_weight "A" "D" 50 s1 = (Ok tt, s2)
       /\ cost_to_go s2 !! "A" = Some (Fin m)
       /\ next_node s2 = next_node s1
       /\ get_path_details 5 s2 = (Ok details, s2)
       /\ map fst details = zip path (tail path)
       /\ forall u v x, (u, v, x) ∈ details -> weight_of s2 u v = Some x.
Proof.
  split; [exact new_problem_well_formed|]. split; [lia|].
  apply (details_use_current_weights new_problem 5 "A" "D" 50
           new_problem_well_formed). lia.
Defined.



(** X6.  [get_path_details] is read-only: whatever its outcome (a list of
    triples, an exception, or the end of the fuel), the object is after the
    call what it was before. *)
Theorem get_path_details_read_only fuel s :
  snd (get_path_details fuel s) = s.
Proof.
  apply (preserves_bind (fun s' => s' = s)); [| |done].
  - apply preserves_reconstruct.
  - intros path. apply preserves_fold_m. intros details i.
    unfold detail_step.
    apply preserves_bind; [apply preserves_index | intros u].
    apply preserves_bind; [apply preserves_index | intros v].
    apply preserves_bind; [apply preserves_edges_at | intros l].
    apply preserves_bind; [apply preserves_gets | intros d].
    apply preserves_bind; [apply preserves_subscript | intros x].
    apply preserves_ret.
Qed.

(** ** A sink that cannot be reached *)




(** The table without edges into the sink: infinite cost, path ["A"]. *)
Example cut_problem_solve :
  fst (solve_backward_induction 10 cut_problem) = Ok (Inf, ["A"]).
Proof. by vm_compute. Qed.

(** ** Setting one weight again *)

Lemma dict_set_set {V} k (v v' : V) d :
  dict_set k v' (dict_set k v d) = dict_set k v' d.
Proof.
  induction d as [|[k0 v0] d IH]; simpl.
  - by rewrite String.eqb_refl.
  - destruct (String.eqb k k0) eqn:E; simpl; rewrite E; [done | by rewrite IH].
Qed.

Lemma dict_set_same {V} k (v : V) d : dict_get k d = Some v -> dict_set k v d = d.
Proof.
  induction d as [|[k0 v0] d IH]; simpl; [done|].
  destruct (String.eqb k k0); [by intros [= ->] | intros H; by rewrite IH].
Qed.

Lemma deref_has_key l s b :
  dict_mem b (deref l s) = true -> heap s !! l = Some (deref l s).
Proof.
  unfold deref. destruct (heap s !! l); [done|]. by vm_compute.
Qed.

(** X8.  Setting the weight of an edge twice is setting it to the second
    value, and setting it back to the weight it had gives back the very
    object with which one started (for an unknown pair both calls do
    nothing). *)
Theorem set_edge_weight_again a b w1 w2 s :
  snd (set_edge_weight a b w2 (snd (set_edge_weight a b w1 s)))
  = snd (set_edge_weight a b w2 s)
  /\ (forall old, weight_of s a b = Some old ->
        snd (set_edge_weight a b old (snd (set_edge_weight a b w1 s))) = s).
Proof.
  assert (forall w w', snd (set_edge_weight a b w' (snd (set_edge_weight a b w s)))
                       = snd (set_edge_weight a b w' s)) as Hover.
  { intros w w'. rewrite !set_edge_weight_run. simpl.
    destruct (dict_get a (edges s)) as [l|] eqn:Hl; [|by rewrite Hl].
    destruct (dict_mem b (deref l s)) eqn:Hb; [|by rewrite Hl, Hb].
    simpl. rewrite Hl.
    pose proof (deref_has_key l s b Hb) as Hsome.
    assert (l < length (heap s)) as Hlt by (by eapply lookup_lt_Some).
    rewrite deref_insert_eq by done.
    assert (dict_mem b (dict_set b w (deref l s)) = true) as ->.
    { unfold dict_mem. by rewrite dict_get_set_eq. }
    unfold set_heap. simpl. by rewrite list_insert_insert_eq, dict_set_set. }
  split; [apply Hover|].
  intros old Hold. rewrite Hover, set_edge_weight_run. simpl.
  destruct (weight_of_lookup s a b old Hold) as (l & Hl & Hd).
  rewrite Hl.
  assert (dict_mem b (deref l s) = true) as Hb.
  { unfold dict_mem. by rewrite Hd. }
  rewrite Hb, (dict_set_same b old _ Hd).
  rewrite (list_insert_id _ _ _ (deref_has_key l s b Hb)).
  by destruct s.
Qed.

Lemma set_edge_weight_again_witness :
  weight_of new_problem "A" "B" = Some 2%Z
  /\ snd (set_edge_weight "A" "B" 9 (snd (set_edge_weight "A" "B" 7 new_problem)))
     = snd (set_edge_weight "A" "B" 9 new_problem)
  /\ snd (set_edge_weight "A" "B" 2 (snd (set_edge_weight "A" "B" 7 new_problem)))
     = new_problem.
Proof.
  split; [by vm_compute|].
  destruct (set_edge_weight_again "A" "B" 7 9 new_problem) as [H1 H2].
  split; [exact H1 | apply H2; by vm_compute].
Defined.

(** ** An edit changes the tables upstream only *)

(** Two solved tables agree on a set of nodes that is closed under edges
    and on which the two edge tables agree. *)
Lemma solved_agree_on nb1 nb2 s1 s2 (C : string -> Prop) post :
  staged_from nb1 post = true ->
  (forall u, u ∈ post -> u ∈ all_nodes) ->
  solved nb1 s1 -> solved nb2 s2 ->
  (forall u, C u -> u <> "J" ->
     nb1 u = nb2 u /\ forall v w, (v, w) ∈ nb1 u -> C v) ->
  forall u, u ∈ post -> C u ->
    cost_to_go s1 !! u = cost_to_go s2 !! u /\ link s1 u = link s2 u.
Proof.
  intros Hst Hsub S1 S2 HC. induction post as [|x post IH]; intros u Hu Cu.
  { inversion Hu. }
  assert (forall u, u ∈ post -> C u ->
            cost_to_go s1 !! u = cost_to_go s2 !! u /\ link s1 u = link s2 u)
    as IH'.
  { apply IH.
    - simpl in Hst. by apply andb_prop in Hst as [_ ?].
    - intros n Hn. apply Hsub. by right. }
  apply elem_of_cons in Hu as [-> | Hu]; [|by apply IH'].
  destruct (decide (x = "J")) as [-> | Hne].
  { by rewrite (sv_sink _ _ S1), (sv_sink _ _ S2),
      (sv_sink_link _ _ S1), (sv_sink_link _ _ S2). }
  assert (x ∈ all_nodes) as Hx by (apply Hsub; left).
  destruct (HC x Cu Hne) as [Hnb Hclosed].
  destruct (sv_scan _ _ S1 x Hx Hne) as [Hc1 Hn1].
  destruct (sv_scan _ _ S2 x Hx Hne) as [Hc2 Hn2].
  rewrite <- Hnb in Hc2, Hn2.
  assert (scan (cost_to_go s1) (Inf, None) (nb1 x)
          = scan (cost_to_go s2) (Inf, None) (nb1 x)) as Hscan.
  { apply scan_ext. intros v w Hvw. apply IH'; [|by eapply Hclosed].
    simpl in Hst. apply andb_prop in Hst as [[_ Hx']%andb_prop _].
    apply orb_prop in Hx' as [Hj | Hall]; [by apply String.eqb_eq in Hj|].
    rewrite forallb_forall in Hall. apply list_elem_of_In in Hvw.
    specialize (Hall _ Hvw). apply andb_prop in Hall as [Hv _].
    by apply bool_decide_eq_true in Hv. }
  unfold link. rewrite Hc1, Hc2, Hn1, Hn2, Hscan. done.
Qed.

(** Every node of [self.stages] is in [self.all_nodes]. *)
Lemma stage_of_all_nodes u k : stage_of u = Some k -> u ∈ all_nodes.
Proof.
  unfold stage_of. destruct (find _ stages) as [[k' ns]|] eqn:Hfind; [|done].
  intros _. apply find_some in Hfind as [Hin Hb].
  apply bool_decide_eq_true in Hb. simpl in Hb.
  assert (forallb (fun st => forallb (fun n => bool_decide (n ∈ all_nodes))
                               (snd st)) stages = true) as Hall
    by (by vm_compute).
  rewrite forallb_forall in Hall. specialize (Hall _ Hin). simpl in Hall.
  rewrite forallb_forall in Hall. apply list_elem_of_In in Hb.
  specialize (Hall _ Hb). by apply bool_decide_eq_true in Hall.
Qed.

(** X9.  Re-solving after one weight edit changes the tables upstream of
    the edited edge only: for an edit of an edge that leaves node [a], the
    cost and the link of every other node of the stage of [a] or of a later
    stage are what a solve without the edit gives. *)
Theorem edit_is_local s a b w fuel :
  well_formed s ->
  5 <= fuel ->
  exists s1 r1 e s2 r2,
    solve_backward_induction fuel s = (Ok r1, s1)
    /\ set_edge_weight a b w s = (Ok tt, e)
    /\ solve_backward_induction fuel e = (Ok r2, s2)
    /\ forall u ka k,
         u <> a -> stage_of a = Some ka -> stage_of u = Some k -> ka <= k ->
         cost_to_go s2 !! u = cost_to_go s1 !! u /\ link s2 u = link s1 u.
Proof.
  intros W Hfuel.
  pose proof (wf_topology _ W) as H.
  destruct (set_edge_weight_views a b w s W)
    as (e & Hset & _ & Htop & Hnone & Hsome).
  assert (fixed_topology e) as He.
  { unfold fixed_topology. by rewrite Htop. }
  destruct (solve_fixed s fuel H Hfuel)
    as (s1 & c1 & p1 & Hrun1 & _ & _ & _ & S1 & _).
  destruct (solve_fixed e fuel He Hfuel)
    as (s2 & c2 & p2 & Hrun2 & _ & _ & _ & S2 & _).
  exists s1, (c1, p1), e, s2, (c2, p2). split_and!; try done.
  intros u ka k Hua Hka Hk Hle.
  assert (forall x, x <> a -> get_neighbors x s = get_neighbors x e) as Hnb.
  { intros x Hx. apply fixed_neighbors_eq; [done | done |]. intros b'.
    destruct (weight_of s a b) as [old|] eqn:Hold.
    - destruct Hsome as [_ Hothers]; [by eexists|].
      symmetry. apply Hothers. congruence.
    - by rewrite (Hnone eq_refl). }
  set (C := fun x => x <> a /\ exists kx, stage_of x = Some kx /\ ka <= kx).
  assert (u ∈ all_nodes) as Hu by (by eapply stage_of_all_nodes).
  destruct (solved_agree_on (fun n => get_neighbors n s)
              (fun n => get_neighbors n e) s1 s2 C all_nodes
              (fixed_staged s H) (fun x Hx => Hx) S1 S2) with (u := u)
    as [Hc Hl]; [| done | | by rewrite Hc, Hl].
  - intros x [Hxa (kx & Hkx & Hlex)] _. split; [by apply Hnb|].
    intros v wv Hvw.
    destruct (fixed_layered s x v wv H Hvw) as (kx' & Hkx' & Hkv).
    rewrite Hkx in Hkx'. injection Hkx' as <-.
    split.
    + intros ->. rewrite Hka in Hkv. injection Hkv as ->. lia.
    + exists (S kx). split; [done | lia].
  - split; [done|]. by exists k.
Qed.

Lemma edit_is_local_witness :
  well_formed new_problem /\ 5 <= 5
  /\ exists s1 r1 e s2 r2,
       solve_backward_induction 5 new_problem = (Ok r1, s1)
       /\ set_edge_weight "D" "F" 40 new_problem = (Ok tt, e)
       /\ solve_backward_induction 5 e = (Ok r2, s2)
       /\ forall u ka k,
            u <> "D" -> stage_of "D" = Some ka -> stage_of u = Some k ->
            ka <= k ->
            cost_to_go s2 !! u = cost_to_go s1 !! u /\ link s2 u = link s1 u.
Proof.
  split; [exact new_problem_well_formed|]. split; [lia|].
  apply (edit_is_local new_problem "D" "F" 40 5 new_problem_well_formed). lia.
Defined.

(** ** The entries of the window *)

Lemma key_eqb_spec k k' : key_eqb k k' = true <-> k = k'.
Proof.
  destruct k as [a b], k' as [a' b']. unfold key_eqb. simpl.
  rewrite andb_true_iff, !String.eqb_eq. split.
  - by intros [-> ->].
  - intros [= -> ->]. done.
Qed.

Lemma key_eqb_refl k : key_eqb k k = true.
Proof. by apply key_eqb_spec. Qed.

Lemma key_eqb_ne k k' : k <> k' -> key_eqb k k' = false.
Proof.
  intros Hne. destruct (key_eqb k k') eqn:E; [|done].
  by apply key_eqb_spec in E.
Qed.

Lemma entries_set_fresh {V} k (v : V) d :
  k ∉ map fst d -> entries_set k v d = (d ++ [(k, v)])%list.
Proof.
  induction d as [|[k' v'] d IH]; simpl; intros Hk; [done|].
  rewrite not_elem_of_cons in Hk. destruct Hk as [Hne Hk].
  rewrite (key_eqb_ne _ _ Hne). by rewrite IH.
Qed.

Lemma entries_set_middle {V} k (v v0 : V) d1 d2 :
  k ∉ map fst d1 ->
  entries_set k v (d1 ++ (k, v0) :: d2) = (d1 ++ (k, v) :: d2)%list.
Proof.
  induction d1 as [|[k' v'] d1 IH]; simpl; intros Hk.
  - by rewrite key_eqb_refl.
  - rewrite not_elem_of_cons in Hk. destruct Hk as [Hne Hk].
    rewrite (key_eqb_ne _ _ Hne). by rewrite IH.
Qed.



Lemma set_problem_id g : set_problem (problem g) g = g.
Proof. by destruct g. Qed.


(** ** The grid of entries *)

Lemma shown_keys l : forall n,
  map fst (imap (fun i => shown (n + i)) l) = map fst l.
Proof.
  induction l as [|x l IH]; intros n; simpl; [done|]. f_equal.
  rewrite <- (IH (S n)). f_equal. apply imap_ext. intros i y _. simpl.
  by rewrite Nat.add_succ_r.
Qed.

Lemma shown_snoc done x row col :
  9 * row + col = length done -> col < 9 ->
  (imap shown done ++ [(fst x, mkEntry (row, col) (Some (snd x)))])%list
  = imap shown (done ++ [x]).
Proof.
  intros Hn Hc. rewrite imap_app. simpl. f_equal. unfold shown.
  rewrite Nat.add_0_r, <- Hn.
  rewrite <- (Nat.div_unique (9 * row + col) 9 row col) by lia.
  by rewrite <- (Nat.mod_unique (9 * row + col) 9 row col) by lia.
Qed.

(** The inner loop of [_create_weight_entries_horizontal] on the edges of
    one node, when [done] edges have their entries. *)
Lemma place_entries from_node items : forall done col row,
  9 * row + col = length done -> col < 9 ->
  NoDup (map fst (done ++ map (fun '(b, w) => ((from_node, b), w)) items)) ->
  exists col' row',
    foldl (place_entry 9 from_node) (col, row, imap shown done) items
    = (col', row',
       imap shown (done ++ map (fun '(b, w) => ((from_node, b), w)) items))
    /\ 9 * row' + col' = length done + length items /\ col' < 9.
Proof.
  induction items as [|[b w] items IH]; intros done col row Hn Hc Hnd.
  - exists col, row. simpl. rewrite app_nil_r. split; [done|]. lia.
  - cbn [foldl]. simpl map in *.
    assert ((from_node, b) ∉ map fst (imap shown done)) as Hfresh.
    { assert (map fst (imap shown done) = map fst done) as ->
        by apply (shown_keys done 0).
      rewrite map_app in Hnd.
      apply NoDup_app in Hnd as (_ & Hnd & _). intros Hin.
      apply (Hnd _ Hin). simpl. apply elem_of_cons. by left. }
    unfold place_entry at 2. cbv beta iota zeta.
    rewrite (entries_set_fresh _ _ _ Hfresh).
    pose proof (shown_snoc done ((from_node, b), w) row col Hn Hc) as Hs.
    cbn [fst snd] in Hs. rewrite Hs. clear Hs.
    assert (forall rest : list (string * string * Z),
              (done ++ (from_node, b, w) :: rest
               = (done ++ [(from_node, b, w)]) ++ rest)%list) as Hmid
      by (intros rest; by rewrite <- app_assoc).
    rewrite Hmid in Hnd.
    rewrite (Hmid (map (fun '(b, w) => ((from_node, b), w)) items)).
    destruct (Nat.leb_spec 9 (col + 1)) as [Hwrap|Hstay].
    + destruct (IH (done ++ [((from_node, b), w)])%list 0 (row + 1))
        as (col' & row' & Hrun & Hn' & Hc'); [rewrite length_app; simpl; lia|lia|done|].
      exists col', row'. split; [done|].
      rewrite length_app in Hn'. simpl in *. lia.
    + destruct (IH (done ++ [((from_node, b), w)])%list (col + 1) row)
        as (col' & row' & Hrun & Hn' & Hc'); [rewrite length_app; simpl; lia|lia|done|].
      exists col', row'. split; [done|].
      rewrite length_app in Hn'. simpl in *. lia.
Qed.

(** The outer loop, over the nodes. *)
Lemma place_all s nodes : forall done col row,
  let items_of := fun a => map (fun '(b, w) => ((a, b), w)) (get_neighbors a s) in
  9 * row + col = length done -> col < 9 ->
  NoDup (map fst (done ++ flat_map items_of nodes)) ->
  exists col' row',
    foldl (fun acc from_node =>
             match get_neighbors from_node s with
             | [] => acc
             | _ => foldl (place_entry 9 from_node) acc
                      (get_neighbors from_node s)
             end)
      (col, row, imap shown done) nodes
    = (col', row', imap shown (done ++ flat_map items_of nodes)).
Proof.
  induction nodes as [|a nodes IH]; intros done col row items_of Hn Hc Hnd.
  - exists col, row. simpl. by rewrite app_nil_r.
  - cbn [foldl]. simpl flat_map in *. rewrite app_assoc in Hnd |- *.
    assert (match get_neighbors a s with
            | [] => (col, row, imap shown done)
            | _ => foldl (place_entry 9 a) (col, row, imap shown done)
                     (get_neighbors a s)
            end
            = foldl (place_entry 9 a) (col, row, imap shown done)
                (get_neighbors a s)) as ->.
    { by destruct (get_neighbors a s). }
    destruct (place_entries a (get_neighbors a s) done col row Hn Hc)
      as (col1 & row1 & Hrun & Hn1 & Hc1).
    { rewrite map_app in Hnd. by apply NoDup_app in Hnd as (Hnd & _). }
    rewrite Hrun.
    apply (IH (done ++ items_of a)%list col1 row1); [|done|done].
    unfold items_of. rewrite length_app, length_map. lia.
Qed.

Lemma edge_items_keys_gen s nodes :
  map fst (flat_map (fun a => map (fun '(b, w) => ((a, b), w))
                                (get_neighbors a s)) nodes)
  = flat_map (fun a => map (pair a) (dict_keys (get_neighbors a s))) nodes.
Proof.
  induction nodes as [|a nodes IH]; simpl; [done|].
  rewrite map_app, IH. f_equal. unfold dict_keys. rewrite !map_map.
  apply map_ext. by intros [b w].
Qed.

Lemma fixed_edge_keys s nodes :
  fixed_topology s ->
  flat_map (fun a => map (pair a) (dict_keys (get_neighbors a s))) nodes
  = flat_map (fun a => map (pair a) (dict_keys (default_neighbors a))) nodes.
Proof.
  intros H. induction nodes as [|a nodes IH]; simpl; [done|].
  by rewrite IH, (fixed_keys s a H).
Qed.

(** With the fixed topology the window lists the eighteen edges of the
    constructor's table. *)
Lemma edge_items_keys s :
  fixed_topology s ->
  map fst (edge_items s) = map fst (edge_items new_problem).
Proof.
  intros H. unfold edge_items. rewrite !edge_items_keys_gen.
  rewrite (fixed_edge_keys s all_nodes H).
  by rewrite (fixed_edge_keys new_problem all_nodes
                (wf_topology _ new_problem_well_formed)).
Qed.

Lemma edge_keys_NoDup : NoDup (map fst (edge_items new_problem)).
Proof.
  apply (bool_decide_eq_true_1 (NoDup (map fst (edge_items new_problem)))).
  by vm_compute.
Qed.

Lemma create_entries_run g :
  fixed_topology (problem g) -> weight_entries g = [] ->
  GUI._create_weight_entries_horizontal g
  = (Ok tt, set_weight_entries (imap shown (edge_items (problem g))) g).
Proof.
  intros H He.
  assert (NoDup (map fst ([] ++ edge_items (problem g)))) as Hnd.
  { rewrite app_nil_l, (edge_items_keys _ H). apply edge_keys_NoDup. }
  destruct (place_all (problem g) all_nodes [] 0 0 eq_refl ltac:(lia) Hnd)
    as (col & row & Hrun).
  unfold GUI._create_weight_entries_horizontal, gmodify. f_equal.
  rewrite He. cbv zeta.
  change (0, 0, @nil (string * string * Entry))
    with (0, 0, imap shown (@nil (string * string * Z))).
  by rewrite Hrun.
Qed.

Lemma shown_cells l : forall n,
  map (fun ke => cell (snd ke)) (imap (fun i => shown (n + i)) l)
  = map (fun i => (i / 9, i mod 9)) (seq n (length l)).
Proof.
  induction l as [|x l IH]; intros n; [done|].
  rewrite imap_cons. cbn [length seq map]. f_equal.
  - unfold shown. cbn [snd cell]. by rewrite Nat.add_0_r.
  - rewrite <- (IH (S n)). f_equal. apply imap_ext. intros i y _.
    unfold compose. by rewrite Nat.add_succ_r.
Qed.

Lemma cells_NoDup n m :
  NoDup (map (fun i => (i / 9, i mod 9)) (seq n m)).
Proof.
  revert n. induction m as [|m IH]; intros n; cbn [seq map]; [constructor|].
  apply NoDup_cons. split; [|apply IH].
  intros Hin. apply list_elem_of_In, in_map_iff in Hin as (j & Hj & Hin).
  apply in_seq in Hin.
  assert (j / 9 = n / 9) as Hd by exact (f_equal fst Hj).
  assert (j mod 9 = n mod 9) as Hm by exact (f_equal snd Hj).
  pose proof (Nat.div_mod_eq j 9). pose proof (Nat.div_mod_eq n 9). lia.
Qed.

Lemma edge_items_length s :
  fixed_topology s -> length (edge_items s) = 18.
Proof.
  intros H. rewrite <- (length_map fst), (edge_items_keys s H). by vm_compute.
Qed.

(** X10.  On an object with the constructor's edges and an empty dict of
    entries, [_create_weight_entries_horizontal] makes one entry per edge,
    in the order of the nodes and of their neighbours; the entry of the
    [i]-th edge shows its weight and sits in row [i / 9], column [i mod 9]:
    eighteen entries in two rows of nine, no two of them in the same
    cell.  The problem is not written. *)
Theorem entries_fill_rows_of_nine g :
  fixed_topology (problem g) ->
  weight_entries g = [] ->
  exists g',
    GUI._create_weight_entries_horizontal g = (Ok tt, g')
    /\ problem g' = problem g
    /\ weight_entries g' = imap shown (edge_items (problem g))
    /\ length (weight_entries g') = 18
    /\ NoDup (map (fun ke => cell (snd ke)) (weight_entries g')).
Proof.
  intros H He. rewrite (create_entries_run g H He).
  eexists. split; [reflexivity|]. cbn [problem weight_entries set_weight_entries].
  split_and!; [done|done| |].
  - by rewrite length_imap, edge_items_length.
  - assert (map (fun ke => cell (snd ke)) (imap shown (edge_items (problem g)))
            = map (fun i => (i / 9, i mod 9))
                (seq 0 (length (edge_items (problem g))))) as ->
      by apply (shown_cells _ 0).
    apply cells_NoDup.
Qed.

Lemma entries_fill_rows_of_nine_witness :
  fixed_topology (problem (set_problem new_problem blank_gui))
  /\ weight_entries (set_problem new_problem blank_gui) = []
  /\ exists g',
       GUI._create_weight_entries_horizontal (set_problem new_problem blank_gui)
       = (Ok tt, g')
       /\ problem g' = problem (set_problem new_problem blank_gui)
       /\ weight_entries g'
          = imap shown (edge_items (problem (set_problem new_problem blank_gui)))
       /\ length (weight_entries g') = 18
       /\ NoDup (map (fun ke => cell (snd ke)) (weight_entries g')).
Proof.
  assert (fixed_topology (problem (set_problem new_problem blank_gui))) as H
    by (by vm_compute).
  split; [exact H|]. split; [reflexivity|].
  apply (entries_fill_rows_of_nine (set_problem new_problem blank_gui) H).
  reflexivity.
Defined.

(** ** Entries and weights *)

Lemma weight_at_run a b s w :
  weight_of s a b = Some w -> weight_at a b s = (Ok w, s).
Proof.
  intros Hw. apply weight_of_lookup in Hw as (l & Hl & Hb).
  unfold weight_at. rewrite (bind_ok _ _ s l s (edges_at_run a l s Hl)).
  unfold bind, gets. by rewrite Hb.
Qed.


Lemma on_problem_pure {A} (m : M A) g o :
  m (problem g) = (o, problem g) -> on_problem m g = (o, g).
Proof. intros H. unfold on_problem. by rewrite H, set_problem_id. Qed.

Lemma refreshed_keys s l : map fst (map (refreshed s) l) = map fst l.
Proof. rewrite map_map. by apply map_ext. Qed.

(** The loop of [_update_entries_from_problem] over a segment [rest] of the
    entries whose keys are edges: the entries before are refreshed already,
    those of the segment are refreshed, those after are left. *)
Lemma update_entries_loop g0 tl : forall rest pre,
  NoDup (map fst (pre ++ rest ++ tl)) ->
  Forall (fun ke => is_Some (weight_of (problem g0) (fst (fst ke)) (snd (fst ke))))
    rest ->
  gfor_each rest
    (fun '((from_node, to_node), entry) =>
       do! w := on_problem (weight_at from_node to_node) in
       gmodify (fun g =>
         set_weight_entries
           (entries_set (from_node, to_node) (mkEntry (cell entry) (Some w))
              (weight_entries g)) g))
    (set_weight_entries (map (refreshed (problem g0)) pre ++ rest ++ tl) g0)
  = (Ok tt,
     set_weight_entries (map (refreshed (problem g0)) (pre ++ rest) ++ tl) g0).
Proof.
  induction rest as [|[[a b] e] rest IH]; intros pre Hnd Hall.
  - simpl. by rewrite !app_nil_r.
  - apply Forall_cons in Hall as [[w Hw] Hall]. cbn [fst snd] in Hw.
    cbn [gfor_each]. unfold gbind at 1.
    unfold gbind at 1.
    rewrite (on_problem_pure _ _ (Ok w)) by (by apply weight_at_run).
    unfold gmodify.
    cbn [weight_entries set_weight_entries problem result_label error_boxes].
    rewrite <- app_comm_cons.
    rewrite entries_set_middle.
    2:{ rewrite refreshed_keys. rewrite map_app in Hnd.
        apply NoDup_app in Hnd as (_ & Hnd & _). intros Hin.
        apply (Hnd _ Hin). simpl. apply elem_of_cons. by left. }
    assert (forall l : list (string * string * Entry),
              (pre ++ (a, b, e) :: l = (pre ++ [(a, b, e)]) ++ l)%list) as Hmid
      by (intros l; by rewrite <- app_assoc).
    rewrite <- app_comm_cons, (Hmid (rest ++ tl)%list) in Hnd.
    rewrite (Hmid rest).
    specialize (IH (pre ++ [(a, b, e)])%list Hnd Hall).
    rewrite map_app in IH. cbn [map] in IH. unfold refreshed at 2 in IH.
    cbn [fst snd] in IH. rewrite Hw in IH.
    rewrite <- app_assoc in IH. exact IH.
Qed.

Lemma set_weight_entries_id g : set_weight_entries (weight_entries g) g = g.
Proof. by destruct g. Qed.

Lemma update_entries_run g :
  NoDup (map fst (weight_entries g)) ->
  Forall (fun ke => is_Some (weight_of (problem g) (fst (fst ke)) (snd (fst ke))))
    (weight_entries g) ->
  GUI._update_entries_from_problem g
  = (Ok tt,
     set_weight_entries (map (refreshed (problem g)) (weight_entries g)) g).
Proof.
  intros Hnd Hall. unfold GUI._update_entries_from_problem, gbind, ggets.
  pose proof (update_entries_loop g [] (weight_entries g) []) as H.
  rewrite !app_nil_r in H. cbn [map app] in H.
  rewrite set_weight_entries_id in H. by apply H.
Qed.

(** X11.  When the keys of [self.weight_entries] are edges of the problem,
    [_update_entries_from_problem] raises nothing, writes neither the
    problem nor the result label, keeps every entry under its key and in
    its cell, and leaves in every entry the current weight of its edge. *)
Theorem update_entries_shows_weights g :
  NoDup (map fst (weight_entries g)) ->
  Forall (fun ke => is_Some (weight_of (problem g) (fst (fst ke)) (snd (fst ke))))
    (weight_entries g) ->
  exists g',
    GUI._update_entries_from_problem g = (Ok tt, g')
    /\ problem g' = problem g
    /\ result_label g' = result_label g
    /\ map fst (weight_entries g') = map fst (weight_entries g)
    /\ map (fun ke => cell (snd ke)) (weight_entries g')
       = map (fun ke => cell (snd ke)) (weight_entries g)
    /\ forall a b e, ((a, b), e) ∈ weight_entries g' ->
         reading e = weight_of (problem g) a b /\ is_Some (reading e).
Proof.
  intros Hnd Hall. rewrite (update_entries_run g Hnd Hall).
  eexists. split; [reflexivity|].
  cbn [problem result_label weight_entries set_weight_entries].
  split_and!; [done|done|apply refreshed_keys| |].
  - rewrite map_map. by apply map_ext.
  - intros a b e Hin.
    apply list_elem_of_In, in_map_iff in Hin as ([[a' b'] e'] & Heq & Hin).
    unfold refreshed in Heq. cbn [fst snd] in Heq. injection Heq as -> -> <-.
    cbn [reading]. split; [done|].
    rewrite Forall_forall in Hall.
    apply (Hall ((a, b), e')). by apply list_elem_of_In.
Qed.

Lemma update_entries_shows_weights_witness :
  let g := set_weight_entries
             [(("A", "B"), mkEntry (0, 0) None);
              (("H", "J"), mkEntry (1, 7) (Some (-3)%Z))]
             (set_problem new_problem blank_gui) in
  NoDup (map fst (weight_entries g))
  /\ Forall (fun ke =>
       is_Some (weight_of (problem g) (fst (fst ke)) (snd (fst ke))))
       (weight_entries g)
  /\ exists g',
       GUI._update_entries_from_problem g = (Ok tt, g')
       /\ problem g' = problem g
       /\ result_label g' = result_label g
       /\ map fst (weight_entries g') = map fst (weight_entries g)
       /\ map (fun ke => cell (snd ke)) (weight_entries g')
          = map (fun ke => cell (snd ke)) (weight_entries g)
       /\ forall a b e, ((a, b), e) ∈ weight_entries g' ->
            reading e = weight_of (problem g) a b /\ is_Some (reading e).
Proof.
  intros g.
  assert (NoDup (map fst (weight_entries g))) as Hnd.
  { apply (bool_decide_eq_true_1 (NoDup (map fst (weight_entries g)))).
    by vm_compute. }
  assert (Forall (fun ke =>
            is_Some (weight_of (problem g) (fst (fst ke)) (snd (fst ke))))
            (weight_entries g)) as Hall.
  { unfold g; cbn [weight_entries set_weight_entries].
    repeat (apply Forall_cons; split; [eexists; vm_compute; reflexivity|]).
    by apply Forall_nil. }
  split; [exact Hnd|]. split; [exact Hall|].
  exact (update_entries_shows_weights g Hnd Hall).
Defined.



(** ** The buttons that edit the weights *)

Lemma edge_items_elem s a b w :
  ((a, b), w) ∈ edge_items s <-> a ∈ all_nodes /\ (b, w) ∈ get_neighbors a s.
Proof.
  unfold edge_items. rewrite list_elem_of_In, in_flat_map. split.
  - intros (a' & Ha' & Hin). apply in_map_iff in Hin as ([b' w'] & [= -> -> ->] & Hin).
    split; by apply list_elem_of_In.
  - intros [Ha Hin]. exists a. split; [by apply list_elem_of_In|].
    apply in_map_iff. exists (b, w). split; [done|by apply list_elem_of_In].
Qed.

Lemma edge_items_weight s a b w :
  fixed_topology s -> ((a, b), w) ∈ edge_items s -> weight_of s a b = Some w.
Proof.
  intros H Hin. apply edge_items_elem in Hin as [_ Hin].
  rewrite weight_of_neighbors. apply NoDup_dict_get; [by apply fixed_NoDup|done].
Qed.

Lemma edge_keys_weight s a b :
  fixed_topology s ->
  (a, b) ∈ map fst (edge_items s) <-> is_Some (weight_of s a b).
Proof.
  intros H. split.
  - intros Hin. apply list_elem_of_In, in_map_iff in Hin as ([[a' b'] w] & [= -> ->] & Hin).
    exists w. apply edge_items_weight; [done|by apply list_elem_of_In].
  - intros [w Hw]. rewrite weight_of_neighbors in Hw.
    apply dict_get_elem in Hw.
    destruct (fixed_sources s a b w H Hw) as [Ha _].
    apply list_elem_of_In, in_map_iff. exists ((a, b), w). split; [done|].
    apply list_elem_of_In, edge_items_elem. by split.
Qed.

Lemma refreshed_shows s es :
  fixed_topology s ->
  map fst es = map fst (edge_items s) ->
  map (fun ke => (fst ke, reading (snd ke))) (map (refreshed s) es)
  = map (fun item => (fst item, Some (snd item))) (edge_items s).
Proof.
  intros H Hk.
  transitivity (map (fun k => (k, weight_of s (fst k) (snd k))) (map fst es)).
  { rewrite !map_map. by apply map_ext. }
  rewrite Hk, map_map. apply map_ext_in. intros [[a b] w] Hin.
  cbn [fst snd]. f_equal. apply edge_items_weight; [done|].
  by apply list_elem_of_In.
Qed.

(** A method of the problem that returns, then
    [_update_entries_from_problem]: every entry reads the weight that the
    method left on its edge. *)
Lemma button_run (m : M unit) g p' :
  well_formed (problem g) -> entries_of_edges g ->
  m (problem g) = (Ok tt, p') -> well_formed p' ->
  let g' := set_weight_entries (map (refreshed p') (weight_entries g))
              (set_problem p' g) in
  gbind (on_problem m) (fun _ => GUI._update_entries_from_problem) g
  = (Ok tt, g')
  /\ entries_of_edges g' /\ shows_table g'.
Proof.
  intros W He Hrun W' g'.
  pose proof (wf_topology _ W) as H. pose proof (wf_topology _ W') as H'.
  assert (map fst (weight_entries g) = map fst (edge_items p')) as He'.
  { unfold entries_of_edges in He.
    by rewrite He, (edge_items_keys _ H), (edge_items_keys _ H'). }
  split_and!.
  - unfold gbind, on_problem. rewrite Hrun.
    rewrite update_entries_run; [done| |];
      cbn [weight_entries problem set_problem].
    + rewrite He', (edge_items_keys _ H'). apply edge_keys_NoDup.
    + apply Forall_forall. intros [[a b] e] Hin. cbn [fst snd].
      apply (edge_keys_weight p' a b H'). rewrite <- He'.
      apply list_elem_of_In, in_map_iff. exists ((a, b), e).
      split; [done|by apply list_elem_of_In].
  - unfold entries_of_edges, g'. cbn [weight_entries set_weight_entries problem set_problem].
    by rewrite refreshed_keys.
  - unfold shows_table, g'. cbn [weight_entries set_weight_entries problem set_problem].
    by apply refreshed_shows.
Qed.

Lemma refreshed_cells s es :
  map (fun ke => cell (snd ke)) (map (refreshed s) es)
  = map (fun ke => cell (snd ke)) es.
Proof. rewrite map_map. by apply map_ext. Qed.

Lemma refreshed_readings (P : Z -> Prop) s es :
  (forall a b, (a, b) ∈ map fst es -> exists w, weight_of s a b = Some w /\ P w) ->
  Forall (fun ke => exists w, reading (snd ke) = Some w /\ P w)
    (map (refreshed s) es).
Proof.
  intros HP. apply Forall_forall. intros ke Hin.
  apply list_elem_of_In, in_map_iff in Hin as ([[a b] e] & <- & Hin).
  cbn [refreshed fst snd reading]. apply HP.
  apply list_elem_of_In, in_map_iff. by exists ((a, b), e).
Qed.


Lemma new_gui_entries : entries_of_edges new_gui /\ shows_table new_gui.
Proof. split; by vm_compute. Qed.

(** X13.  The button "Rastgele": [_set_random_weights] raises nothing;
    afterwards every edge weighs a number from 1 to 10 and every entry, in
    its cell, reads the weight of its edge, whatever had been typed.  The
    result label is not written: it keeps the text of the last solve. *)
Theorem random_button_fills_entries draw g :
  well_formed (problem g) ->
  entries_of_edges g ->
  exists g',
    GUI._set_random_weights draw g = (Ok tt, g')
    /\ well_formed (problem g')
    /\ entries_of_edges g'
    /\ shows_table g'
    /\ Forall (fun ke => exists w, reading (snd ke) = Some w /\ (1 <= w <= 10)%Z)
         (weight_entries g')
    /\ map (fun ke => cell (snd ke)) (weight_entries g')
       = map (fun ke => cell (snd ke)) (weight_entries g)
    /\ result_label g' = result_label g.
Proof.
  intros W He.
  destruct (set_random_weights_ok draw 1 10 (problem g)) as (p' & Hrun & W' & _ & Hw);
    [lia|done|].
  destruct (button_run (set_random_weights draw 1 10) g p' W He Hrun W')
    as (Hg & He' & Hs).
  eexists. split; [exact Hg|].
  cbn [problem weight_entries result_label set_weight_entries set_problem].
  split_and!; [done|done|done| |apply refreshed_cells|done].
  apply refreshed_readings. intros a b Hin. apply Hw.
  apply (edge_keys_weight _ a b (wf_topology _ W)).
  unfold entries_of_edges in He. by rewrite <- He.
Qed.

Lemma random_button_fills_entries_witness :
  let g := type_text ("A", "B") None new_gui in
  well_formed (problem g)
  /\ entries_of_edges g
  /\ exists g',
       GUI._set_random_weights (fun i => Z.of_nat i) g = (Ok tt, g')
       /\ well_formed (problem g')
       /\ entries_of_edges g'
       /\ shows_table g'
       /\ Forall (fun ke =>
            exists w, reading (snd ke) = Some w /\ (1 <= w <= 10)%Z)
            (weight_entries g')
       /\ map (fun ke => cell (snd ke)) (weight_entries g')
          = map (fun ke => cell (snd ke)) (weight_entries g)
       /\ result_label g' = result_label g.
Proof.
  intros g.
  assert (well_formed (problem g)) as W.
  { assert (problem g = new_problem) as -> by (by vm_compute).
    exact new_problem_well_formed. }
  assert (entries_of_edges g) as He by (by vm_compute).
  split; [exact W|]. split; [exact He|].
  exact (random_button_fills_entries (fun i => Z.of_nat i) g W He).
Defined.

Lemma default_edge_items s :
  edges_view s = default_table -> edge_items s = edge_items new_problem.
Proof.
  intros Hv. unfold edge_items. apply flat_map_ext. intros a.
  rewrite !get_neighbors_view, Hv.
  assert (edges_view new_problem = default_table) as -> by (by vm_compute).
  done.
Qed.

(** X14.  The button "Varsayılan": [_reset_to_default] raises nothing;
    afterwards the problem has the constructor's weights and every entry,
    in its cell, reads the constructor's weight of its edge.  The result
    label is not written. *)
Theorem default_button_restores_entries g :
  well_formed (problem g) ->
  entries_of_edges g ->
  exists g',
    GUI._reset_to_default g = (Ok tt, g')
    /\ well_formed (problem g')
    /\ edges_view (problem g') = default_table
    /\ map (fun ke => (fst ke, reading (snd ke))) (weight_entries g')
       = map (fun item => (fst item, Some (snd item))) (edge_items new_problem)
    /\ map (fun ke => cell (snd ke)) (weight_entries g')
       = map (fun ke => cell (snd ke)) (weight_entries g)
    /\ result_label g' = result_label g.
Proof.
  intros W He.
  destruct (reset_to_default_run (problem g) W) as (p' & Hrun & W' & Hv).
  rewrite (wf_default _ W) in Hv.
  destruct (button_run reset_to_default g p' W He Hrun W') as (Hg & He' & Hs).
  eexists. split; [exact Hg|].
  unfold shows_table in Hs.
  cbn [problem weight_entries result_label set_weight_entries set_problem] in *.
  split_and!; [done|done| |apply refreshed_cells|done].
  by rewrite Hs, (default_edge_items p' Hv).
Qed.

Lemma default_button_restores_entries_witness :
  let g := type_text ("A", "B") None
             (snd (GUI._reset_to_zero new_gui)) in
  well_formed (problem g)
  /\ entries_of_edges g
  /\ exists g',
       GUI._reset_to_default g = (Ok tt, g')
       /\ well_formed (problem g')
       /\ edges_view (problem g') = default_table
       /\ map (fun ke => (fst ke, reading (snd ke))) (weight_entries g')
          = map (fun item => (fst item, Some (snd item)))
              (edge_items new_problem)
       /\ map (fun ke => cell (snd ke)) (weight_entries g')
          = map (fun ke => cell (snd ke)) (weight_entries g)
       /\ result_label g' = result_label g.
Proof.
  intros g.
  assert (well_formed (problem g)) as W.
  { destruct (reset_to_zero_ok new_problem new_problem_well_formed)
      as (p' & Hrun & W' & _).
    assert (problem g = snd (_reset_to_zero new_problem)) as ->
      by (by vm_compute).
    by rewrite Hrun. }
  assert (entries_of_edges g) as He by (by vm_compute).
  split; [exact W|]. split; [exact He|].
  exact (default_button_restores_entries g W He).
Defined.

(** X15.  The button "Sıfırla": [_reset_to_zero] raises nothing; afterwards
    every edge weighs 0 and every entry, in its cell, reads 0.  The result
    label is not written. *)
Theorem zero_button_clears_entries g :
  well_formed (problem g) ->
  entries_of_edges g ->
  exists g',
    GUI._reset_to_zero g = (Ok tt, g')
    /\ well_formed (problem g')
    /\ entries_of_edges g'
    /\ shows_table g'
    /\ Forall (fun ke => reading (snd ke) = Some 0%Z) (weight_entries g')
    /\ map (fun ke => cell (snd ke)) (weight_entries g')
       = map (fun ke => cell (snd ke)) (weight_entries g)
    /\ result_label g' = result_label g.
Proof.
  intros W He.
  destruct (reset_to_zero_ok (problem g) W) as (p' & Hrun & W' & _ & Hw).
  destruct (button_run _reset_to_zero g p' W He Hrun W') as (Hg & He' & Hs).
  eexists. split; [exact Hg|].
  cbn [problem weight_entries result_label set_weight_entries set_problem].
  split_and!; [done|done|done| |apply refreshed_cells|done].
  pose proof (refreshed_readings (fun w => w = 0%Z) p' (weight_entries g)) as HR.
  eapply Forall_impl; [apply HR|].
  - intros a b Hin. exists 0%Z. split; [|done]. apply Hw.
    apply (edge_keys_weight _ a b (wf_topology _ W)).
    unfold entries_of_edges in He. by rewrite <- He.
  - intros ke (w & Hr & ->). exact Hr.
Qed.

Lemma zero_button_clears_entries_witness :
  let g := type_text ("C", "E") (Some (-4)%Z) new_gui in
  well_formed (problem g)
  /\ entries_of_edges g
  /\ exists g',
       GUI._reset_to_zero g = (Ok tt, g')
       /\ well_formed (problem g')
       /\ entries_of_edges g'
       /\ shows_table g'
       /\ Forall (fun ke => reading (snd ke) = Some 0%Z) (weight_entries g')
       /\ map (fun ke => cell (snd ke)) (weight_entries g')
          = map (fun ke => cell (snd ke)) (weight_entries g)
       /\ result_label g' = result_label g.
Proof.
  intros g.
  assert (well_formed (problem g)) as W.
  { assert (problem g = new_problem) as -> by (by vm_compute).
    exact new_problem_well_formed. }
  assert (entries_of_edges g) as He by (by vm_compute).
  split; [exact W|]. split; [exact He|].
  exact (zero_button_clears_entries g W He).
Defined.

(** ** The button that solves *)

(** The loop under [try] over a prefix of accepted entries: it applies
    them, one call of [set_edge_weight] each, and goes on. *)
Lemma apply_entries_loop g0 : forall pre p,
  well_formed p -> NoDup (map fst pre) ->
  Forall (fun ke => accepted (snd ke) = true) pre ->
  exists p',
    (forall rest,
       gfor_each (pre ++ rest)
         (fun '((from_node, to_node), entry) =>
            match reading entry with
            | None => graise ValueError
            | Some weight =>
                if (weight <? 0)%Z then graise ValueError
                else on_problem (set_edge_weight from_node to_node weight)
            end)
         (set_problem p g0)
       = gfor_each rest
           (fun '((from_node, to_node), entry) =>
              match reading entry with
              | None => graise ValueError
              | Some weight =>
                  if (weight <? 0)%Z then graise ValueError
                  else on_problem (set_edge_weight from_node to_node weight)
              end)
           (set_problem p' g0))
    /\ well_formed p'
    /\ cost_to_go p' = cost_to_go p /\ next_node p' = next_node p
    /\ (forall a b e, ((a, b), e) ∈ pre -> is_Some (weight_of p a b) ->
          weight_of p' a b = reading e)
    /\ (forall a b, (a, b) ∉ map fst pre -> weight_of p' a b = weight_of p a b).
Proof.
  induction pre as [|[[a b] e] pre IH]; intros p W Hnd Hall.
  - exists p. split_and!; try done. intros a b e Hin. by apply elem_of_nil in Hin.
  - apply Forall_cons in Hall as [Hacc Hall]. cbn [snd] in Hacc.
    cbn [map fst] in Hnd. apply NoDup_cons in Hnd as [Hfresh Hnd].
    unfold accepted in Hacc. destruct (reading e) as [w|] eqn:Hr; [|done].
    apply Z.leb_le in Hacc.
    destruct (set_edge_weight_views a b w p W)
      as (p1 & Hset & W1 & Htop & Hnone & Hsome).
    destruct (set_edge_weight_keeps a b w p) as [Hc1 Hn1].
    rewrite Hset in Hc1, Hn1. cbn [snd] in Hc1, Hn1.
    destruct (IH p1 W1 Hnd Hall) as (p' & Hrun & W' & Hc & Hn & Hin' & Hout').
    exists p'. split_and!; [|done|congruence|congruence| |].
    + intros rest. rewrite <- Hrun. rewrite <- app_comm_cons.
      cbn [gfor_each]. unfold gbind at 1. rewrite Hr.
      destruct (Z.ltb_spec w 0) as [|_]; [lia|].
      unfold on_problem at 1. cbn [problem set_problem]. by rewrite Hset.
    + intros a' b' e' Hin Hsm. apply elem_of_cons in Hin as [[= -> -> ->]|Hin].
      * rewrite (Hout' _ _ Hfresh), Hr. by apply Hsome.
      * apply Hin'; [done|].
        by apply (fixed_weight_keys p p1 a' b' (wf_topology _ W) (wf_topology _ W1)).
    + intros a' b' Hnin. cbn [map fst] in Hnin.
      apply not_elem_of_cons in Hnin as [Hne Hnin].
      rewrite (Hout' _ _ Hnin).
      destruct (weight_of p a b) as [w0|] eqn:Hw0.
      * by apply Hsome.
      * by rewrite (Hnone eq_refl).
Qed.

(** The solver on the fixed topology: what it returns is the least weight
    of a full path, with a path of that weight. *)
Lemma solve_optimal s fuel :
  fixed_topology s -> 5 <= fuel ->
  exists s' m path,
    solve_backward_induction fuel s = (Ok (Fin m, path), s')
    /\ heap s' = heap s /\ edges s' = edges s
    /\ default_edges s' = default_edges s
    /\ follows s' "A" path /\ length path <= 5
    /\ full_path s path /\ path_weight s path = Some m
    /\ (forall p m', full_path s p -> path_weight s p = Some m' -> (m <= m')%Z).
Proof.
  intros H Hfuel.
  destruct (solve_fixed s fuel H Hfuel)
    as (s' & c & p & Hrun & Hh & He & Hd & S & Hf & Hlen & Hc).
  assert ("A" ∈ all_nodes) as HA by (by apply (bool_decide_unpack _)).
  destruct (sv_live _ _ S "A" (fixed_live s "A" H HA)) as [m Hm].
  assert (c = Fin m) as -> by congruence.
  destruct (walk_weight s s' H S "A" p Hf HA m Hm) as (Hhd & Hlast & Hpw).
  assert (full_path s p) as Hfp.
  { split; [done|]. split; [done|]. by rewrite Hpw. }
  exists s', m, p.
  refine (conj Hrun (conj Hh (conj He (conj Hd (conj Hf (conj Hlen
            (conj Hfp (conj Hpw _)))))))).
  intros q m' (Hqh & Hql & _) Hqw.
  destruct (cost_lower_bound s s' H S q "A" m' Hqh Hql Hqw) as (c & Hc' & Hle).
  rewrite Hm in Hc'. injection Hc' as <-. exact Hle.
Qed.




(** [_solve_and_display] when its loop meets an entry that it does not
    accept. *)
Lemma reject_run g fuel pre k e post :
  well_formed (problem g) ->
  NoDup (map fst pre) ->
  weight_entries g = (pre ++ (k, e) :: post)%list ->
  Forall (fun ke => accepted (snd ke) = true) pre ->
  accepted e = false ->
  exists p1,
    GUI._solve_and_display fuel g
    = (Ok tt, set_error_boxes (S (error_boxes g)) (set_problem p1 g))
    /\ well_formed p1
    /\ cost_to_go p1 = cost_to_go (problem g)
    /\ next_node p1 = next_node (problem g)
    /\ (forall a b e', ((a, b), e') ∈ pre ->
          is_Some (weight_of (problem g) a b) -> weight_of p1 a b = reading e')
    /\ (forall a b, (a, b) ∉ map fst pre ->
          weight_of p1 a b = weight_of (problem g) a b).
Proof.
  intros W Hndp He Hall Hbad.
  destruct (apply_entries_loop g pre (problem g) W Hndp Hall)
    as (p1 & Hrun & W1 & Hc & Hn & Hin & Hout).
  assert (GUI.apply_entries g = (Raise ValueError, set_problem p1 g)) as Happ.
  { unfold GUI.apply_entries, gbind, ggets. rewrite He.
    specialize (Hrun ((k, e) :: post)). rewrite set_problem_id in Hrun.
    rewrite Hrun. destruct k as [a b]. cbn [gfor_each]. unfold gbind.
    unfold accepted in Hbad. destruct (reading e) as [w|]; [|done].
    destruct (Z.ltb_spec w 0) as [_|Hw]; [done|].
    apply Z.leb_gt in Hbad. lia. }
  exists p1. refine (conj _ (conj W1 (conj Hc (conj Hn (conj Hin Hout))))).
  unfold GUI._solve_and_display. by rewrite Happ.
Qed.



(** X17.  The button "EN KISA YOLU BUL" when some entry does not read as an
    integer or reads as a negative one: [_solve_and_display] catches the
    [ValueError], shows one error box and returns without solving, so the
    solver's tables and the result label are as before.  The entries that
    come before the first bad one have been applied all the same: their
    edges weigh what was typed, the other edges what they did. *)
Theorem solve_button_rejects_bad_entry g fuel pre k e post :
  well_formed (problem g) ->
  NoDup (map fst (weight_entries g)) ->
  weight_entries g = (pre ++ (k, e) :: post)%list ->
  Forall (fun ke => accepted (snd ke) = true) pre ->
  accepted e = false ->
  exists g',
    GUI._solve_and_display fuel g = (Ok tt, g')
    /\ error_boxes g' = S (error_boxes g)
    /\ result_label g' = result_label g
    /\ weight_entries g' = weight_entries g
    /\ cost_to_go (problem g') = cost_to_go (problem g)
    /\ next_node (problem g') = next_node (problem g)
    /\ (forall a b e', ((a, b), e') ∈ pre ->
          is_Some (weight_of (problem g) a b) ->
          weight_of (problem g') a b = reading e')
    /\ (forall a b, (a, b) ∉ map fst pre ->
          weight_of (problem g') a b = weight_of (problem g) a b).
Proof.
  intros W Hnd He Hall Hbad.
  assert (NoDup (map fst pre)) as Hndp.
  { rewrite He, map_app in Hnd. by apply NoDup_app in Hnd as (? & _). }
  destruct (reject_run g fuel pre k e post W Hndp He Hall Hbad)
    as (p1 & Hrun & _ & Hc & Hn & Hin & Hout).
  eexists. split; [exact Hrun|].
  cbn [problem weight_entries error_boxes result_label set_error_boxes
       set_problem].
  by refine (conj _ (conj _ (conj _ (conj Hc (conj Hn (conj Hin Hout)))))).
Qed.

Lemma solve_button_rejects_bad_entry_witness :
  let g := type_text ("B", "E") (Some 5%Z)
             (type_text ("B", "F") None new_gui) in
  let pre := firstn 4 (weight_entries g) in
  let post := skipn 5 (weight_entries g) in
  well_formed (problem g)
  /\ NoDup (map fst (weight_entries g))
  /\ weight_entries g = (pre ++ (("B", "F"), mkEntry (0, 4) None) :: post)%list
  /\ Forall (fun ke => accepted (snd ke) = true) pre
  /\ accepted (mkEntry (0, 4) None) = false
  /\ exists g',
       GUI._solve_and_display 5 g = (Ok tt, g')
       /\ error_boxes g' = S (error_boxes g)
       /\ result_label g' = result_label g
       /\ weight_entries g' = weight_entries g
       /\ cost_to_go (problem g') = cost_to_go (problem g)
       /\ next_node (problem g') = next_node (problem g)
       /\ (forall a b e', ((a, b), e') ∈ pre ->
             is_Some (weight_of (problem g) a b) ->
             weight_of (problem g') a b = reading e')
       /\ (forall a b, (a, b) ∉ map fst pre ->
             weight_of (problem g') a b = weight_of (problem g) a b).
Proof.
  intros g pre post.
  assert (well_formed (problem g)) as W.
  { assert (problem g = new_problem) as -> by (by vm_compute).
    exact new_problem_well_formed. }
  assert (NoDup (map fst (weight_entries g))) as Hnd.
  { apply (bool_decide_eq_true_1 (NoDup (map fst (weight_entries g)))).
    by vm_compute. }
  assert (weight_entries g
          = (pre ++ (("B", "F"), mkEntry (0, 4) None) :: post)%list) as He
    by (by vm_compute).
  assert (Forall (fun ke => accepted (snd ke) = true) pre) as Hall.
  { apply (bool_decide_eq_true_1
             (Forall (fun ke => accepted (snd ke) = true) pre)).
    by vm_compute. }
  split; [exact W|]. split; [exact Hnd|]. split; [exact He|].
  split; [exact Hall|]. split; [reflexivity|].
  exact (solve_button_rejects_bad_entry g 5 pre ("B", "F")
           (mkEntry (0, 4) None) post W Hnd He Hall eq_refl).
Defined.

(** ** The window in use *)









(** ** The cost as a function of the weights *)

Lemma weight_in_items s a b w :
  fixed_topology s -> weight_of s a b = Some w -> ((a, b), w) ∈ edge_items s.
Proof.
  intros H Hw. rewrite weight_of_neighbors in Hw. apply dict_get_elem in Hw.
  destruct (fixed_sources s a b w H Hw) as [Ha _].
  apply edge_items_elem. by split.
Qed.

Lemma weight_layered s a b w :
  fixed_topology s -> weight_of s a b = Some w ->
  exists k, stage_of a = Some k /\ stage_of b = Some (S k).
Proof.
  intros H Hw. rewrite weight_of_neighbors in Hw. apply dict_get_elem in Hw.
  by apply (fixed_layered s a b w).
Qed.

(** A path to "J" has one node per stage from its first node on, and its
    weight lies between the bounds of the weights, edge by edge. *)
Lemma path_span s lo hi :
  fixed_topology s ->
  (forall a b w, weight_of s a b = Some w -> (lo <= w <= hi)%Z) ->
  forall p u m, head p = Some u -> last p = Some "J" ->
    path_weight s p = Some m ->
    exists i, stage_of u = Some i /\ i + length p = 5
      /\ (Z.of_nat (length p - 1) * lo <= m
          <= Z.of_nat (length p - 1) * hi)%Z.
Proof.
  intros H Hr p.
  induction p as [|x [|y p] IH]; intros u m Hhd Hlast Hpw; [done|..].
  - injection Hhd as <-. injection Hlast as ->. injection Hpw as <-.
    exists 4. split; [by vm_compute|]. simpl. lia.
  - injection Hhd as <-.
    change (path_weight s (x :: y :: p))
      with (match weight_of s x y, path_weight s (y :: p) with
            | Some w, Some m => Some (w + m)%Z
            | _, _ => None
            end) in Hpw.
    destruct (weight_of s x y) as [w|] eqn:Hw; [|done].
    destruct (path_weight s (y :: p)) as [m1|] eqn:Hm1; [|done].
    injection Hpw as <-.
    destruct (IH y m1 eq_refl Hlast eq_refl) as (j & Hj & Hlen & Hb).
    destruct (weight_layered s x y w H Hw) as (k & Hk & Hk').
    assert (j = S k) as -> by congruence.
    exists k. split; [done|]. pose proof (Hr x y w Hw) as Hwr.
    cbn [length] in *. split; [lia|].
    replace (S (S (length p)) - 1) with (S (S (length p) - 1)) by lia.
    rewrite Nat2Z.inj_succ, !Z.mul_succ_l. lia.
Qed.

(** X19.  When every weight lies between [lo] and [hi], the solver returns
    a path of exactly five nodes, one per stage, and a cost between
    [4 * lo] and [4 * hi]. *)
Theorem cost_within_range s fuel lo hi :
  fixed_topology s ->
  (forall a b w, weight_of s a b = Some w -> (lo <= w <= hi)%Z) ->
  5 <= fuel ->
  exists s' m path,
    solve_backward_induction fuel s = (Ok (Fin m, path), s')
    /\ length path = 5
    /\ (4 * lo <= m <= 4 * hi)%Z.
Proof.
  intros H Hr Hfuel.
  destruct (solve_optimal s fuel H Hfuel)
    as (s' & m & path & Hrun & _ & _ & _ & _ & _ & Hfull & Hpw & _).
  destruct Hfull as (Hhd & Hlast & _).
  destruct (path_span s lo hi H Hr path "A" m Hhd Hlast Hpw)
    as (i & Hi & Hlen & Hb).
  assert (i = 0) as -> by (vm_compute in Hi; congruence).
  exists s', m, path. split; [done|]. split; [lia|].
  replace (length path - 1) with 4 in Hb by lia. lia.
Qed.

Lemma cost_within_range_witness :
  fixed_topology new_problem
  /\ (forall a b w, weight_of new_problem a b = Some w -> (1 <= w <= 7)%Z)
  /\ 5 <= 5
  /\ exists s' m path,
       solve_backward_induction 5 new_problem = (Ok (Fin m, path), s')
       /\ length path = 5
       /\ (4 * 1 <= m <= 4 * 7)%Z.
Proof.
  pose proof (wf_topology _ new_problem_well_formed) as H.
  assert (forall a b w, weight_of new_problem a b = Some w -> (1 <= w <= 7)%Z)
    as Hr.
  { intros a b w Hw. apply (weight_in_items _ _ _ _ H) in Hw.
    assert (Forall (fun item => (1 <= snd item <= 7)%Z) (edge_items new_problem))
      as Hall.
    { apply (bool_decide_eq_true_1
               (Forall (fun item => (1 <= snd item <= 7)%Z)
                  (edge_items new_problem))).
      by vm_compute. }
    rewrite Forall_forall in Hall. exact (Hall _ Hw). }
  split; [exact H|]. split; [exact Hr|]. split; [exact (le_n 5)|].
  exact (cost_within_range new_problem 5 1 7 H Hr (le_n 5)).
Defined.

(** A path that starts after the stage of [a] does not use an edge that
    leaves [a]. *)
Lemma path_weight_past s s' a k :
  fixed_topology s -> stage_of a = Some k ->
  (forall a' b', a' <> a -> weight_of s' a' b' = weight_of s a' b') ->
  forall p u i x, head p = Some u -> stage_of u = Some i -> k < i ->
    path_weight s p = Some x -> path_weight s' p = Some x.
Proof.
  intros H Hk Hoth p.
  induction p as [|y [|z p] IH]; intros u i x Hhd Hi Hlt Hpw; [done|done|].
  injection Hhd as <-.
  change (path_weight s (y :: z :: p))
    with (match weight_of s y z, path_weight s (z :: p) with
          | Some w, Some m => Some (w + m)%Z
          | _, _ => None
          end) in Hpw.
  change (path_weight s' (y :: z :: p))
    with (match weight_of s' y z, path_weight s' (z :: p) with
          | Some w, Some m => Some (w + m)%Z
          | _, _ => None
          end).
  destruct (weight_of s y z) as [wy|] eqn:Hwy; [|done].
  destruct (path_weight s (z :: p)) as [x1|] eqn:Hx1; [|done].
  destruct (weight_layered s y z wy H Hwy) as (j & Hj & Hj').
  assert (j = i) as -> by congruence.
  rewrite (Hoth y z), Hwy by (intros ->; rewrite Hk in Hi; injection Hi; lia).
  by rewrite (IH z (S i) x1 eq_refl Hj' ltac:(lia) eq_refl).
Qed.

(** Two tables that differ in the weight of one edge: a path weighs the
    same in both, or its weight differs by the difference of the two
    weights. *)
Lemma path_weight_one_edge s s' a b w0 w :
  fixed_topology s ->
  weight_of s a b = Some w0 -> weight_of s' a b = Some w ->
  (forall a' b', (a', b') <> (a, b) -> weight_of s' a' b' = weight_of s a' b') ->
  forall p x, path_weight s p = Some x ->
    exists x', path_weight s' p = Some x'
      /\ (x + Z.min 0 (w - w0) <= x' <= x + Z.max 0 (w - w0))%Z.
Proof.
  intros H Hw0 Hw Hoth.
  destruct (weight_layered s a b w0 H Hw0) as (k & Hk & Hk').
  intros p. induction p as [|y [|z p] IH]; intros x Hpw; [done|..].
  - injection Hpw as <-. exists 0%Z. split; [done|lia].
  - change (path_weight s (y :: z :: p))
      with (match weight_of s y z, path_weight s (z :: p) with
            | Some w, Some m => Some (w + m)%Z
            | _, _ => None
            end) in Hpw.
    change (path_weight s' (y :: z :: p))
      with (match weight_of s' y z, path_weight s' (z :: p) with
            | Some w, Some m => Some (w + m)%Z
            | _, _ => None
            end).
    destruct (weight_of s y z) as [wy|] eqn:Hwy; [|done].
    destruct (path_weight s (z :: p)) as [x1|] eqn:Hx1; [|done].
    injection Hpw as <-.
    destruct (decide ((y, z) = (a, b))) as [[= -> ->]|Hne].
    + assert (wy = w0) as -> by congruence. rewrite Hw.
      rewrite (path_weight_past s s' a k H Hk) with (u := b) (i := S k) (x := x1);
        [|intros a' b' Hne; apply Hoth; congruence|done|done|lia|done].
      exists (w + x1)%Z. split; [done|lia].
    + rewrite (Hoth y z Hne), Hwy.
      destruct (IH x1 eq_refl) as (x1' & -> & Hb).
      exists (wy + x1')%Z. split; [done|lia].
Qed.

(** X20.  One call of [set_edge_weight] that changes the weight of an edge
    from [w0] to [w] moves the cost that the solver returns in the same
    direction and by no more than the change: it lies between
    [m + min 0 (w - w0)] and [m + max 0 (w - w0)], for [m] the cost before
    the call. *)
Theorem one_edge_sensitivity s a b w0 w fuel :
  well_formed s ->
  weight_of s a b = Some w0 ->
  5 <= fuel ->
  exists s1 s2 m m' path path',
    solve_backward_induction fuel s = (Ok (Fin m, path), s1)
    /\ solve_backward_induction fuel (snd (set_edge_weight a b w s))
       = (Ok (Fin m', path'), s2)
    /\ (m + Z.min 0 (w - w0) <= m' <= m + Z.max 0 (w - w0))%Z.
Proof.
  intros W Hw0 Hfuel.
  pose proof (wf_topology _ W) as H.
  destruct (set_edge_weight_views a b w s W)
    as (e & Hset & We & _ & _ & Hsome).
  destruct Hsome as [Hw Hoth]; [by rewrite Hw0|].
  pose proof (wf_topology _ We) as He.
  rewrite Hset. cbn [snd].
  destruct (solve_optimal s fuel H Hfuel)
    as (s1 & m & p & Hrun & _ & _ & _ & _ & _ & Hfull & Hpw & Hmin).
  destruct (solve_optimal e fuel He Hfuel)
    as (s2 & m' & p' & Hrun' & _ & _ & _ & _ & _ & Hfull' & Hpw' & Hmin').
  exists s1, s2, m, m', p, p'. split; [done|]. split; [done|].
  destruct (path_weight_one_edge s e a b w0 w H Hw0 Hw Hoth p m Hpw)
    as (x' & Hx' & Hb).
  destruct (path_weight_one_edge e s a b w w0 He Hw Hw0) with (p := p') (x := m')
    as (x & Hx & Hb'); [by intros a' b' Hne; rewrite Hoth|done|].
  assert (m' <= x')%Z.
  { apply (Hmin' p x'); [|done]. destruct Hfull as (? & ? & _).
    split; [done|]. split; [done|]. by rewrite Hx'. }
  assert (m <= x)%Z.
  { apply (Hmin p' x); [|done]. destruct Hfull' as (? & ? & _).
    split; [done|]. split; [done|]. by rewrite Hx. }
  lia.
Qed.

Lemma one_edge_sensitivity_witness :
  well_formed new_problem
  /\ weight_of new_problem "D" "F" = Some 1%Z
  /\ 5 <= 5
  /\ exists s1 s2 m m' path path',
       solve_backward_induction 5 new_problem = (Ok (Fin m, path), s1)
       /\ solve_backward_induction 5
            (snd (set_edge_weight "D" "F" 9 new_problem))
          = (Ok (Fin m', path'), s2)
       /\ (m + Z.min 0 (9 - 1) <= m' <= m + Z.max 0 (9 - 1))%Z.
Proof.
  split; [exact new_problem_well_formed|]. split; [reflexivity|].
  split; [exact (le_n 5)|].
  exact (one_edge_sensitivity new_problem "D" "F" 1 9 5
           new_problem_well_formed eq_refl (le_n 5)).
Defined.
